(** * OmegaFold attention modules ([omegafold/modules.py])

    A shallow embedding of the chunked attention primitive ([softmax],
    [_attention], [attention]) and of the modules built on it ([Attention],
    [AttentionWEdgeBias], [GeometricAttention]), with the properties of the
    design document stated and proved (or refuted) against it.

    Scalars are kept abstract behind the class [Scalar]: every structural
    result holds for any deterministic arithmetic, floating point included.
    The numerical results are proved for the real numbers, the arithmetic the
    floating-point code approximates. *)

From Stdlib Require Import List ZArith Lia Bool Arith PeanoNat Ascii.
From Stdlib Require String.
From Stdlib Require Import Reals Lra.
Import ListNotations.

Set Implicit Arguments.

(** ** Scalars *)

(** The element type of a tensor with the operations the code applies to it. *)
Class Scalar (F : Type) := {
  fzero : F;
  fone : F;
  fadd : F -> F -> F;
  fsub : F -> F -> F;
  fmul : F -> F -> F;
  fdiv : F -> F -> F;
  fexp : F -> F;
  fmax : F -> F -> F;
  fsqrt : F -> F;
  fsigmoid : F -> F;
  (** [float(n)] *)
  fof_nat : nat -> F;
  (** [c ** (-0.5)] for an integer [c] *)
  fpow_neg_half : nat -> F;
  (** the literals [1e-5] and [1e9] *)
  f1e_5 : F;
  f1e9 : F;
}.

(** ** The option monad: [None] is a raised exception *)

Definition obind {A B} (m : option A) (f : A -> option B) : option B :=
  match m with
  | Some a => f a
  | None => None
  end.

Notation "x <- m ;; k" := (obind m (fun x => k))
  (at level 61, m at next level, right associativity).
Notation "' p <- m ;; k" := (obind m (fun x => match x with p => k end))
  (at level 61, p pattern, m at next level, right associativity).

Definition guard (b : bool) : option unit := if b then Some tt else None.

(** ** Tensors: the two trailing axes, batched *)

(** Every function of the attention primitive works on the two trailing axes
    of its arguments and is polymorphic in the leading (batch) axes.  A
    tensor is therefore a family of [nrows] x [ncols] matrices indexed by a
    batch index of type [I]; broadcasting over batch axes is a family that
    ignores part of its index. *)
Record bmat (I F : Type) := BMat {
  nrows : nat;
  ncols : nat;
  at_ : I -> nat -> nat -> F;
}.

Arguments BMat {I F} _ _ _.

(** Two tensors are the same when their shapes agree and their entries agree
    at every index inside the shape. *)
Definition bmat_eq {I F} (x y : bmat I F) : Prop :=
  nrows x = nrows y /\ ncols x = ncols y /\
  forall b i j, i < nrows x -> j < ncols x -> at_ x b i j = at_ y b i j.

(** The same for the outcome of a call: both raise, or both return the same. *)
Definition result_eq {I F} (r1 r2 : option (bmat I F * bmat I F)) : Prop :=
  match r1, r2 with
  | None, None => True
  | Some (o1, w1), Some (o2, w2) => bmat_eq o1 o2 /\ bmat_eq w1 w2
  | _, _ => False
  end.

(** *** Broadcasting of one axis (torch broadcasting semantics) *)

(** Size of an axis after broadcasting sizes [a] and [b]. *)
Definition bdim (a b : nat) : option nat :=
  if a =? b then Some a
  else if a =? 1 then Some b
  else if b =? 1 then Some a
  else None.

(** Index into an axis of size [n] that may have been expanded from 1. *)
Definition bidx (n i : nat) : nat := if n =? 1 then 0 else i.

(** An axis of size [a] can be expanded to size [n] (assignment, [out=]). *)
Definition expands_to (a n : nat) : bool := (a =? n) || (a =? 1).

(** *** Python slicing [start:end] of an axis of size [n] *)

Definition slice_clamp (n : nat) (z : Z) : nat :=
  if (z <? 0)%Z then Z.to_nat (Z.max (z + Z.of_nat n) 0)
  else Nat.min (Z.to_nat z) n.

Definition slice_start (n : nat) (start : Z) : nat := slice_clamp n start.

Definition slice_len (n : nat) (start stop : Z) : nat :=
  slice_clamp n stop - slice_clamp n start.

Section Primitive.

Context {I F : Type} {SF : Scalar F}.

Local Abbreviation tensor := (bmat I F).

(** Sum of [f 0 .. f (n-1)], accumulated from the left. *)
Fixpoint fsum (n : nat) (f : nat -> F) : F :=
  match n with
  | 0 => fzero
  | S m => fadd (fsum m f) (f m)
  end.

(** Maximum of [f 0 .. f m]. *)
Fixpoint fmax_upto (m : nat) (f : nat -> F) : F :=
  match m with
  | 0 => f 0
  | S k => fmax (fmax_upto k f) (f (S k))
  end.

(** [x[..., start:end, :]], a view of the rows [start:end] *)
Definition slice_rows (x : tensor) (start stop : Z) : tensor :=
  let s := slice_start (nrows x) start in
  BMat (slice_len (nrows x) start stop) (ncols x)
       (fun b i j => at_ x b (s + i) j).

(** [x.narrow(-2, start, length)] *)
Definition narrow (x : tensor) (start length : nat) : tensor :=
  BMat length (ncols x) (fun b i j => at_ x b (start + i) j).

(** The chunks [x.split(split_size, dim=-2)] cuts from an axis of size [n],
    each as (first row, number of rows), as torch implements it: a negative
    size is rejected, size 0 is accepted only for an empty axis, there is
    always at least one chunk and the last chunk takes what remains. *)
Definition split_bounds (n : nat) (split_size : Z) : option (list (nat * nat)) :=
  if (split_size <? 0)%Z then None
  else if (split_size =? 0)%Z then
    if n =? 0 then Some [(0, 0)] else None
  else
    let c := Z.to_nat split_size in
    let num_splits := Nat.max ((n + c - 1) / c) 1 in
    let last_split_size := c - (c * num_splits - n) in
    Some (map (fun i => (i * c,
                         if i <? num_splits - 1 then c else last_split_size))
              (seq 0 num_splits)).

(** [x.split(split_size, dim=-2)]: the chunks are views of [x]. *)
Definition torch_split (x : tensor) (split_size : Z) : option (list tensor) :=
  bounds <- split_bounds (nrows x) split_size ;;
  Some (map (fun sl => narrow x (fst sl) (snd sl)) bounds).

(** [torch.empty(..., n, m)]: a buffer of the given shape whose contents are
    whatever the allocator left there, here the family [junk]. *)
Definition torch_empty (junk : I -> nat -> nat -> F) (n m : nat) : tensor :=
  BMat n m junk.

(** [out[..., start:end, :] = res]: [res] is expanded to the shape of the
    slice and copied over it. *)
Definition setitem_rows (out : tensor) (start stop : Z) (res : tensor)
  : option tensor :=
  let s := slice_start (nrows out) start in
  let len := slice_len (nrows out) start stop in
  _ <- guard (expands_to (nrows res) len && expands_to (ncols res) (ncols out)) ;;
  Some (BMat (nrows out) (ncols out)
          (fun b i j =>
             if (s <=? i) && (i <? s + len)
             then at_ res b (bidx (nrows res) (i - s)) (bidx (ncols res) j)
             else at_ out b i j)).

(** [x * scale] with a scalar [scale] *)
Definition mul_scalar (x : tensor) (scale : F) : tensor :=
  BMat (nrows x) (ncols x) (fun b i j => fmul (at_ x b i j) scale).

(** Pointwise binary operation with broadcasting of both trailing axes. *)
Definition broadcast2 (op : F -> F -> F) (x y : tensor) : option tensor :=
  r <- bdim (nrows x) (nrows y) ;;
  c <- bdim (ncols x) (ncols y) ;;
  Some (BMat r c
          (fun b i j =>
             op (at_ x b (bidx (nrows x) i) (bidx (ncols x) j))
                (at_ y b (bidx (nrows y) i) (bidx (ncols y) j)))).

(** Pointwise binary operation written into its first argument
    ([torch.sub(x, y, out=x)], [x /= y]): the result has the shape of [x]. *)
Definition broadcast2_into (op : F -> F -> F) (x y : tensor) : option tensor :=
  _ <- guard (expands_to (nrows y) (nrows x) && expands_to (ncols y) (ncols x)) ;;
  Some (BMat (nrows x) (ncols x)
          (fun b i j =>
             op (at_ x b i j)
                (at_ y b (bidx (nrows y) i) (bidx (ncols y) j)))).

Definition tmap (f : F -> F) (x : tensor) : tensor :=
  BMat (nrows x) (ncols x) (fun b i j => f (at_ x b i j)).

(** [torch.einsum("...id, ...jd -> ...ij", q, k)] *)
Definition einsum_id_jd (q k : tensor) : option tensor :=
  d <- bdim (ncols q) (ncols k) ;;
  Some (BMat (nrows q) (nrows k)
          (fun b i j =>
             fsum d (fun e => fmul (at_ q b i (bidx (ncols q) e))
                                   (at_ k b j (bidx (ncols k) e))))).

(** [torch.einsum("...ij, ...jd -> ...id", a, v)] *)
Definition einsum_ij_jd (a v : tensor) : option tensor :=
  n <- bdim (ncols a) (nrows v) ;;
  Some (BMat (nrows a) (ncols v)
          (fun b i d =>
             fsum n (fun j => fmul (at_ a b i (bidx (ncols a) j))
                                   (at_ v b (bidx (nrows v) j) d)))).

(** The two trailing axes, addressed from the end as the code does. *)
Inductive axis := Rows | Cols.

Definition axis_of_dim (dim : Z) : option axis :=
  if (dim =? -1)%Z then Some Cols
  else if (dim =? -2)%Z then Some Rows
  else None.

(** [torch.max(x, dim, keepdim=True)[0]]: raises on an empty reduced axis. *)
Definition max_keepdim (x : tensor) (a : axis) : option tensor :=
  match a with
  | Cols =>
      _ <- guard (negb (ncols x =? 0)) ;;
      Some (BMat (nrows x) 1
              (fun b i _ => fmax_upto (ncols x - 1) (fun j => at_ x b i j)))
  | Rows =>
      _ <- guard (negb (nrows x =? 0)) ;;
      Some (BMat 1 (ncols x)
              (fun b _ j => fmax_upto (nrows x - 1) (fun i => at_ x b i j)))
  end.

(** [torch.sum(x, dim, keepdim=True)] *)
Definition sum_keepdim (x : tensor) (a : axis) : tensor :=
  match a with
  | Cols => BMat (nrows x) 1 (fun b i _ => fsum (ncols x) (fun j => at_ x b i j))
  | Rows => BMat 1 (ncols x) (fun b _ j => fsum (nrows x) (fun i => at_ x b i j))
  end.

(** [torch.softmax(x, dim)], the library function, as its documentation
    defines it: [exp(x_i) / sum_j exp(x_j)] along [dim]. *)
Definition torch_softmax (x : tensor) (a : axis) : tensor :=
  BMat (nrows x) (ncols x)
    (fun b i j =>
       match a with
       | Cols => fdiv (fexp (at_ x b i j))
                      (fsum (ncols x) (fun j' => fexp (at_ x b i j')))
       | Rows => fdiv (fexp (at_ x b i j))
                      (fsum (nrows x) (fun i' => fexp (at_ x b i' j)))
       end).

(** [softmax(x, dim, in_place=...)].  The in-place branch overwrites [x] in
    three steps; the value returned is the final content of that buffer. *)
Definition softmax (x : tensor) (dim : Z) (in_place : bool) : option tensor :=
  a <- axis_of_dim dim ;;
  if in_place then
    max_val <- max_keepdim x a ;;
    x <- broadcast2_into fsub x max_val ;;
    let x := tmap fexp x in
    let summed := sum_keepdim x a in
    x <- broadcast2_into fdiv x summed ;;
    Some x
  else
    Some (torch_softmax x a).

(** [_attention(query, key, scale, value, bias)] *)
Definition _attention (query key : tensor) (scale : F) (value bias : tensor)
  : option (tensor * tensor) :=
  logits <- einsum_id_jd (mul_scalar query scale) key ;;
  x <- broadcast2 fadd logits bias ;;
  attn <- softmax x (-1) true ;;
  out <- einsum_ij_jd attn value ;;
  Some (out, attn).

(** [subbatch_size or q_length]: [None] and [0] are both falsy. *)
Definition py_or (subbatch_size : option Z) (q_length : nat) : Z :=
  match subbatch_size with
  | None => Z.of_nat q_length
  | Some z => if (z =? 0)%Z then Z.of_nat q_length else z
  end.

(** One iteration of the loop of [attention]: the state is the pair of
    result buffers. *)
Definition attention_step (key : tensor) (scale : F) (value bias : tensor)
    (q_length : nat) (subbatch_size : Z)
    (st : tensor * tensor) (iq : nat * tensor) : option (tensor * tensor) :=
  let '(output, logits) := st in
  let '(i, q_i) := iq in
  let start := (Z.of_nat i * subbatch_size)%Z in
  let stop := ((Z.of_nat i + 1) * subbatch_size)%Z in
  let b_i := if negb (nrows bias =? q_length) then bias
             else slice_rows bias start stop in
  '(res, attn) <- _attention q_i key scale value b_i ;;
  output <- setitem_rows output start stop res ;;
  logits <- setitem_rows logits start stop attn ;;
  Some (output, logits).

Fixpoint for_each {S A} (body : S -> A -> option S) (l : list A) (st : S)
  : option S :=
  match l with
  | [] => Some st
  | a :: l' => st' <- body st a ;; for_each body l' st'
  end.

Definition enumerate {A} (l : list A) : list (nat * A) :=
  combine (seq 0 (length l)) l.

(** [attention(query, key, scale, value, bias, subbatch_size)] *)
Definition attention (junk : I -> nat -> nat -> F)
    (query key : tensor) (scale : F) (value bias : tensor)
    (subbatch_size : option Z) : option (tensor * tensor) :=
  let q_length := nrows query in
  let k_length := nrows key in
  let v_dim := ncols value in
  let subbatch_size := py_or subbatch_size q_length in
  let output := torch_empty junk q_length v_dim in
  let logits := torch_empty junk q_length k_length in
  chunks <- torch_split query subbatch_size ;;
  for_each (attention_step key scale value bias q_length subbatch_size)
           (enumerate chunks) (output, logits).

End Primitive.

(** ** The same functions on a store of tensors *)

(** [softmax(..., in_place=True)] overwrites the tensor it is given, and
    [split] and slicing return views that share storage with their base.  To
    say what a call may change, tensors live in a store: a tensor value is a
    handle on rows [h_off .. h_off + h_rows - 1] of the storage at [h_loc],
    and every torch operation reads its operands through their handles and
    either allocates its result or writes it through a handle. *)
Module Heap.

Record handle := Handle { h_loc : nat; h_off : nat; h_rows : nat }.

Section WithScalars.

Context {I F : Type} {SF : Scalar F}.

Local Abbreviation tensor := (bmat I F).

Definition heap := list tensor.

(** A computation on the store; an exception leaves the store as it is at
    the point where it is raised. *)
Definition M (A : Type) := heap -> option A * heap.

Definition ret {A} (a : A) : M A := fun h => (Some a, h).

Definition bind {A B} (m : M A) (f : A -> M B) : M B :=
  fun h => match m h with
           | (Some a, h') => f a h'
           | (None, h') => (None, h')
           end.

Definition lift {A} (o : option A) : M A := fun h => (o, h).

Fixpoint upd {A} (l : list A) (i : nat) (x : A) : list A :=
  match l, i with
  | [], _ => []
  | _ :: t, 0 => x :: t
  | a :: t, S i' => a :: upd t i' x
  end.

(** The tensor a handle denotes. *)
Definition read (x : handle) : M tensor :=
  fun h => (option_map (fun st => narrow st (h_off x) (h_rows x))
                       (nth_error h (h_loc x)), h).

(** A new storage holding [v], and the handle on all of it. *)
Definition alloc (v : tensor) : M handle :=
  fun h => (Some (Handle (length h) 0 (nrows v)), h ++ [v]).

(** Overwrite the rows a handle denotes with the rows of [v]. *)
Definition write (x : handle) (v : tensor) : M unit :=
  fun h => match nth_error h (h_loc x) with
           | Some st =>
               (Some tt,
                upd h (h_loc x)
                  (BMat (nrows st) (ncols st)
                     (fun b i j =>
                        if (h_off x <=? i) && (i <? h_off x + h_rows x)
                        then at_ v b (i - h_off x) j
                        else at_ st b i j)))
           | None => (None, h)
           end.

End WithScalars.

Notation "x <- m ;;; k" := (bind m (fun x => k))
  (at level 61, m at next level, right associativity).
Notation "' p <- m ;;; k" := (bind m (fun x => match x with p => k end))
  (at level 61, p pattern, m at next level, right associativity).

Section Functions.

Context {I F : Type} {SF : Scalar F}.

Local Abbreviation tensor := (bmat I F).
Local Abbreviation M := (@M I F).

(** [x[..., start:end, :]]: a view, no new storage *)
Definition slice_view (x : handle) (start stop : Z) : handle :=
  Handle (h_loc x) (h_off x + slice_start (h_rows x) start)
         (slice_len (h_rows x) start stop).

(** [x.split(split_size, dim=-2)]: views, no new storage *)
Definition split_views (x : handle) (split_size : Z) : M (list handle) :=
  bounds <- lift (split_bounds (h_rows x) split_size) ;;;
  ret (map (fun sl => Handle (h_loc x) (h_off x + fst sl) (snd sl)) bounds).

(** An operation with one operand that allocates its result. *)
Definition unary (op : tensor -> tensor) (x : handle) : M handle :=
  xv <- read x ;;; alloc (op xv).

(** An operation with two operands that allocates its result. *)
Definition binary (op : tensor -> tensor -> option tensor) (x y : handle)
  : M handle :=
  xv <- read x ;;; yv <- read y ;;; r <- lift (op xv yv) ;;; alloc r.

(** An operation with two operands that writes its result into the first
    ([torch.sub(x, y, out=x)], [x /= y]). *)
Definition binary_into (op : tensor -> tensor -> option tensor) (x y : handle)
  : M unit :=
  xv <- read x ;;; yv <- read y ;;; r <- lift (op xv yv) ;;; write x r.

(** [out[..., start:end, :] = res] *)
Definition setitem (out : handle) (start stop : Z) (res : handle)
  : M unit :=
  ov <- read out ;;; rv <- read res ;;;
  ov' <- lift (setitem_rows ov start stop rv) ;;;
  write out ov'.

(** [softmax(x, dim, in_place=...)] *)
Definition softmax (x : handle) (dim : Z) (in_place : bool) : M handle :=
  a <- lift (axis_of_dim dim) ;;;
  if in_place then
    xv <- read x ;;;
    mv <- lift (max_keepdim xv a) ;;;
    max_val <- alloc mv ;;;
    _ <- binary_into (broadcast2_into fsub) x max_val ;;;
    xv <- read x ;;;
    _ <- write x (tmap fexp xv) ;;;
    summed <- unary (fun xv => sum_keepdim xv a) x ;;;
    _ <- binary_into (broadcast2_into fdiv) x summed ;;;
    ret x
  else
    unary (fun xv => torch_softmax xv a) x.

(** [_attention(query, key, scale, value, bias)] *)
Definition _attention (query key : handle) (scale : F) (value bias : handle)
  : M (handle * handle) :=
  qs <- unary (fun q => mul_scalar q scale) query ;;;
  logits <- binary einsum_id_jd qs key ;;;
  x <- binary (broadcast2 fadd) logits bias ;;;
  attn <- softmax x (-1) true ;;;
  out <- binary einsum_ij_jd attn value ;;;
  ret (out, attn).

Fixpoint for_each {A} (body : A -> M unit) (l : list A) : M unit :=
  match l with
  | [] => ret tt
  | a :: l' => _ <- body a ;;; for_each body l'
  end.

(** The body of the loop of [attention]. *)
Definition attention_step (key : handle) (scale : F) (value bias : handle)
    (q_length : nat) (subbatch_size : Z) (output logits : handle)
    (iq : nat * handle) : M unit :=
  let '(i, q_i) := iq in
  let start := (Z.of_nat i * subbatch_size)%Z in
  let stop := ((Z.of_nat i + 1) * subbatch_size)%Z in
  let b_i := if negb (h_rows bias =? q_length) then bias
             else slice_view bias start stop in
  '(res, attn) <- _attention q_i key scale value b_i ;;;
  _ <- setitem output start stop res ;;;
  setitem logits start stop attn.

(** [attention(query, key, scale, value, bias, subbatch_size)] *)
Definition attention (junk : I -> nat -> nat -> F)
    (query key : handle) (scale : F) (value bias : handle)
    (subbatch_size : option Z) : M (handle * handle) :=
  vv <- read value ;;;
  let q_length := h_rows query in
  let k_length := h_rows key in
  let v_dim := ncols vv in
  let subbatch_size := py_or subbatch_size q_length in
  output <- alloc (torch_empty junk q_length v_dim) ;;;
  logits <- alloc (torch_empty junk q_length k_length) ;;;
  chunks <- split_views query subbatch_size ;;;
  _ <- for_each (attention_step key scale value bias q_length subbatch_size
                   output logits) (enumerate chunks) ;;;
  ret (output, logits).

End Functions.

End Heap.

(** ** Shapes: which calls raise, and the shape of what they return *)

(** The modules are written against the shape rules of torch: [einsum]
    equations, broadcasting, [unsqueeze]/[squeeze]/[transpose]/[permute],
    [split] and indexing.  This part runs the code on shapes alone; [None]
    is a raised exception.

    Every function of the code addresses axes from the end ([dim=-1],
    [-4], the [...] of einsum and of indexing), so a shape is kept with its
    LAST axis first: [of_dims [B; L; D]] is the list [[D; L; B]]. *)
Module Shape.

Definition shape := list nat.

Definition of_dims (dims : list nat) : shape := rev dims.

Definition ndim (s : shape) : nat := length s.

(** Position, counted from the last axis, of axis [d] (a Python index,
    negative or not) among [n] axes; [None] is an [IndexError]. *)
Definition axis_from_end (n : nat) (d : Z) : option nat :=
  match d with
  | Zneg p => let k := Pos.to_nat p - 1 in if k <? n then Some k else None
  | _ => let i := Z.to_nat d in if i <? n then Some (n - 1 - i) else None
  end.

Fixpoint insert_at (k x : nat) (s : shape) : option shape :=
  match k with
  | 0 => Some (x :: s)
  | S k' => match s with
            | [] => None
            | a :: s' => option_map (cons a) (insert_at k' x s')
            end
  end.

Fixpoint remove_at (k : nat) (s : shape) : shape :=
  match s, k with
  | [], _ => []
  | _ :: s', 0 => s'
  | a :: s', S k' => a :: remove_at k' s'
  end.

Fixpoint set_at (k x : nat) (s : shape) : shape :=
  match s, k with
  | [], _ => []
  | _ :: s', 0 => x :: s'
  | a :: s', S k' => a :: set_at k' x s'
  end.

(** [x.shape[d]] *)
Definition size (s : shape) (d : Z) : option nat :=
  k <- axis_from_end (ndim s) d ;; nth_error s k.

(** [x.unsqueeze(d)] *)
Definition unsqueeze (s : shape) (d : Z) : option shape :=
  k <- axis_from_end (S (ndim s)) d ;; insert_at k 1 s.

(** [x.squeeze(d)]: an axis of size other than 1 is left in place. *)
Definition squeeze (s : shape) (d : Z) : option shape :=
  k <- axis_from_end (ndim s) d ;;
  n <- nth_error s k ;;
  Some (if n =? 1 then remove_at k s else s).

(** [x.transpose(d1, d2)] *)
Definition transpose (s : shape) (d1 d2 : Z) : option shape :=
  k1 <- axis_from_end (ndim s) d1 ;;
  k2 <- axis_from_end (ndim s) d2 ;;
  n1 <- nth_error s k1 ;;
  n2 <- nth_error s k2 ;;
  Some (set_at k1 n2 (set_at k2 n1 s)).

Fixpoint nodupb (l : list nat) : bool :=
  match l with
  | [] => true
  | a :: l' => negb (existsb (Nat.eqb a) l') && nodupb l'
  end.

(** [x.permute(perm)]: [perm] must name every axis exactly once. *)
Definition permute (s : shape) (perm : list nat) : option shape :=
  let dims := rev s in
  _ <- guard ((length perm =? length dims)
              && forallb (fun p => p <? length dims) perm
              && nodupb perm) ;;
  Some (of_dims (map (fun p => nth p dims 0) perm)).

(** Broadcasting of two shapes, aligned at the last axis. *)
Fixpoint broadcast (s1 s2 : shape) : option shape :=
  match s1, s2 with
  | [], s => Some s
  | s, [] => Some s
  | a :: s1', b :: s2' =>
      d <- bdim a b ;; r <- broadcast s1' s2' ;; Some (d :: r)
  end.

(** [s] can be expanded to [t] (in-place operations, assignment). *)
Fixpoint expandable (s t : shape) : bool :=
  match s, t with
  | [], _ => true
  | _ :: _, [] => false
  | a :: s', b :: t' => expands_to a b && expandable s' t'
  end.

(** [x += y], [x *= y]: the result keeps the shape of [x]. *)
Definition inplace (x y : shape) : option shape :=
  _ <- guard (expandable y x) ;; Some x.

(** [nn.Linear(in_features, out_features)(x)] *)
Definition linear (in_features out_features : nat) (s : shape) : option shape :=
  match s with
  | d :: s' => if d =? in_features then Some (out_features :: s') else None
  | [] => None
  end.

(** [x[..., i]] *)
Definition select_last (s : shape) (i : nat) : option shape :=
  match s with
  | d :: s' => if i <? d then Some s' else None
  | [] => None
  end.

(** [x[..., i, :]] *)
Definition select_last2 (s : shape) (i : nat) : option shape :=
  match s with
  | d :: e :: s' => if i <? e then Some (d :: s') else None
  | _ => None
  end.

(** [x[..., None, ..., None, :]] with [k] times [None] *)
Definition none_before_last (k : nat) (s : shape) : option shape :=
  match s with
  | d :: s' => Some (d :: repeat 1 k ++ s')
  | [] => None
  end.

(** [x.split(split_size, dim=-1)] *)
Definition split_last (s : shape) (split_size : Z) : option (list shape) :=
  match s with
  | d :: s' =>
      bounds <- split_bounds d split_size ;;
      Some (map (fun sl => snd sl :: s') bounds)
  | [] => None
  end.

(** [x.split([n1; n2; ...], dim=-1)]: the sizes must add up. *)
Definition split_sections (s : shape) (sections : list nat)
  : option (list shape) :=
  match s with
  | d :: s' =>
      _ <- guard (fold_right Nat.add 0 sections =? d) ;;
      Some (map (fun n => n :: s') sections)
  | [] => None
  end.

(** [torch.stack([x, y], dim=-1)] *)
Definition stack2 (x y : shape) : option shape :=
  _ <- guard (if list_eq_dec Nat.eq_dec x y then true else false) ;;
  Some (2 :: x).

(** [nn.GLU()(x)]: halves the last axis, which must be even. *)
Definition glu (s : shape) : option shape :=
  match s with
  | d :: s' => if Nat.even d then Some (d / 2 :: s') else None
  | [] => None
  end.

(** [utils.normalize(x)], [utils.mask2bias(x)] and the pointwise functions
    keep the shape; [normalize] needs an axis to normalise over. *)
Definition normalize (s : shape) : option shape :=
  match s with
  | _ :: _ => Some s
  | [] => None
  end.

(** *** [torch.einsum] *)

(** One term of an equation: whether it starts with [...], and its labels
    with the LAST one first. *)
Definition term := (bool * list ascii)%type.

Definition is_space (c : ascii) : bool := Ascii.eqb c " "%char.

Definition parse_term (cs : list ascii) : term :=
  match filter (fun c => negb (is_space c)) cs with
  | "."%char :: "."%char :: "."%char :: labels => (true, rev labels)
  | labels => (false, rev labels)
  end.

(** Cut a list of characters at every [sep]. *)
Fixpoint split_on (sep : ascii) (cs : list ascii) : list (list ascii) :=
  match cs with
  | [] => [[]]
  | c :: cs' =>
      if Ascii.eqb c sep then [] :: split_on sep cs'
      else match split_on sep cs' with
           | w :: ws => (c :: w) :: ws
           | [] => [[c]]
           end
  end.

(** Cut at the arrow [->]. *)
Fixpoint split_arrow (cs : list ascii) : option (list ascii * list ascii) :=
  match cs with
  | "-"%char :: ">"%char :: rest => Some ([], rest)
  | c :: cs' =>
      '(l, r) <- split_arrow cs' ;; Some (c :: l, r)
  | [] => None
  end.

Definition parse_equation (eq : String.string) : option (list term * term) :=
  '(l, r) <- split_arrow (String.list_ascii_of_string eq) ;;
  Some (map parse_term (split_on ","%char l), parse_term r).

Definition env := list (ascii * nat).

Fixpoint lookup (e : env) (c : ascii) : option nat :=
  match e with
  | [] => None
  | (c', n) :: e' => if Ascii.eqb c c' then Some n else lookup e' c
  end.

(** Record that label [c] has size [n]; sizes of one label broadcast. *)
Fixpoint bind_label (e : env) (c : ascii) (n : nat) : option env :=
  match e with
  | [] => Some [(c, n)]
  | (c', m) :: e' =>
      if Ascii.eqb c c' then d <- bdim m n ;; Some ((c', d) :: e')
      else e'' <- bind_label e' c n ;; Some ((c', m) :: e'')
  end.

(** Bind the labels of one operand to its trailing axes; what is left are
    the axes of its [...]. *)
Fixpoint bind_labels (e : env) (labels : list ascii) (s : shape)
  : option (env * shape) :=
  match labels, s with
  | [], _ => Some (e, s)
  | _ :: _, [] => None
  | c :: labels', n :: s' =>
      e' <- bind_label e c n ;; bind_labels e' labels' s'
  end.

Fixpoint bind_operands (e : env) (ell : shape) (ops : list (term * shape))
  : option (env * shape) :=
  match ops with
  | [] => Some (e, ell)
  | ((has_ell, labels), s) :: ops' =>
      '(e', rest) <- bind_labels e labels s ;;
      _ <- guard (has_ell || (length rest =? 0)) ;;
      ell' <- broadcast ell rest ;;
      bind_operands e' ell' ops'
  end.

Fixpoint lookup_all (e : env) (labels : list ascii) : option shape :=
  match labels with
  | [] => Some []
  | c :: labels' =>
      n <- lookup e c ;; r <- lookup_all e labels' ;; Some (n :: r)
  end.

(** [torch.einsum(eq, *operands)] *)
Definition einsum (eq : String.string) (operands : list shape) : option shape :=
  '(terms, (out_ell, out_labels)) <- parse_equation eq ;;
  _ <- guard (length terms =? length operands) ;;
  '(e, ell) <- bind_operands [] [] (combine terms operands) ;;
  out <- lookup_all e out_labels ;;
  Some (out ++ (if out_ell then ell else [])).

(** *** The attention primitive on shapes *)

Import String.StringSyntax.
Local Open Scope string_scope.

(** [softmax(x, dim, in_place=True)]: [torch.max] raises on an empty axis. *)
Definition softmax (x : shape) (dim : Z) : option shape :=
  n <- size x dim ;;
  _ <- guard (negb (n =? 0)) ;;
  Some x.

Definition _attention (query key value bias : shape)
  : option (shape * shape) :=
  logits <- einsum "...id, ...jd -> ...ij" [query; key] ;;
  x <- broadcast logits bias ;;
  attn <- softmax x (-1) ;;
  out <- einsum "...ij, ...jd -> ...id" [attn; value] ;;
  Some (out, attn).

Definition attention_step (key value : shape) (bias : option shape)
    (q_length : nat) (subbatch_size : Z) (output logits : shape)
    (iq : nat * shape) : option unit :=
  let '(i, q_i) := iq in
  let start := (Z.of_nat i * subbatch_size)%Z in
  let stop := ((Z.of_nat i + 1) * subbatch_size)%Z in
  bias <- bias ;;
  bias_rows <- size bias (-2) ;;
  let b_i := if negb (bias_rows =? q_length) then bias
             else set_at 1 (slice_len bias_rows start stop) bias in
  '(res, attn) <- _attention q_i key value b_i ;;
  let len := slice_len q_length start stop in
  _ <- guard (expandable res (set_at 1 len output)) ;;
  guard (expandable attn (set_at 1 len logits)).

Fixpoint all_ok {A} (body : A -> option unit) (l : list A) : option unit :=
  match l with
  | [] => Some tt
  | a :: l' => _ <- body a ;; all_ok body l'
  end.

Definition attention (query key value : shape) (bias : option shape)
    (subbatch_size : option Z) : option (shape * shape) :=
  q_length <- size query (-2) ;;
  k_length <- size key (-2) ;;
  v_dim <- size value (-1) ;;
  let subbatch_size := py_or subbatch_size q_length in
  let batch_shape := skipn 2 query in
  let output := v_dim :: q_length :: batch_shape in
  let logits := k_length :: q_length :: batch_shape in
  bounds <- split_bounds q_length subbatch_size ;;
  let chunks := map (fun sl => set_at 1 (snd sl) query) bounds in
  _ <- all_ok (attention_step key value bias q_length subbatch_size
                 output logits) (enumerate chunks) ;;
  Some (output, logits).

(** *** [Attention] *)

Module Attention.

Record t := Make {
  q_dim : nat;
  kv_dim : nat;
  n_head : nat;
  gating : bool;
  c : nat;
  out_dim : nat;
  n_axis : nat;
}.

Definition qg_weights (self : t) : shape :=
  of_dims [q_dim self; n_axis self; n_head self;
           ((if gating self then 1 else 0) + 1) * c self].
Definition kv_weights (self : t) : shape :=
  of_dims [kv_dim self; n_axis self; n_head self; 2 * c self].
Definition qg_bias (self : t) : shape :=
  of_dims [n_axis self; n_head self; 1;
           c self * (1 + (if gating self then 1 else 0))].
Definition kv_bias (self : t) : shape :=
  of_dims [n_axis self; n_head self; 1; c self * 2].
Definition o_weights (self : t) : shape :=
  of_dims [n_axis self; n_head self; c self; out_dim self].
Definition o_bias (self : t) : shape := of_dims [out_dim self; n_axis self].

(** [Attention.forward(q_inputs, kv_inputs, bias, fwd_cfg=...)];
    [fwd_cfg] is [None] or carries its [subbatch_size]. *)
Definition forward (self : t) (q_inputs kv_inputs : shape)
    (bias : option shape) (fwd_cfg : option (option Z))
  : option (shape * shape) :=
  q_last <- size q_inputs (-1) ;;
  let to_unsqueeze :=
    negb (q_last =? n_axis self) && (q_last =? q_dim self) in
  q_inputs <- (if to_unsqueeze then unsqueeze q_inputs (-1)
               else Some q_inputs) ;;
  kv_inputs <- (if to_unsqueeze then unsqueeze kv_inputs (-1)
                else Some kv_inputs) ;;
  bias <- (if to_unsqueeze then
             match bias with
             | Some b => b' <- unsqueeze b (-4) ;; Some (Some b')
             | None => Some None
             end
           else Some bias) ;;
  qg <- einsum "...qar,arhc->...rhqc" [q_inputs; qg_weights self] ;;
  qg <- inplace qg (qg_bias self) ;;
  q_out <- split_last qg (Z.of_nat (c self)) ;;
  q <- nth_error q_out 0 ;;
  kv <- einsum "...kar,arhc->...rhkc" [kv_inputs; kv_weights self] ;;
  kv <- inplace kv (kv_bias self) ;;
  kv_out <- split_sections kv [c self; c self] ;;
  k <- nth_error kv_out 0 ;;
  v <- nth_error kv_out 1 ;;
  subbatch_size <- match fwd_cfg with
                   | None => r <- size q (-4) ;; Some (Some (Z.of_nat r))
                   | Some cfg => Some cfg
                   end ;;
  (* scale = self.c ** (-0.5): a ZeroDivisionError for c = 0 *)
  _ <- guard (negb (c self =? 0)) ;;
  '(attn_out, logits) <- attention q k v bias subbatch_size ;;
  attn_out <- (if gating self then
                 g <- nth_error q_out 1 ;; inplace attn_out g
               else Some attn_out) ;;
  output <- einsum "...rhqc,rhco->...qor" [attn_out; o_weights self] ;;
  output <- inplace output (o_bias self) ;;
  '(output, logits) <- (if to_unsqueeze then
                          o <- squeeze output (-1) ;;
                          l <- squeeze logits (-4) ;;
                          Some (o, l)
                        else Some (output, logits)) ;;
  l1 <- transpose (1 :: logits) (-1) (-4) ;;
  l2 <- squeeze l1 (-4) ;;
  Some (output, l2).

End Attention.

(** *** [AttentionWEdgeBias] *)

Module AttentionWEdgeBias.

Record t := Make {
  d_node : nat;
  d_edge : nat;
  n_head : nat;
  attn_gating : bool;
  attn_c : nat;
}.

Definition attention (self : t) : Attention.t :=
  Attention.Make (d_node self) (d_node self) (n_head self)
    (attn_gating self) (attn_c self) (d_node self) 1.

Definition forward (self : t) (node_repr edge_repr mask : shape)
    (fwd_cfg : option (option Z)) : option shape :=
  node_repr <- normalize node_repr ;;
  edge_repr <- normalize edge_repr ;;
  projected <- linear (d_edge self) (n_head self) edge_repr ;;
  edge_bias <- permute projected [2; 0; 1] ;;
  mask_bias <- none_before_last 2 mask ;;
  bias <- broadcast edge_bias mask_bias ;;
  '(attn_out, _) <- Attention.forward (attention self) node_repr node_repr
                      (Some bias) fwd_cfg ;;
  Some attn_out.

End AttentionWEdgeBias.

(** *** [GeometricAttention] *)

Module GeometricAttention.

Record t := Make {
  d_edge : nat;
  c : nat;
  n_head : nat;
  n_axis : nat;
}.

Definition attention (self : t) : Attention.t :=
  Attention.Make (d_edge self) (d_edge self) (n_head self) true (c self)
    (d_edge self) (n_axis self).

Definition forward (self : t) (edge_repr mask : shape) : option shape :=
  edge_repr <- normalize edge_repr ;;
  edge_t <- transpose edge_repr (-2) (-3) ;;
  edge_stacked <- stack2 edge_repr edge_t ;;
  b <- einsum "...qkcr,crh->...rhqk"
         [edge_stacked; of_dims [d_edge self; n_axis self; n_head self]] ;;
  b <- broadcast b (of_dims [n_axis self; n_head self; 1; 1]) ;;
  mask_bias <- none_before_last 3 mask ;;
  b <- inplace b mask_bias ;;
  '(attended, _) <- Attention.forward (attention self) edge_stacked
                      edge_stacked (Some b) None ;;
  act <- einsum "...dr,drc->...rc"
           [edge_stacked; of_dims [d_edge self; n_axis self; d_edge self * 5]] ;;
  act <- broadcast act (of_dims [n_axis self; d_edge self * 5]) ;;
  act_g <- split_sections act [d_edge self * 4; d_edge self] ;;
  act <- nth_error act_g 0 ;;
  g <- nth_error act_g 1 ;;
  act <- glu act ;;
  edge_mask <- broadcast (mask ++ [1]) (1 :: mask) ;;
  act <- inplace act (1 :: 1 :: edge_mask) ;;
  halves <- split_sections act [d_edge self; d_edge self] ;;
  left <- nth_error halves 0 ;;
  right <- nth_error halves 1 ;;
  ab <- einsum "...ikrd,...jkrd->...ijrd" [left; right] ;;
  ab <- normalize ab ;;
  ab <- einsum "...rd,rdc->...rc"
          [ab; of_dims [n_axis self; d_edge self; d_edge self]] ;;
  ab <- broadcast ab (of_dims [n_axis self; d_edge self]) ;;
  gated <- broadcast ab g ;;
  gated0 <- select_last2 gated 0 ;;
  gated1 <- select_last2 gated 1 ;;
  attended0 <- select_last attended 0 ;;
  attended1 <- select_last attended 1 ;;
  attended1_t <- transpose attended1 (-2) (-3) ;;
  gated_sum <- broadcast gated0 gated1 ;;
  attended_sum <- broadcast attended0 attended1_t ;;
  broadcast gated_sum attended_sum.

End GeometricAttention.

(** *** [MultiHeadedScaling] *)

(** [x.split(sections, dim=d)] *)
Definition split_sections_at (s : shape) (sections : list nat) (d : Z)
  : option (list shape) :=
  k <- axis_from_end (ndim s) d ;;
  n <- nth_error s k ;;
  _ <- guard (fold_right Nat.add 0 sections =? n) ;;
  Some (map (fun m => set_at k m s) sections).

(** A list comprehension whose body may raise. *)
Fixpoint map_all {A B} (f : A -> option B) (l : list A) : option (list B) :=
  match l with
  | [] => Some []
  | a :: l' => b <- f a ;; r <- map_all f l' ;; Some (b :: r)
  end.

Module MultiHeadedScaling.

(** The [shape] argument of the constructor: an integer or a list. *)
Inductive shape_arg := Int (n : nat) | Dims (l : list nat).

Record t := Make {
  unsqueeze_dim : Z;
  (** [self.shape], the shape of [weight] and of [bias] *)
  weight : shape;
  split_dims : list nat;
  call_on_out_ready : option (shape -> option shape);
}.

(** [MultiHeadedScaling(shape, num_heads, on_out_ready)] *)
Definition init (shape : shape_arg) (num_heads : nat)
    (on_out_ready : option (Shape.shape -> option Shape.shape)) : t :=
  let shape := match shape with
               | Int n => [n]
               | Dims l => l
               end in
  {| unsqueeze_dim := - (Z.of_nat (length shape) + 1);
     weight := of_dims (num_heads :: shape);
     split_dims := repeat 1 num_heads;
     call_on_out_ready := on_out_ready |}.

(** [MultiHeadedScaling.forward(x)] *)
Definition forward (self : t) (x : shape) : option (list shape) :=
  x <- unsqueeze x (unsqueeze_dim self) ;;
  x <- broadcast x (weight self) ;;
  x <- broadcast x (weight self) ;;
  let positive_index := (Z.of_nat (ndim x) + unsqueeze_dim self)%Z in
  x <- match call_on_out_ready self with
       | Some f => f x
       | None => Some x
       end ;;
  xs <- split_sections_at x (split_dims self) positive_index ;;
  map_all (fun x_i => squeeze x_i positive_index) xs.

End MultiHeadedScaling.

(** *** [Node2Edge] *)

Module Node2Edge.

Record t := Make {
  in_dim : nat;
  proj_dim : nat;
  out_dim : nat;
}.

(** [Node2Edge.forward(node_repr, mask)] *)
Definition forward (self : t) (node_repr mask : shape) : option shape :=
  node_repr <- normalize node_repr ;;
  act <- linear (in_dim self) (proj_dim self * 2) node_repr ;;
  let mask := 1 :: mask in
  act <- broadcast act mask ;;
  norm <- einsum "...sid, ...sjd->...ijd" [mask; mask] ;;
  halves <- split_last act (Z.of_nat (proj_dim self)) ;;
  match halves with
  | [l; r] =>
      out <- einsum "...sid, def, ...sje-> ...ijf"
               [l; of_dims [proj_dim self; proj_dim self; out_dim self]; r] ;;
      out <- broadcast out (of_dims [out_dim self]) ;;
      broadcast out norm
  | _ => None
  end.

End Node2Edge.

End Shape.

(** ** Values: what the modules compute *)

(** The modules on the values of their tensors, for the unbatched inputs
    they are written for ([Shape] above says which shapes are accepted).  A
    tensor of rank [k] is a function of [k] indices; the sizes come from the
    hyper-parameters of the module and from the sequence length. *)
Module Value.

Section WithScalars.

Context {F : Type} {SF : Scalar F}.

(** Modelled from the spec: [utils.normalize] is not part of
    [modules.py].  It is the standard mean/variance normalisation over the
    trailing feature axis (section 4.6): the mean is subtracted and the
    result divided by the standard deviation, with a small epsilon ([1e-5])
    added to the variance for numerical stability; scale 1 and shift 0. *)
Definition normalize (n : nat) (x : nat -> F) : nat -> F :=
  let mean := fdiv (fsum n x) (fof_nat n) in
  let var :=
    fdiv (fsum n (fun i => fmul (fsub (x i) mean) (fsub (x i) mean)))
         (fof_nat n) in
  fun i => fdiv (fsub (x i) mean) (fsqrt (fadd var f1e_5)).

(** Modelled from the spec: [utils.mask2bias] is not part of
    [modules.py].  It maps 1 to 0 and 0 to the large negative constant
    [-1e9] (section 4.6): [(mask - 1) * 1e9]. *)
Definition mask2bias (m : F) : F := fmul (fsub m fone) f1e9.

(** *** [Attention] *)

(** The learned parameters, indexed as their tensors are:
    [qg_weights[a][r][h][c]], [qg_bias[r][h][0][c]], [o_weights[r][h][c][o]],
    [o_bias[o][r]]. *)
Record Attention_params := {
  qg_weights : nat -> nat -> nat -> nat -> F;
  kv_weights : nat -> nat -> nat -> nat -> F;
  qg_bias : nat -> nat -> nat -> nat -> F;
  kv_bias : nat -> nat -> nat -> nat -> F;
  o_weights : nat -> nat -> nat -> nat -> F;
  o_bias : nat -> nat -> F;
}.

Section AttentionForward.

Context {Ib : Type}.
Variable self : Shape.Attention.t.
Variable P : Attention_params.
(** sequence lengths of the queries and of the keys *)
Variables Lq Lk : nat.
(** [q_inputs[b][q][a][r]], [kv_inputs[b][k][a][r]] with the track axis in
    place, and [bias[b][r][h][q][k]] broadcast to its full shape *)
Variables q_inputs kv_inputs : Ib -> nat -> nat -> nat -> F.
Variable bias : Ib -> nat -> nat -> nat -> nat -> F.

Local Abbreviation c := (Shape.Attention.c self).

(** [qg = einsum('...qar,arhc->...rhqc', q_inputs, qg_weights) + qg_bias] *)
Definition qg (b : Ib) (r h q c' : nat) : F :=
  fadd (fsum (Shape.Attention.q_dim self)
          (fun a => fmul (q_inputs b q a r) (qg_weights P a r h c')))
       (qg_bias P r h 0 c').

(** [kv = einsum('...kar,arhc->...rhkc', kv_inputs, kv_weights) + kv_bias] *)
Definition kv (b : Ib) (r h k c' : nat) : F :=
  fadd (fsum (Shape.Attention.kv_dim self)
          (fun a => fmul (kv_inputs b k a r) (kv_weights P a r h c')))
       (kv_bias P r h 0 c').

(** The arguments of the call of [attention], one matrix per batch entry,
    track and head: [q = qg.split(c)[0]], [k, v = kv.split([c, c])]. *)
Definition query : bmat (Ib * nat * nat) F :=
  BMat Lq c (fun '(b, r, h) i j => qg b r h i j).
Definition key : bmat (Ib * nat * nat) F :=
  BMat Lk c (fun '(b, r, h) i j => kv b r h i j).
Definition value : bmat (Ib * nat * nat) F :=
  BMat Lk c (fun '(b, r, h) i j => kv b r h i (c + j)).
Definition bias_arg : bmat (Ib * nat * nat) F :=
  BMat Lq Lk (fun '(b, r, h) i j => bias b r h i j).

(** [q_out[1]], the gate *)
Definition gate (b : Ib) (r h q c' : nat) : F := qg b r h q (c + c').

(** [attn_out *= sigmoid(gate)] when gating *)
Definition gated_out (attn_out : bmat (Ib * nat * nat) F)
    (b : Ib) (r h q c' : nat) : F :=
  if Shape.Attention.gating self
  then fmul (at_ attn_out (b, r, h) q c') (fsigmoid (gate b r h q c'))
  else at_ attn_out (b, r, h) q c'.

(** [einsum('...rhqc,rhco->...qor', attn_out, o_weights) + o_bias] *)
Definition project_out (attn_out : Ib -> nat -> nat -> nat -> nat -> F)
    (b : Ib) (q o r : nat) : F :=
  fadd (fsum (Shape.Attention.n_head self)
          (fun h => fsum c
             (fun c' => fmul (attn_out b r h q c') (o_weights P r h c' o))))
       (o_bias P o r).

(** [Attention.forward] once the track axis is in place: returns
    [output[b][q][o][r]] and the weights [logits[b][r][q][k][h]]. *)
Definition Attention_forward (junk : Ib * nat * nat -> nat -> nat -> F)
    (fwd_cfg : option (option Z))
  : option ((Ib -> nat -> nat -> nat -> F) *
            (Ib -> nat -> nat -> nat -> nat -> F)) :=
  let subbatch_size :=
    match fwd_cfg with
    | None => Some (Z.of_nat (Shape.Attention.n_axis self))
    | Some cfg => cfg
    end in
  _ <- guard (negb (c =? 0)) ;;
  '(attn_out, logits) <-
     attention junk query key (fpow_neg_half c) value bias_arg
       subbatch_size ;;
  Some (project_out (gated_out attn_out),
        fun b r q k h => at_ logits (b, r, h) q k).

End AttentionForward.

(** *** [AttentionWEdgeBias] *)

Record AttentionWEdgeBias_params := {
  (** [proj_edge_bias.weight[h][e]] and [proj_edge_bias.bias[h]] *)
  proj_weight : nat -> nat -> F;
  proj_bias : nat -> F;
  node_attention : Attention_params;
}.

Section AttentionWEdgeBiasForward.

Variable self : Shape.AttentionWEdgeBias.t.
Variable P : AttentionWEdgeBias_params.
Variable L : nat.
(** [node_repr[i][a]], [edge_repr[i][j][e]], [mask[i]] *)
Variable node_repr : nat -> nat -> F.
Variable edge_repr : nat -> nat -> nat -> F.
Variable mask : nat -> F.

Definition node_normalized (i : nat) : nat -> F :=
  normalize (Shape.AttentionWEdgeBias.d_node self) (node_repr i).

Definition edge_normalized (i j : nat) : nat -> F :=
  normalize (Shape.AttentionWEdgeBias.d_edge self) (edge_repr i j).

(** [edge_bias = proj_edge_bias(edge_repr).permute(2, 0, 1)] *)
Definition edge_bias (h q k : nat) : F :=
  fadd (fsum (Shape.AttentionWEdgeBias.d_edge self)
          (fun e => fmul (edge_normalized q k e) (proj_weight P h e)))
       (proj_bias P h).

(** [bias = edge_bias + mask2bias(mask[..., None, None, :])] *)
Definition node_bias (h q k : nat) : F :=
  fadd (edge_bias h q k) (mask2bias (mask k)).

(** The logit of key [k] for query [q] in head [h] before the mask bias is
    added: the scaled dot product of the projected query and key
    ([_attention], line 89) plus the projected edge bias. *)
Definition unmasked_logit (h q k : nat) : F :=
  let att := Shape.AttentionWEdgeBias.attention self in
  let inputs := fun (_ : unit) i a (_ : nat) => node_normalized i a in
  fadd (fsum (Shape.Attention.c att)
          (fun e =>
             fmul (fmul (qg att (node_attention P) inputs tt 0 h q e)
                        (fpow_neg_half (Shape.Attention.c att)))
                  (kv att (node_attention P) inputs tt 0 h k e)))
       (edge_bias h q k).

(** The call [self.attention(node_repr, node_repr, bias=bias, ...)]: the
    inputs are plain, so the track axis is inserted, and it is removed from
    the two results ([n_axis] is 1).  Returns [attn_out[q][o]] and the
    weights [[q][k][h]]. *)
Definition AttentionWEdgeBias_attention
    (junk : unit * nat * nat -> nat -> nat -> F)
    (fwd_cfg : option (option Z))
  : option ((nat -> nat -> F) * (nat -> nat -> nat -> F)) :=
  (* to_unsqueeze *)
  _ <- guard (negb (Shape.AttentionWEdgeBias.d_node self =? 1)) ;;
  '(output, logits) <-
     Attention_forward (Shape.AttentionWEdgeBias.attention self)
       (node_attention P) L L
       (fun _ q a _ => node_normalized q a)
       (fun _ k a _ => node_normalized k a)
       (fun _ _ h q k => node_bias h q k)
       junk fwd_cfg ;;
  Some (fun q o => output tt q o 0, fun q k h => logits tt 0 q k h).

(** [AttentionWEdgeBias.forward]: the weights are dropped. *)
Definition AttentionWEdgeBias_forward
    (junk : unit * nat * nat -> nat -> nat -> F)
    (fwd_cfg : option (option Z)) : option (nat -> nat -> F) :=
  '(attn_out, _) <- AttentionWEdgeBias_attention junk fwd_cfg ;;
  Some attn_out.

End AttentionWEdgeBiasForward.

(** *** [GeometricAttention] *)

Record GeometricAttention_params := {
  (** [linear_b_weights[c][r][h]], [linear_b_bias[r][h][0][0]] *)
  linear_b_weights : nat -> nat -> nat -> F;
  linear_b_bias : nat -> nat -> F;
  (** [act_w[d][r][c]], [act_b[r][c]] *)
  act_w : nat -> nat -> nat -> F;
  act_b : nat -> nat -> F;
  (** [out_proj_w[r][d][c]], [out_proj_b[r][c]] *)
  out_proj_w : nat -> nat -> nat -> F;
  out_proj_b : nat -> nat -> F;
  edge_attention : Attention_params;
}.

Section GeometricAttentionForward.

Variable self : Shape.GeometricAttention.t.
Variable P : GeometricAttention_params.
Variable L : nat.
(** [edge_repr[i][j][d]], [mask[i]] *)
Variable edge_repr : nat -> nat -> nat -> F.
Variable mask : nat -> F.

Local Abbreviation d_edge := (Shape.GeometricAttention.d_edge self).

(** [edge_stacked = stack([edge_repr, edge_repr.transpose(-2, -3)], -1)]
    of the normalised edges: [edge_stacked[i][j][d][r]] *)
Definition edge_stacked (i j d r : nat) : F :=
  match r with
  | 0 => normalize d_edge (edge_repr i j) d
  | _ => normalize d_edge (edge_repr j i) d
  end.

(** [b = einsum('...qkcr,crh->...rhqk', edge_stacked, linear_b_weights)
        + linear_b_bias; b += mask2bias(mask[..., None, None, None, :])] *)
Definition pair_bias (r h q k : nat) : F :=
  fadd (fadd (fsum d_edge
                (fun c => fmul (edge_stacked q k c r)
                               (linear_b_weights P c r h)))
             (linear_b_bias P r h))
       (mask2bias (mask k)).

(** [attended, _ = self.attention(edge_stacked, edge_stacked, b)]: the first
    pair axis is the batch axis of the call; [attended[i][j][o][r]]. *)
Definition attended (junk : nat * nat * nat -> nat -> nat -> F)
  : option (nat -> nat -> nat -> nat -> F) :=
  '(output, _) <-
     Attention_forward (Shape.GeometricAttention.attention self)
       (edge_attention P) L L edge_stacked edge_stacked
       (fun _ r h q k => pair_bias r h q k) junk None ;;
  Some output.

(** [act = einsum('...dr,drc->...rc', edge_stacked, act_w) + act_b] *)
Definition act_proj (i j r c : nat) : F :=
  fadd (fsum d_edge (fun d => fmul (edge_stacked i j d r) (act_w P d r c)))
       (act_b P r c).

(** [act, g = act.split([d_edge * 4, d_edge], dim=-1)] *)
Definition gate_channels (i j r d : nat) : F := act_proj i j r (d_edge * 4 + d).

(** [act = glu(act)]: the first half times the sigmoid of the second. *)
Definition act_glu (i j r c : nat) : F :=
  fmul (act_proj i j r c) (fsigmoid (act_proj i j r (d_edge * 2 + c))).

(** [edge_mask = mask[None, ...] * mask[..., None]] *)
Definition edge_mask (i j : nat) : F := fmul (mask j) (mask i).

(** [act *= edge_mask[..., None, None]] *)
Definition act_masked (i j r c : nat) : F :=
  fmul (act_glu i j r c) (edge_mask i j).

(** [ab = einsum('...ikrd,...jkrd->...ijrd', *act.split([d_edge, d_edge]))] *)
Definition outer (i j r d : nat) : F :=
  fsum L (fun k => fmul (act_masked i k r d) (act_masked j k r (d_edge + d))).

(** [ab = einsum('...rd,rdc->...rc', normalize(ab), out_proj_w) + out_proj_b] *)
Definition outer_proj (i j r c : nat) : F :=
  fadd (fsum d_edge
          (fun d => fmul (normalize d_edge (outer i j r) d)
                         (out_proj_w P r d c)))
       (out_proj_b P r c).

(** [gated = ab * g.sigmoid()] *)
Definition gated (i j r c : nat) : F :=
  fmul (outer_proj i j r c) (fsigmoid (gate_channels i j r c)).

(** Pointwise sum, selection of a track and exchange of the pair axes, on
    tensors [[i][j][c]]. *)
Definition tadd (x y : nat -> nat -> nat -> F) : nat -> nat -> nat -> F :=
  fun i j c => fadd (x i j c) (y i j c).

(** [x[..., r, :]] *)
Definition track_of_gated (x : nat -> nat -> nat -> nat -> F) (r : nat)
  : nat -> nat -> nat -> F :=
  fun i j c => x i j r c.

(** [x[..., r]] *)
Definition track_of_attended (x : nat -> nat -> nat -> nat -> F) (r : nat)
  : nat -> nat -> nat -> F :=
  fun i j c => x i j c r.

(** [x.transpose(-2, -3)] *)
Definition transpose_pair (x : nat -> nat -> nat -> F)
  : nat -> nat -> nat -> F :=
  fun i j c => x j i c.

(** [GeometricAttention.forward], for the two tracks the stacked tensor
    has: [out[i][j][c]]. *)
Definition GeometricAttention_forward
    (junk : nat * nat * nat -> nat -> nat -> F)
  : option (nat -> nat -> nat -> F) :=
  _ <- guard (Shape.GeometricAttention.n_axis self =? 2) ;;
  attended <- attended junk ;;
  Some (tadd (tadd (track_of_gated gated 0) (track_of_gated gated 1))
             (tadd (track_of_attended attended 0)
                   (transpose_pair (track_of_attended attended 1)))).

End GeometricAttentionForward.

(** *** [Transition] *)

(** The weights of the two [nn.Linear] layers of the network, indexed as
    their tensors are: [weight[out][in]], [bias[out]]. *)
Record Transition_params := {
  fc1_weight : nat -> nat -> F;
  fc1_bias : nat -> F;
  fc2_weight : nat -> nat -> F;
  fc2_bias : nat -> F;
}.

Section TransitionForward.

(** [forward] splits [x] along axis 0 and the network works on the last
    axis.  Here a tensor is seen from these two axes: the row axis of the
    family is AXIS 0 of [x], the column axis is its last axis, and the
    batch index runs over the axes in between ([I] is [unit] for a matrix). *)
Context {I : Type}.

Local Abbreviation tensor := (bmat I F).

(** The hyper-parameters [d] and [n], the weights, and the activation
    [getattr(nn, activation)(...)], which the caller chooses by name. *)
Variables (d n : nat).
Variable P : Transition_params.
Variable activation : tensor -> option tensor.

(** [utils.normalize(x)], along the last axis *)
Definition normalize_rows (x : tensor) : tensor :=
  BMat (nrows x) (ncols x)
    (fun b i j => normalize (ncols x) (fun a => at_ x b i a) j).

(** [nn.Linear(in_features, out_features)(x)]: [x @ weight.T + bias] on the
    last axis, which must have size [in_features]. *)
Definition linear (in_features out_features : nat)
    (weight : nat -> nat -> F) (bias : nat -> F) (x : tensor)
  : option tensor :=
  _ <- guard (ncols x =? in_features) ;;
  Some (BMat (nrows x) out_features
          (fun b i k =>
             fadd (fsum in_features
                     (fun a => fmul (at_ x b i a) (weight k a)))
                  (bias k))).

(** [self.network = nn.Sequential(fc1, act, fc2)] *)
Definition Transition_network (x : tensor) : option tensor :=
  y <- linear d (n * d) (fc1_weight P) (fc1_bias P) x ;;
  y <- activation y ;;
  linear (n * d) d (fc2_weight P) (fc2_bias P) y.

(** One iteration of the loop of [forward]; the state is [out]. *)
Definition Transition_step (subbatch_size : Z) (out : tensor)
    (ix : nat * tensor) : option tensor :=
  let '(i, x_i) := ix in
  let start := (Z.of_nat i * subbatch_size)%Z in
  let stop := ((Z.of_nat i + 1) * subbatch_size)%Z in
  let x_i := normalize_rows x_i in
  y <- Transition_network x_i ;;
  setitem_rows out start stop y.

(** [Transition.forward(x, subbatch_size)].  [mid] holds the sizes of the
    axes of [x] between the first and the last, so that [x.shape[-2]] is
    the last of them, or the size of axis 0 when [x] is a matrix. *)
Definition Transition_forward (junk : I -> nat -> nat -> F)
    (mid : list nat) (x : tensor) (subbatch_size : option Z)
  : option tensor :=
  let subbatch_size := py_or subbatch_size (last mid (nrows x)) in
  let out := torch_empty junk (nrows x) (ncols x) in
  chunks <- torch_split x subbatch_size ;;
  for_each (Transition_step subbatch_size) (enumerate chunks) out.

End TransitionForward.

(** *** [Node2Edge] *)

(** [input_proj.weight[k][a]], [input_proj.bias[k]], [out_weights[d][e][f]],
    [out_bias[f]] *)
Record Node2Edge_params := {
  input_proj_weight : nat -> nat -> F;
  input_proj_bias : nat -> F;
  out_weights : nat -> nat -> nat -> F;
  out_bias : nat -> F;
}.

Section Node2EdgeForward.

Variables (in_dim proj_dim : nat).
Variable P : Node2Edge_params.
(** the literal [1e-3] *)
Variable f1e_3 : F.
(** [node_repr[s][i][a]] and [mask[s][i]], for [n_seq] rows [s] *)
Variable n_seq : nat.
Variable node_repr : nat -> nat -> nat -> F.
Variable mask : nat -> nat -> F.

(** [act = self.input_proj(utils.normalize(node_repr))] *)
Definition n2e_act (s i k : nat) : F :=
  fadd (fsum in_dim
          (fun a => fmul (normalize in_dim (node_repr s i) a)
                         (input_proj_weight P k a)))
       (input_proj_bias P k).

(** [act = act * mask[..., None]] *)
Definition n2e_act_masked (s i k : nat) : F :=
  fmul (n2e_act s i k) (mask s i).

(** [norm = einsum("...sid, ...sjd->...ijd", mask, mask)] with [mask] given
    a last axis of size 1 *)
Definition n2e_norm (i j : nat) : F :=
  fsum n_seq (fun s => fmul (mask s i) (mask s j)).

(** [l, r = act.split(self.proj_dim, dim=-1)] *)
Definition n2e_l (s i d : nat) : F := n2e_act_masked s i d.
Definition n2e_r (s j e : nat) : F := n2e_act_masked s j (proj_dim + e).

(** [einsum('...sid, def, ...sje-> ...ijf', l, out_weights, r) + out_bias] *)
Definition n2e_out (i j f : nat) : F :=
  fadd (fsum n_seq
          (fun s => fsum proj_dim
             (fun d => fsum proj_dim
                (fun e => fmul (fmul (n2e_l s i d) (out_weights P d e f))
                               (n2e_r s j e)))))
       (out_bias P f).

(** [Node2Edge.forward(node_repr, mask)]: [out / (norm + 1e-3)].  The
    channels split into the two halves [l, r] only for [proj_dim >= 1]: with
    [proj_dim = 0] there is a single empty chunk and the unpacking raises. *)
Definition Node2Edge_forward : option (nat -> nat -> nat -> F) :=
  _ <- guard (negb (proj_dim =? 0)) ;;
  Some (fun i j f => fdiv (n2e_out i j f) (fadd (n2e_norm i j) f1e_3)).

End Node2EdgeForward.

End WithScalars.

End Value.

(** ** Relations used to state the properties *)

(** [opt_rel R r' r]: both calls raise, or both return and [R] relates the
    results. *)
Definition opt_rel {A B} (R : A -> B -> Prop) (r' : option A) (r : option B)
  : Prop :=
  match r', r with
  | None, None => True
  | Some a, Some b => R a b
  | _, _ => False
  end.

(** [rows_rel s L x' x]: [x'] holds the rows [s .. s+L-1] of [x]. *)
Definition rows_rel {I F} (s L : nat) (x' x : bmat I F) : Prop :=
  nrows x' = L /\ ncols x' = ncols x /\ s + L <= nrows x /\
  forall b i j, i < L -> at_ x' b i j = at_ x b (s + i) j.

(** Inputs of [attention] shaped as its docstring and the design document
    require: [query (n_q, d)], [key (n_k, d)], [value (n_k, d_v)] with at
    least one key, and a bias that broadcasts to [(n_q, n_k)]. *)
Definition bias_rows_ok {I F} (query bias : bmat I F) : Prop :=
  nrows bias = nrows query \/ nrows bias = 1.

Definition well_shaped {I F} (query key value bias : bmat I F) : Prop :=
  ncols query = ncols key /\ nrows key = nrows value /\ 0 < nrows key /\
  bias_rows_ok query bias /\
  (ncols bias = nrows key \/ ncols bias = 1).

(** ** The real numbers as scalars *)

(** The arithmetic the floating-point code approximates; [torch.sigmoid] is
    [1 / (1 + exp (-x))]. *)
#[export] Instance Scalar_R : Scalar R := {
  fzero := 0%R;
  fone := 1%R;
  fadd := Rplus;
  fsub := Rminus;
  fmul := Rmult;
  fdiv := Rdiv;
  fexp := exp;
  fmax := Rmax;
  fsqrt := sqrt;
  fsigmoid := fun x => (1 / (1 + exp (- x)))%R;
  fof_nat := INR;
  fpow_neg_half := fun c => Rpower (INR c) (- (1 / 2))%R;
  f1e_5 := (1 / 100000)%R;
  f1e9 := 1000000000%R;
}.

(** An unbatched matrix of reals given by its rows. *)
Definition mat_of_rows (n m : nat) (rows : list (list R)) : bmat unit R :=
  BMat n m (fun _ i j => nth j (nth i rows []) 0%R).

Definition no_junk : unit -> nat -> nat -> R := fun _ _ _ => 0%R.

(** The bias handed to the chunk starting at row [s]: the matching rows of a
    bias with one row per query, the whole bias otherwise. *)
Definition bias_rel {I F} (s L n : nat) (b' b : bmat I F) : Prop :=
  (nrows b = n /\ rows_rel s L b' b) \/ (nrows b = 1 /\ b' = b).

Definition rows_rel2 {I F} (s L : nat) (r' r : bmat I F * bmat I F) : Prop :=
  rows_rel s L (fst r') (fst r) /\ rows_rel s L (snd r') (snd r).

(** A chunk plan for an axis of [n] rows: chunk [i] of [N] starts at row
    [i * c] and has [len i] rows; [cz] is the chunk size the slices of the
    loop are computed from. *)
Definition plan_ok (n : nat) (cz : Z) (c : nat) (len : nat -> nat) (N : nat)
  : Prop :=
  forall i, i < N ->
    slice_clamp n (Z.of_nat i * cz) = i * c /\
    slice_clamp n ((Z.of_nat i + 1) * cz) = i * c + len i /\
    i * c + len i <= n /\
    (S i < N -> S i * c <= i * c + len i).

(** The result buffers of [attention] after the rows below [r] have been
    written: they hold the rows of the single-pass result [(out, wts)]. *)
Definition inv {I F} (query key value out wts : bmat I F) (r : nat)
    (st : bmat I F * bmat I F) : Prop :=
  nrows (fst st) = nrows query /\ ncols (fst st) = ncols value /\
  nrows (snd st) = nrows query /\ ncols (snd st) = nrows key /\
  (forall b i j, i < r -> j < ncols value ->
     at_ (fst st) b i j = at_ out b i j) /\
  (forall b i j, i < r -> j < nrows key ->
     at_ (snd st) b i j = at_ wts b i j).

(** What a run of [attention] must look like, in terms of the single pass
    [_attention query key scale value bias]: it raises when that one does or
    when the weights do not fit the result buffer, and otherwise returns
    buffers that hold the single-pass result in every row. *)
Definition run_matches {I F} {SF : Scalar F} (query key : bmat I F) (sc : F)
    (value bias : bmat I F) (r : option (bmat I F * bmat I F)) : Prop :=
  match _attention query key sc value bias with
  | Some (out, wts) =>
      if ncols wts =? nrows key
      then exists st, r = Some st /\ inv query key value out wts (nrows query) st
      else r = None
  | None => r = None
  end.

(** Concrete arguments for a call of [attention]. *)
Definition q_ex : bmat unit R :=
  mat_of_rows 3 2 [[1; 0]; [0; 1]; [1; 1]]%R.
Definition k_ex : bmat unit R := mat_of_rows 2 2 [[1; 2]; [3; 4]]%R.
Definition v_ex : bmat unit R := mat_of_rows 2 1 [[5]; [7]]%R.
Definition b_ex : bmat unit R := mat_of_rows 1 2 [[0; 0]]%R.


(** ** The single pass of [_attention], entry by entry *)

(** [logits + bias] at query [i] and key [j] *)
Definition attn_logits {I F} {SF : Scalar F} (q k : bmat I F) (sc : F)
    (bias : bmat I F) (b : I) (i j : nat) : F :=
  fadd (fsum (ncols q)
          (fun e => fmul (fmul (at_ q b i e) sc) (at_ k b j e)))
       (at_ bias b (bidx (nrows bias) i) (bidx (ncols bias) j)).

(** the attention weight of key [j] for query [i] *)
Definition attn_weights {I F} {SF : Scalar F} (q k : bmat I F) (sc : F)
    (bias : bmat I F) (b : I) (i j : nat) : F :=
  let x := attn_logits q k sc bias b i in
  let m := fmax_upto (nrows k - 1) x in
  fdiv (fexp (fsub (x j) m))
       (fsum (nrows k) (fun j' => fexp (fsub (x j') m))).

(** the attended value of query [i] in channel [d] *)
Definition attn_output {I F} {SF : Scalar F} (q k : bmat I F) (sc : F)
    (v bias : bmat I F) (b : I) (i d : nat) : F :=
  fsum (nrows k)
    (fun j => fmul (attn_weights q k sc bias b i j) (at_ v b j d)).

(** ** Softmax along one axis, in closed form *)

(** The value the in-place branch of [softmax] leaves in its buffer, along
    the last axis and along the one before. *)
Definition softmax_cols_val {I F} {SF : Scalar F} (x : bmat I F) : bmat I F :=
  BMat (nrows x) (ncols x)
    (fun b i j =>
       let m := fun i => fmax_upto (ncols x - 1) (fun j => at_ x b i j) in
       let e := fun i j => fexp (fsub (at_ x b i j) (m (bidx (nrows x) i))) in
       fdiv (e i j) (fsum (ncols x) (fun j => e (bidx (nrows x) i) j))).

Definition softmax_rows_val {I F} {SF : Scalar F} (x : bmat I F) : bmat I F :=
  BMat (nrows x) (ncols x)
    (fun b i j =>
       let m := fun j => fmax_upto (nrows x - 1) (fun i => at_ x b i j) in
       let e := fun i j => fexp (fsub (at_ x b i j) (m (bidx (ncols x) j))) in
       fdiv (e i j) (fsum (nrows x) (fun i => e i (bidx (ncols x) j)))).

Definition softmax_val {I F} {SF : Scalar F} (a : axis) (x : bmat I F)
  : bmat I F :=
  match a with
  | Cols => softmax_cols_val x
  | Rows => softmax_rows_val x
  end.

(** The entries of [x] along axis [a] in the fibre through [(i, j)], and the
    position of [(i, j)] in that fibre. *)
Definition fibre {I F} (a : axis) (x : bmat I F) (b : I) (i j : nat)
  : nat -> F :=
  match a with
  | Cols => fun j' => at_ x b i j'
  | Rows => fun i' => at_ x b i' j
  end.

Definition fibre_pos (a : axis) (i j : nat) : nat :=
  match a with
  | Cols => j
  | Rows => i
  end.

Definition axis_size {I F} (a : axis) (x : bmat I F) : nat :=
  match a with
  | Cols => ncols x
  | Rows => nrows x
  end.

(** The sum of the entries of [y] along axis [a], in the fibre through
    [(i, j)]. *)
Definition axis_sum {I} (a : axis) (y : bmat I R) (b : I) (i j : nat) : R :=
  match a with
  | Cols => fsum (ncols y) (fun j' => at_ y b i j')
  | Rows => fsum (nrows y) (fun i' => at_ y b i' j)
  end.

(** [x'] is [x] with one constant added along axis [a]: the constant may
    differ from fibre to fibre, not inside a fibre. *)
Definition shifted_along {I} (a : axis) (cst : I -> nat -> R)
    (x x' : bmat I R) : Prop :=
  nrows x' = nrows x /\ ncols x' = ncols x /\
  forall b i j, i < nrows x -> j < ncols x ->
    at_ x' b i j =
    (at_ x b i j + cst b (match a with Cols => i | Rows => j end))%R.

(** Softmax of a vector [f 0 .. f (n-1)] at position [t]: as the library
    documents it, and with a constant [m] subtracted first. *)
Definition vsoftmax (n : nat) (f : nat -> R) (t : nat) : R :=
  (exp (f t) / fsum n (fun t' => exp (f t')))%R.

Definition vsoftmax_sub (m : R) (n : nat) (f : nat -> R) (t : nat) : R :=
  (exp (f t - m) / fsum n (fun t' => exp (f t' - m)))%R.

(** [triple n0 m Q]: run on a store with at least [n0] storages, [m] leaves
    the first [n0] of them untouched, never shrinks the store and, when it
    returns, returns a value that satisfies [Q]. *)
Definition triple {I F A} (n0 : nat) (m : @Heap.M I F A) (Q : A -> Prop)
  : Prop :=
  forall h, n0 <= length h ->
    firstn n0 (snd (m h)) = firstn n0 h /\
    n0 <= length (snd (m h)) /\
    forall a, fst (m h) = Some a -> Q a.

(** A handle on storage allocated after the first [n0]. *)
Definition fresh (n0 : nat) (x : Heap.handle) : Prop := n0 <= Heap.h_loc x.

(** Chunk sizes [attention] accepts: absent, or not negative where the
    query axis is not empty and the size is 0. *)
Definition chunk_size_ok (subbatch_size : option Z) : Prop :=
  match subbatch_size with
  | None => True
  | Some z => (0 <= z)%Z
  end.

(** A forward configuration [Attention.forward] accepts: absent, or with an
    acceptable chunk size. *)
Definition cfg_ok (fwd_cfg : option (option Z)) : Prop :=
  match fwd_cfg with
  | None => True
  | Some cfg => chunk_size_ok cfg
  end.

(** ** The spread of the logits of [AttentionWEdgeBias] *)

(** A bound on the magnitude of one output of a linear projection
    [sum_a x[a] * w[a] + b] of a normalised vector [x] of [n] features: the
    entries of [x] have magnitude at most [sqrt n]. *)
Definition proj_bound (n : nat) (w : nat -> R) (b : R) : R :=
  (sqrt (INR n) * fsum n (fun a => Rabs (w a)) + Rabs b)%R.

(** A bound, in terms of the parameters of the module alone, on how far the
    logits of two keys can be apart in head [h] before the mask bias is
    added: twice the largest magnitude of the scaled dot product of a
    projected query and key plus that of the projected edge features (the
    shift [proj_edge_bias.bias] is common to all keys). *)
Definition logit_gap_bound (self : Shape.AttentionWEdgeBias.t)
    (P : Value.AttentionWEdgeBias_params (F := R)) (h : nat) : R :=
  let att := Shape.AttentionWEdgeBias.attention self in
  let A := Value.node_attention P in
  let d_node := Shape.AttentionWEdgeBias.d_node self in
  let d_edge := Shape.AttentionWEdgeBias.d_edge self in
  (2 * (fsum (Shape.Attention.c att)
          (fun e =>
             proj_bound d_node (fun a => Value.qg_weights A a 0 h e)
               (Value.qg_bias A 0 h 0 e)
             * fpow_neg_half (Shape.Attention.c att)
             * proj_bound d_node (fun a => Value.kv_weights A a 0 h e)
                 (Value.kv_bias A 0 h 0 e))
        + sqrt (INR d_edge)
          * fsum d_edge (fun e => Rabs (Value.proj_weight P h e))))%R.

(** ** Concrete modules over the reals *)

Definition zero_attention : Value.Attention_params (F := R) :=
  {| Value.qg_weights := fun _ _ _ _ => 0%R;
     Value.kv_weights := fun _ _ _ _ => 0%R;
     Value.qg_bias := fun _ _ _ _ => 0%R;
     Value.kv_bias := fun _ _ _ _ => 0%R;
     Value.o_weights := fun _ _ _ _ => 0%R;
     Value.o_bias := fun _ _ => 0%R |}.

(** An [AttentionWEdgeBias] with two node and two edge features, one head
    of width 1 and an edge projection with one large weight. *)
Definition awb_self : Shape.AttentionWEdgeBias.t :=
  Shape.AttentionWEdgeBias.Make 2 2 1 false 1.

Definition awb_params : Value.AttentionWEdgeBias_params (F := R) :=
  {| Value.proj_weight := fun _ e => if e =? 0 then 4000000000%R else 0%R;
     Value.proj_bias := fun _ => 0%R;
     Value.node_attention := zero_attention |}.

(** The same module with an edge projection whose weights are all 1. *)
Definition awb_params_unit : Value.AttentionWEdgeBias_params (F := R) :=
  {| Value.proj_weight := fun _ _ => 1%R;
     Value.proj_bias := fun _ => 0%R;
     Value.node_attention := zero_attention |}.

(** Two positions; every edge towards position 1 has features [(1, -1)],
    and position 1 is masked. *)
Definition awb_node : nat -> nat -> R := fun _ _ => 0%R.
Definition awb_edge : nat -> nat -> nat -> R :=
  fun _ k e =>
    match k, e with
    | 1, 0 => 1%R
    | 1, 1 => (-1)%R
    | _, _ => 0%R
    end.
Definition awb_mask : nat -> R := fun k => if k =? 1 then 0%R else 1%R.

(** A [GeometricAttention] with two edge features, one head of width 1 and
    two tracks.  Only track 0 of its attention has non-zero parameters: the
    value is the first feature, and it is written to the first output
    channel; the outer-product channel has zero parameters. *)
Definition ga_self : Shape.GeometricAttention.t :=
  Shape.GeometricAttention.Make 2 1 1 2.

Definition ga_attention : Value.Attention_params (F := R) :=
  {| Value.qg_weights := fun _ _ _ _ => 0%R;
     Value.kv_weights :=
       fun a r h c =>
         match a, r, h, c with
         | 0, 0, 0, 1 => 1%R
         | _, _, _, _ => 0%R
         end;
     Value.qg_bias := fun _ _ _ _ => 0%R;
     Value.kv_bias := fun _ _ _ _ => 0%R;
     Value.o_weights :=
       fun r h c o =>
         match r, h, c, o with
         | 0, 0, 0, 0 => 1%R
         | _, _, _, _ => 0%R
         end;
     Value.o_bias := fun _ _ => 0%R |}.

Definition ga_params : Value.GeometricAttention_params (F := R) :=
  {| Value.linear_b_weights := fun _ _ _ => 0%R;
     Value.linear_b_bias := fun _ _ => 0%R;
     Value.act_w := fun _ _ _ => 0%R;
     Value.act_b := fun _ _ => 0%R;
     Value.out_proj_w := fun _ _ _ => 0%R;
     Value.out_proj_b := fun _ _ => 0%R;
     Value.edge_attention := ga_attention |}.

(** Two positions; only the edge [(0, 0)] has non-zero features [(1, -1)]
    (so the edge tensor is its own transpose); nothing is masked. *)
Definition ga_edge : nat -> nat -> nat -> R :=
  fun i j d =>
    match i, j, d with
    | 0, 0, 0 => 1%R
    | 0, 0, 1 => (-1)%R
    | _, _, _ => 0%R
    end.
Definition ga_mask : nat -> R := fun _ => 1%R.

(** The transpose of an edge tensor over its two pair axes. *)
Definition transpose_edges {F} (e : nat -> nat -> nat -> F)
  : nat -> nat -> nat -> F :=
  fun i j d => e j i d.

(** The parameters of a two-track module with the tracks exchanged: track
    [r] gets the parameters of track [1 - r]. *)
Definition swap_tracks_attention {F} (P : Value.Attention_params (F := F))
  : Value.Attention_params (F := F) :=
  {| Value.qg_weights := fun a r h c => Value.qg_weights P a (1 - r) h c;
     Value.kv_weights := fun a r h c => Value.kv_weights P a (1 - r) h c;
     Value.qg_bias := fun r h z c => Value.qg_bias P (1 - r) h z c;
     Value.kv_bias := fun r h z c => Value.kv_bias P (1 - r) h z c;
     Value.o_weights := fun r h c o => Value.o_weights P (1 - r) h c o;
     Value.o_bias := fun o r => Value.o_bias P o (1 - r) |}.

Definition swap_tracks {F} (P : Value.GeometricAttention_params (F := F))
  : Value.GeometricAttention_params (F := F) :=
  {| Value.linear_b_weights :=
       fun c r h => Value.linear_b_weights P c (1 - r) h;
     Value.linear_b_bias := fun r h => Value.linear_b_bias P (1 - r) h;
     Value.act_w := fun d r c => Value.act_w P d (1 - r) c;
     Value.act_b := fun r c => Value.act_b P (1 - r) c;
     Value.out_proj_w := fun r d c => Value.out_proj_w P (1 - r) d c;
     Value.out_proj_b := fun r c => Value.out_proj_b P (1 - r) c;
     Value.edge_attention := swap_tracks_attention (Value.edge_attention P) |}.

(** The attention weights of track 0 and head 0 inside the concrete module
    [ga_self], for the batch row [i]. *)
Definition ga_weights (E : nat -> nat -> nat -> R) (i q k : nat) : R :=
  attn_weights
    (Value.query (Shape.GeometricAttention.attention ga_self) ga_attention 2
       (Value.edge_stacked ga_self E))
    (Value.key (Shape.GeometricAttention.attention ga_self) ga_attention 2
       (Value.edge_stacked ga_self E))
    (fpow_neg_half
       (Shape.Attention.c (Shape.GeometricAttention.attention ga_self)))
    (Value.bias_arg 2 2
       (fun _ r h q k => Value.pair_bias ga_self ga_params E ga_mask r h q k))
    (i, 0, 0) q k.

(** More concrete arguments for calls of [attention]. *)
Definition b_ex_shifted : bmat unit R := mat_of_rows 1 2 [[3; 3]]%R.
Definition q_ex_short : bmat unit R := mat_of_rows 1 2 [[1; 0]]%R.

(** ** Chunked loops that fill a result buffer row by row *)

(** The result buffer of a chunked loop over the rows of [x] after the rows
    below [r] have been written: they hold the rows of the single-pass
    result [Y]. *)
Definition rows_done {I F} (x Y : bmat I F) (r : nat) (out : bmat I F)
  : Prop :=
  nrows out = nrows x /\ ncols out = ncols x /\
  forall b i j, i < r -> j < ncols x -> at_ out b i j = at_ Y b i j.

(** What a chunked run must look like in terms of the single pass over all
    rows: it raises when that one does, and otherwise returns a buffer of
    the shape of [x] that holds the single-pass result in every row. *)
Definition chunked_matches {I F} (x : bmat I F) (single : option (bmat I F))
    (r : option (bmat I F)) : Prop :=
  match single with
  | Some Y => exists out, r = Some out /\ rows_done x Y (nrows x) out
  | None => r = None
  end.

(** The dimensions a [shape] argument of [MultiHeadedScaling] stands for. *)
Definition arg_dims (a : Shape.MultiHeadedScaling.shape_arg) : list nat :=
  match a with
  | Shape.MultiHeadedScaling.Int n => [n]
  | Shape.MultiHeadedScaling.Dims l => l
  end.

(** ** The binning modules, over the reals *)

(** [torch.linspace(start, end, steps)]: [steps] points from [start] to
    [end] at equal distances, [start] alone for one step; a negative number
    of steps is rejected. *)
Definition linspace (start stop : R) (steps : Z) : option (list R) :=
  if (steps <? 0)%Z then None
  else
    let n := Z.to_nat steps in
    let step := ((stop - start) / INR (n - 1))%R in
    Some (map (fun i => if n =? 1 then start else (start + INR i * step)%R)
              (seq 0 n)).

(** [torch.gt(x, y)] on one entry *)
Definition gt (x y : R) : bool := if Rlt_dec y x then true else false.

(** *** [Val2Bins] *)

Record Val2Bins_cfg := {
  first_break : R;
  last_break : R;
  num_bins : Z;
}.

(** [Val2Bins(cfg)]: the buffer [breaks] *)
Definition Val2Bins_init (cfg : Val2Bins_cfg) : option (list R) :=
  linspace (first_break cfg) (last_break cfg) (num_bins cfg - 1).

(** [Val2Bins.forward(dist)], for a tensor [dist] of any shape, given by its
    entries: [sum(gt(dist.unsqueeze(-1), breaks), dim=-1)] counts, for each
    entry, the breaks below it. *)
Definition Val2Bins_forward {J} (breaks : list R) (dist : J -> R) : J -> nat :=
  fun idx =>
    list_sum (map (fun b => if gt (dist idx) b then 1 else 0) breaks).

(** *** [Val2ContBins] *)

Record Val2ContBins_cfg := {
  x_min : R;
  x_max : R;
  x_bins : Z;
}.

Record Val2ContBins_t := {
  x_offset : list R;
  coeff : R;
}.

Definition is_zero (x : R) : bool := if Req_dec_T x 0 then true else false.

(** What the 64-bit floats of Python add to the reals when [cfg] is turned
    into a module: the squared bin width [(x_bin_size * 0.2) ** 2] of line
    578 can be rounded to [0.0] although the width is not zero (underflow),
    and the division by it then raises [ZeroDivisionError]; or it can be
    out of range (overflow), and the power raises [OverflowError].  A
    [rounding] tells for which configurations this happens.  Everything
    below holds for every such function; [no_rounding] is exact
    arithmetic. *)
Definition rounding := Val2ContBins_cfg -> bool.

Definition no_rounding : rounding := fun _ => false.

(** [Val2ContBins(cfg)].  The two divisions are Python divisions, which
    raise [ZeroDivisionError] on a zero divisor; the second one, and the
    power under it, also raise when the floats take the squared bin width
    to zero or out of range ([sq_raises cfg]).  The values that are kept
    are those of the reals. *)
Definition Val2ContBins_init (sq_raises : rounding) (cfg : Val2ContBins_cfg)
  : option Val2ContBins_t :=
  _ <- guard (negb (x_bins cfg - 2 =? 0)%Z) ;;
  let x_bin_size := ((x_max cfg - x_min cfg) / IZR (x_bins cfg - 2))%R in
  x_offset <- linspace (x_min cfg - x_bin_size / 2)%R
                       (x_max cfg + x_bin_size / 2)%R (x_bins cfg) ;;
  _ <- guard (negb (is_zero ((x_bin_size * (2 / 10)) ^ 2)%R
                    || sq_raises cfg)) ;;
  Some {| x_offset := x_offset;
          coeff := (- (5 / 10) / (x_bin_size * (2 / 10)) ^ 2)%R |}.

(** [Val2ContBins.forward(dist_x)], for a tensor [dist_x] of any shape given
    by its entries; the result has one more axis, over the bins.
    [x_norm.max(-1)] raises when there is no bin. *)
Definition Val2ContBins_forward {J} (self : Val2ContBins_t) (dist_x : J -> R)
  : option (J -> nat -> R) :=
  let n := length (x_offset self) in
  _ <- guard (negb (n =? 0)) ;;
  Some (fun idx k =>
          let x := fun k => (dist_x idx - nth k (x_offset self) 0)%R in
          let x_norm := fun k => (coeff self * x k ^ 2)%R in
          let m := fmax_upto (n - 1) x_norm in
          vsoftmax n (fun k => (x_norm k - m)%R) k).

(** ** Concrete instances of the remaining modules *)

(** A [Transition] with [d = 2], [n = 1], all weights 1 and the
    activation [ReLU]. *)
Definition tr_params : Value.Transition_params (F := R) :=
  {| Value.fc1_weight := fun _ _ => 1%R;
     Value.fc1_bias := fun _ => 0%R;
     Value.fc2_weight := fun _ _ => 1%R;
     Value.fc2_bias := fun _ => 0%R |}.

Definition relu_act (x : bmat unit R) : option (bmat unit R) :=
  Some (tmap (fun v => Rmax v 0) x).


Definition bins_breaks : list R :=
  map (fun i => (0 + INR i * ((2 - 0) / INR 2))%R) (seq 0 3).

Definition two_dists (b : bool) : R := if b then 5%R else 0%R.

(** A [Val2ContBins] with four bins on [[0, 2]]. *)
Definition contbins_cfg : Val2ContBins_cfg :=
  {| x_min := 0%R; x_max := 2%R; x_bins := 4 |}.

Definition contbins_ex : Val2ContBins_t :=
  {| x_offset :=
       map (fun i => (0 - (2 - 0) / IZR (4 - 2) / 2
                      + INR i * ((2 + (2 - 0) / IZR (4 - 2) / 2
                                  - (0 - (2 - 0) / IZR (4 - 2) / 2))
                                 / INR 3))%R)
           (seq 0 4);
     coeff := (- (5 / 10) / ((2 - 0) / IZR (4 - 2) * (2 / 10)) ^ 2)%R |}.

(** A [Node2Edge] with all weights 1, two rows and a mask that hides
    position 0 in both. *)
Definition n2e_params : Value.Node2Edge_params (F := R) :=
  {| Value.input_proj_weight := fun _ _ => 1%R;
     Value.input_proj_bias := fun _ => 1%R;
     Value.out_weights := fun _ _ _ => 1%R;
     Value.out_bias := fun _ => 2%R |}.

Definition n2e_node (s i a : nat) : R := INR (s + i + a).
Definition n2e_node' (s i a : nat) : R :=
  if (s =? 0) && (i =? 0) then 7%R else INR (s + i + a).
Definition n2e_mask (s i : nat) : R := if i =? 0 then 0%R else 1%R.

(** ** Contents of the store *)

(** [same_rows v' v]: the same shape and the same rows. *)
Definition same_rows {I F} (v' v : bmat I F) : Prop :=
  nrows v' = nrows v /\ ncols v' = ncols v /\
  forall b i j, i < nrows v -> at_ v' b i j = at_ v b i j.

(** The storage [st] after the rows of [v] have been written through the
    handle [x]. *)
Definition written {I F} (x : Heap.handle) (v st : bmat I F) : bmat I F :=
  BMat (nrows st) (ncols st)
    (fun b i j =>
       if (Heap.h_off x <=? i) && (i <? Heap.h_off x + Heap.h_rows x)
       then at_ v b (i - Heap.h_off x) j
       else at_ st b i j).

(** A store that holds the concrete arguments, and handles on them. *)
Definition store_ex : Heap.heap (I := unit) (F := R) :=
  [q_ex; k_ex; v_ex; b_ex].
Definition hq_ex : Heap.handle := Heap.Handle 0 0 3.
Definition hk_ex : Heap.handle := Heap.Handle 1 0 2.
Definition hv_ex : Heap.handle := Heap.Handle 2 0 2.
Definition hb_ex : Heap.handle := Heap.Handle 3 0 1.
(** rows 1 and 2 of the first storage *)
Definition hq_tail_ex : Heap.handle := Heap.Handle 0 1 2.

(* ================================================================== *)
(** * Properties *)
(* ================================================================== *)

(** ** Chunking of the attention primitive *)

Section OptRel.

Context {A B A2 B2 : Type}.

Lemma opt_rel_bind (R : A -> B -> Prop) (R2 : A2 -> B2 -> Prop)
    (m' : option A) (m : option B) (f' : A -> option A2) (f : B -> option B2) :
  opt_rel R m' m ->
  (forall a b, R a b -> opt_rel R2 (f' a) (f b)) ->
  opt_rel R2 (obind m' f') (obind m f).
Proof.
  destruct m' as [a|], m as [b|]; simpl; intros Hm Hf; auto; contradiction.
Qed.

End OptRel.

Lemma bdim_refl a : bdim a a = Some a.
Proof. unfold bdim. now rewrite Nat.eqb_refl. Qed.

Lemma bdim_one_r a : bdim a 1 = Some a.
Proof.
  unfold bdim. destruct (a =? 1) eqn:E; [apply Nat.eqb_eq in E; now subst|].
  reflexivity.
Qed.

Lemma bdim_one_l a : bdim 1 a = Some a.
Proof.
  unfold bdim. destruct (1 =? a) eqn:E; [apply Nat.eqb_eq in E; now subst|].
  reflexivity.
Qed.

Lemma bidx_lt n i : i < n -> bidx n i = i.
Proof.
  unfold bidx. destruct (n =? 1) eqn:E; [|reflexivity].
  apply Nat.eqb_eq in E. lia.
Qed.

Lemma expands_to_refl n : expands_to n n = true.
Proof. unfold expands_to. now rewrite Nat.eqb_refl. Qed.

Lemma expands_to_one n : expands_to 1 n = true.
Proof. unfold expands_to. simpl. apply orb_true_r. Qed.

Section ChunkInvariance.

Context {I F : Type} {SF : Scalar F}.

Local Abbreviation tensor := (bmat I F).

Lemma fsum_ext n (f g : nat -> F) :
  (forall i, i < n -> f i = g i) -> fsum n f = fsum n g.
Proof.
  induction n as [|n IH]; simpl; intros H; [reflexivity|].
  rewrite IH by (intros; apply H; lia). now rewrite H by lia.
Qed.

Lemma fmax_upto_ext m (f g : nat -> F) :
  (forall i, i <= m -> f i = g i) -> fmax_upto m f = fmax_upto m g.
Proof.
  induction m as [|m IH]; simpl; intros H; [apply H; lia|].
  rewrite IH by (intros; apply H; lia). now rewrite H by lia.
Qed.

(** *** Every step of [_attention] acts on each query row on its own *)

Lemma narrow_rows_rel (x : tensor) s L :
  s + L <= nrows x -> rows_rel s L (narrow x s L) x.
Proof. intros H. repeat split; simpl; auto. Qed.

Lemma mul_scalar_rows_rel s L (x' x : tensor) sc :
  rows_rel s L x' x -> rows_rel s L (mul_scalar x' sc) (mul_scalar x sc).
Proof.
  intros (Hr & Hc & Hle & Hv). repeat split; simpl; auto.
  intros b i j Hi. now rewrite Hv.
Qed.

Lemma einsum_id_jd_rows_rel s L (q' q k : tensor) :
  rows_rel s L q' q ->
  opt_rel (rows_rel s L) (einsum_id_jd q' k) (einsum_id_jd q k).
Proof.
  intros (Hr & Hc & Hle & Hv). unfold einsum_id_jd. rewrite Hc.
  destruct (bdim (ncols q) (ncols k)) as [d|]; simpl; [|exact Logic.I].
  repeat split; simpl; auto.
  intros b i j Hi. apply fsum_ext. intros e _. now rewrite Hv.
Qed.

Lemma broadcast2_rows_rel op s L (x' x b' b : tensor) :
  rows_rel s L x' x -> bias_rel s L (nrows x) b' b ->
  opt_rel (rows_rel s L) (broadcast2 op x' b') (broadcast2 op x b).
Proof.
  intros (Hr & Hc & Hle & Hv) Hb. unfold broadcast2.
  assert (Hrows : bdim (nrows x') (nrows b') = Some L /\
                  bdim (nrows x) (nrows b) = Some (nrows x)).
  { destruct Hb as [(Hn & Hbr & _) | (Hn & ->)].
    - rewrite Hr, Hbr, Hn. split; apply bdim_refl.
    - rewrite Hr, Hn. split; apply bdim_one_r. }
  destruct Hrows as [-> ->]. simpl. rewrite Hc.
  destruct Hb as [(Hn & Hbr & Hbc & _ & Hbv) | (Hn & ->)].
  - rewrite Hbc.
    destruct (bdim (ncols x) (ncols b)) as [c|]; simpl; [|exact Logic.I].
    repeat split; simpl; auto.
    intros bb i j Hi. rewrite ?Hr, ?Hbr, ?Hc, ?Hbc.
    rewrite (bidx_lt Hi), Hv, Hbv by assumption.
    rewrite ?Hn, (@bidx_lt (nrows x) (s + i)) by lia. reflexivity.
  - destruct (bdim (ncols x) (ncols b)) as [c|]; simpl; [|exact Logic.I].
    repeat split; simpl; auto.
    intros bb i j Hi. rewrite ?Hr, ?Hc, ?Hn.
    rewrite (bidx_lt Hi), Hv by assumption.
    rewrite (@bidx_lt (nrows x) (s + i)) by lia. reflexivity.
Qed.

Lemma softmax_in_place_closed (x : tensor) dim a :
  axis_of_dim dim = Some a ->
  softmax x dim true =
  if axis_size a x =? 0 then None else Some (softmax_val a x).
Proof.
  intros Ha. unfold softmax. rewrite Ha. simpl obind.
  destruct a; unfold max_keepdim, axis_size.
  - destruct (nrows x =? 0); simpl; [reflexivity|].
    unfold broadcast2_into. simpl.
    rewrite !expands_to_refl, !expands_to_one. simpl.
    rewrite !expands_to_refl, !expands_to_one. simpl. reflexivity.
  - destruct (ncols x =? 0); simpl; [reflexivity|].
    unfold broadcast2_into. simpl.
    rewrite !expands_to_refl, !expands_to_one. simpl.
    rewrite !expands_to_refl, !expands_to_one. simpl. reflexivity.
Qed.

Lemma softmax_in_place_cols (x : tensor) :
  softmax x (-1) true =
  if ncols x =? 0 then None else Some (softmax_cols_val x).
Proof. apply (@softmax_in_place_closed x (-1)%Z Cols). reflexivity. Qed.

Lemma softmax_rows_rel s L (x' x : tensor) :
  rows_rel s L x' x ->
  opt_rel (rows_rel s L) (softmax x' (-1) true) (softmax x (-1) true).
Proof.
  intros (Hr & Hc & Hle & Hv). rewrite !softmax_in_place_cols, Hc.
  destruct (ncols x =? 0); simpl; [exact Logic.I|].
  repeat split; simpl; auto.
  intros b i j Hi. rewrite ?Hr, ?Hc.
  assert (E1 : bidx L i = i) by (apply bidx_lt; lia).
  assert (E2 : bidx (nrows x) (s + i) = s + i) by (apply bidx_lt; lia).
  rewrite !E1, !E2, Hv by assumption. f_equal.
  - do 2 f_equal. apply fmax_upto_ext. intros j' _. now rewrite Hv.
  - apply fsum_ext. intros j' _. rewrite Hv by assumption. do 2 f_equal.
    apply fmax_upto_ext. intros j'' _. now rewrite Hv.
Qed.

Lemma einsum_ij_jd_rows_rel s L (a' a v : tensor) :
  rows_rel s L a' a ->
  opt_rel (rows_rel s L) (einsum_ij_jd a' v) (einsum_ij_jd a v).
Proof.
  intros (Hr & Hc & Hle & Hv). unfold einsum_ij_jd. rewrite Hc.
  destruct (bdim (ncols a) (nrows v)) as [n|]; simpl; [|exact Logic.I].
  repeat split; simpl; auto.
  intros b i d Hi. apply fsum_ext. intros j _. now rewrite Hv.
Qed.

(** [_attention] on a chunk of the queries returns the matching rows of
    [_attention] on all of them, and raises exactly when that one does. *)
Lemma einsum_id_jd_nrows (q k y : tensor) :
  einsum_id_jd q k = Some y -> nrows y = nrows q /\ ncols y = nrows k.
Proof.
  unfold einsum_id_jd. destruct (bdim (ncols q) (ncols k)); simpl; [|discriminate].
  intros [= <-]. split; reflexivity.
Qed.

Lemma _attention_rows_rel s L (q' q k v b' b : tensor) sc :
  rows_rel s L q' q -> bias_rel s L (nrows q) b' b ->
  opt_rel (rows_rel2 s L) (_attention q' k sc v b') (_attention q k sc v b).
Proof.
  intros Hq Hb. unfold _attention.
  pose proof (einsum_id_jd_rows_rel k (mul_scalar_rows_rel sc Hq)) as Hl.
  destruct (einsum_id_jd (mul_scalar q' sc) k) as [l'|],
           (einsum_id_jd (mul_scalar q sc) k) as [l|] eqn:El;
    simpl in Hl |- *; try contradiction; [|exact Logic.I].
  apply einsum_id_jd_nrows in El. destruct El as [El _]. simpl in El.
  eapply opt_rel_bind.
  { apply broadcast2_rows_rel; [exact Hl|]. rewrite El. exact Hb. }
  intros x' x Hx. eapply opt_rel_bind.
  { apply softmax_rows_rel, Hx. }
  intros a' a Ha. eapply opt_rel_bind.
  { apply einsum_ij_jd_rows_rel, Ha. }
  intros o' o Ho. simpl. split; assumption.
Qed.

Lemma _attention_ncols (q k v b o a : tensor) sc :
  _attention q k sc v b = Some (o, a) -> ncols o = ncols v.
Proof.
  unfold _attention.
  destruct (einsum_id_jd (mul_scalar q sc) k) as [l|]; simpl; [|discriminate].
  destruct (broadcast2 fadd l b) as [x|]; simpl; [|discriminate].
  destruct (softmax x (-1) true) as [at'|]; simpl; [|discriminate].
  unfold einsum_ij_jd.
  destruct (bdim (ncols at') (nrows v)); simpl; [|discriminate].
  intros [= <- _]. reflexivity.
Qed.

Lemma slice_clamp_of_nat n k : slice_clamp n (Z.of_nat k) = Nat.min k n.
Proof.
  unfold slice_clamp. destruct (Z.of_nat k <? 0)%Z eqn:E.
  - apply Z.ltb_lt in E. lia.
  - now rewrite Nat2Z.id.
Qed.

Lemma enumerate_map_seq {A} (f : nat -> A) N :
  enumerate (map f (seq 0 N)) = map (fun i => (i, f i)) (seq 0 N).
Proof.
  unfold enumerate. rewrite length_map, length_seq.
  generalize 0 as m. induction N as [|N IH]; intros m; simpl; [reflexivity|].
  now rewrite IH.
Qed.

Section Loop.

Variables (query key value bias : tensor) (sc : F).
Variables (O W : tensor).

Local Abbreviation n := (nrows query).

Hypothesis Hbias : bias_rows_ok query bias.
Hypothesis Href : _attention query key sc value bias = Some (O, W).
Hypothesis Hw : ncols W = nrows key.

Variables (cz : Z) (c : nat) (len : nat -> nat) (N : nat).

Hypothesis Hplan : plan_ok n cz c len N.

Lemma inv_mono r r' st : r' <= r -> inv query key value O W r st -> inv query key value O W r' st.
Proof.
  intros Hle (H1 & H2 & H3 & H4 & H5 & H6). repeat split; auto.
  - intros. apply H5; lia.
  - intros. apply H6; lia.
Qed.

Lemma chunk_bias_rel i :
  i < N ->
  bias_rel (i * c) (len i) n
    (if negb (nrows bias =? n) then bias
     else slice_rows bias (Z.of_nat i * cz) ((Z.of_nat i + 1) * cz)) bias.
Proof using Hbias Hplan.
  intros Hi. destruct (Hplan Hi) as (Hs & He & Hle & _).
  destruct (nrows bias =? n) eqn:E; simpl.
  - apply Nat.eqb_eq in E. left. split; [exact E|].
    unfold rows_rel, slice_rows, slice_len, slice_start. simpl.
    rewrite E, Hs, He. clear Hw. repeat split; try lia.
  - apply Nat.eqb_neq in E. right. split; [|reflexivity].
    destruct Hbias as [H|H]; [contradiction|exact H].
Qed.

Lemma attention_step_ok i st :
  i < N -> inv query key value O W (i * c) st ->
  exists st',
    attention_step key sc value bias n cz st (i, narrow query (i * c) (len i))
      = Some st' /\ inv query key value O W (i * c + len i) st'.
Proof.
  intros Hi Hinv. destruct st as [o w].
  destruct Hinv as (Ho1 & Ho2 & Hw1 & Hw2 & Hov & Hwv). simpl in *.
  destruct (Hplan Hi) as (Hs & He & Hle & _).
  unfold attention_step.
  pose proof (@_attention_rows_rel (i * c) (len i) _ query key value _ bias sc
                (@narrow_rows_rel query (i * c) (len i) Hle)
                (chunk_bias_rel Hi)) as Hrel.
  rewrite Href in Hrel.
  destruct (_attention (narrow query (i * c) (len i)) key sc value _)
    as [[res attn]|] eqn:Ech; simpl in Hrel; [|contradiction].
  destruct Hrel as [(Hr1 & Hr2 & _ & Hrv) (Ha1 & Ha2 & _ & Hav)]. simpl in *.
  apply _attention_ncols in Href as Hoc.
  unfold setitem_rows, slice_len, slice_start. simpl.
  rewrite Ho1, Ho2, Hw1, Hw2, Hs, He, Hr1, Hr2, Ha1, Ha2, Hoc, Hw.
  replace (i * c + len i - i * c) with (len i) by lia.
  rewrite !expands_to_refl. simpl.
  eexists. split; [reflexivity|].
  repeat split; simpl; auto.
  - intros b r j Hr Hj.
    destruct (Nat.leb_spec (i * c) r) as [H1|H1]; simpl.
    + destruct (Nat.ltb_spec r (i * c + len i)) as [H2|H2]; [|lia].
      rewrite !bidx_lt by lia. rewrite Hrv by lia. f_equal. lia.
    + apply Hov; lia.
  - intros b r j Hr Hj.
    destruct (Nat.leb_spec (i * c) r) as [H1|H1]; simpl.
    + destruct (Nat.ltb_spec r (i * c + len i)) as [H2|H2]; [|lia].
      rewrite !bidx_lt by lia. rewrite Hav by lia. f_equal. lia.
    + apply Hwv; lia.
Qed.

Lemma attention_loop_ok k : forall m st,
  m + k <= N -> inv query key value O W (m * c) st ->
  exists st',
    for_each (attention_step key sc value bias n cz)
      (map (fun i => (i, narrow query (i * c) (len i))) (seq m k)) st
      = Some st' /\
    (k = 0 -> st' = st) /\
    (0 < k -> inv query key value O W ((m + k - 1) * c + len (m + k - 1)) st').
Proof.
  induction k as [|k IH]; intros m st Hle Hinv; simpl.
  - exists st. split; [reflexivity|]. split; [reflexivity|]. intros H. lia.
  - destruct (@attention_step_ok m st) as (st1 & -> & Hinv1); [lia|exact Hinv|].
    simpl. destruct k as [|k].
    + simpl. exists st1. split; [reflexivity|]. split; [lia|].
      intros _. replace (m + 1 - 1) with m by lia. exact Hinv1.
    + destruct (IH (S m) st1) as (st2 & E2 & _ & Hinv2); [lia| |].
      { apply inv_mono with (r := m * c + len m); [|exact Hinv1].
        apply (Hplan (i := m)); lia. }
      exists st2. split; [exact E2|]. split; [lia|].
      intros _. replace (m + S (S k) - 1) with (S m + S k - 1) by lia.
      apply Hinv2. lia.
Qed.

End Loop.

Lemma bdim_eq_one a b : bdim a b = Some 1 -> a = 1.
Proof.
  unfold bdim. destruct (a =? b) eqn:E1; [now intros [= ->]|].
  destruct (a =? 1) eqn:E2; [intros _; now apply Nat.eqb_eq in E2|].
  destruct (b =? 1); [now intros [= ->]|discriminate].
Qed.

Lemma _attention_attn_ncols (q k v b o a : tensor) sc :
  _attention q k sc v b = Some (o, a) ->
  bdim (nrows k) (ncols b) = Some (ncols a).
Proof.
  unfold _attention. unfold einsum_id_jd at 1.
  destruct (bdim (ncols (mul_scalar q sc)) (ncols k)); simpl; [|discriminate].
  unfold broadcast2. simpl.
  destruct (bdim (nrows q) (nrows b)); simpl; [|discriminate].
  destruct (bdim (nrows k) (ncols b)) as [c|]; simpl; [|discriminate].
  rewrite softmax_in_place_cols. simpl.
  destruct (c =? 0); simpl; [discriminate|].
  unfold einsum_ij_jd. simpl.
  destruct (bdim c (nrows v)); simpl; [|discriminate].
  intros [= _ <-]. reflexivity.
Qed.

Lemma attention_plan_run junk1 junk2 (query key value bias : tensor) sc
    cz c len N :
  bias_rows_ok query bias ->
  0 < N ->
  plan_ok (nrows query) cz c len N ->
  (N - 1) * c + len (N - 1) = nrows query ->
  run_matches query key sc value bias
    (for_each (attention_step key sc value bias (nrows query) cz)
       (map (fun i => (i, narrow query (i * c) (len i))) (seq 0 N))
       (torch_empty junk1 (nrows query) (ncols value),
        torch_empty junk2 (nrows query) (nrows key))).
Proof.
  intros Hb HN Hplan Hlast. unfold run_matches.
  destruct (_attention query key sc value bias) as [[Out W]|] eqn:Href.
  - destruct (ncols W =? nrows key) eqn:Hw.
    + apply Nat.eqb_eq in Hw.
      destruct (@attention_loop_ok query key value bias sc Out W Hb Href Hw
                  cz c len N Hplan N 0
                  (torch_empty junk1 (nrows query) (ncols value),
                   torch_empty junk2 (nrows query) (nrows key)))
        as (st' & E & _ & Hinv); [lia| |].
      { repeat split; simpl; auto; intros; lia. }
      exists st'. split; [exact E|].
      rewrite <- Hlast. apply Hinv. exact HN.
    + apply Nat.eqb_neq in Hw.
      destruct N as [|N]; [lia|]. simpl.
      assert (H0 : 0 < S N) by lia.
      destruct (Hplan 0 H0) as (Hs & He & Hle & _).
      unfold attention_step at 1.
      pose proof (@_attention_rows_rel (0 * c) (len 0) _ query key value _ bias
                    sc (@narrow_rows_rel query (0 * c) (len 0) Hle)
                    (chunk_bias_rel Hb Hplan H0)) as Hrel.
      rewrite Href in Hrel. simpl in Hrel. change (Z.of_nat 0) with 0%Z in *.
      simpl Z.mul in *. simpl Z.add in *.
      destruct (_attention (narrow query 0 (len 0)) key sc value _)
        as [[res attn]|]; simpl in Hrel; [|contradiction].
      destruct Hrel as [(Hr1 & Hr2 & _) (Ha1 & Ha2 & _)]. simpl in *.
      apply _attention_ncols in Href as Hoc.
      apply _attention_attn_ncols in Href as Hbd.
      unfold setitem_rows, slice_len, slice_start. simpl.
      rewrite Hs, He, Hr1, Hr2, Ha1, Ha2, Hoc. simpl.
      replace (len 0 - 0) with (len 0) by lia.
      rewrite !expands_to_refl. simpl.
      unfold expands_to.
      destruct (ncols W =? nrows key) eqn:E1; [apply Nat.eqb_eq in E1; lia|].
      destruct (ncols W =? 1) eqn:E2; [|reflexivity].
      apply Nat.eqb_eq in E2. rewrite E2 in Hbd.
      apply bdim_eq_one in Hbd. lia.
  - destruct N as [|N]; [lia|]. simpl.
    assert (H0 : 0 < S N) by lia.
    destruct (Hplan 0 H0) as (Hs & He & Hle & _).
    unfold attention_step at 1.
    pose proof (@_attention_rows_rel (0 * c) (len 0) _ query key value _ bias
                  sc (@narrow_rows_rel query (0 * c) (len 0) Hle)
                  (chunk_bias_rel Hb Hplan H0)) as Hrel.
    rewrite Href in Hrel. simpl in Hrel. change (Z.of_nat 0) with 0%Z in *.
    simpl Z.mul in *. simpl Z.add in *.
    destruct (_attention (narrow query 0 (len 0)) key sc value _)
      as [[res attn]|]; simpl in Hrel; [contradiction|].
    reflexivity.
Qed.

(** The chunks [torch.split] cuts are the slices [i*c : (i+1)*c] the loop
    computes, and together they cover every query row. *)
Lemma split_plan (n c : nat) :
  0 < c ->
  let N := Nat.max ((n + c - 1) / c) 1 in
  let len := fun i => if i <? N - 1 then c else c - (c * N - n) in
  0 < N /\ plan_ok (n) (Z.of_nat c) c len N /\
  (N - 1) * c + len (N - 1) = n.
Proof.
  intros Hc N len.
  pose proof (Nat.Div0.mul_div_le (n + c - 1) c) as H1.
  pose proof (Nat.mul_succ_div_gt (n + c - 1) c ltac:(lia)) as H2.
  set (q := (n + c - 1) / c) in *.
  assert (HN : (n = 0 /\ N = 1) \/ (0 < n /\ N = q /\ 0 < q)).
  { destruct (Nat.eq_dec n 0) as [E|E].
    - left. split; [exact E|]. subst N. rewrite E in *.
      assert (q = 0) by nia. lia.
    - right. assert (0 < q) by nia. subst N. fold q. lia. }
  assert (Hlast : c * N - n <= c /\ n <= c * N /\ (N - 1) * c <= n).
  { rewrite Nat.mul_succ_r in H2.
    destruct HN as [[Hn HN1]|(Hn & HNq & Hq)].
    - rewrite HN1, Hn. lia.
    - rewrite HNq. destruct q as [|q']; [lia|].
      replace (S q' - 1) with q' by lia.
      rewrite Nat.mul_succ_r in H1, H2 |- *.
      rewrite (Nat.mul_comm q' c). lia. }
  assert (HN0 : 0 < N) by (unfold N; lia).
  clearbody N. clear H1 H2 HN.
  split; [lia|]. split.
  - intros i Hi.
    replace (Z.of_nat i * Z.of_nat c)%Z with (Z.of_nat (i * c)) by lia.
    replace ((Z.of_nat i + 1) * Z.of_nat c)%Z with (Z.of_nat (S i * c)) by lia.
    rewrite !slice_clamp_of_nat. unfold len.
    destruct (Nat.ltb_spec i (N - 1)) as [Hlt|Hge].
    + assert (S i * c <= n) by nia.
      repeat split; try nia.
    + assert (i = N - 1) by lia. subst i.
      repeat split; try nia.
  - unfold len. rewrite Nat.ltb_irrefl. nia.
Qed.

Lemma attention_positive_chunk junk (query key value bias : tensor) sc cz :
  bias_rows_ok query bias -> (0 < cz)%Z ->
  run_matches query key sc value bias
    (attention junk query key sc value bias (Some cz)).
Proof.
  intros Hb Hcz.
  assert (E0 : (cz =? 0)%Z = false) by (apply Z.eqb_neq; lia).
  assert (E1 : (cz <? 0)%Z = false) by (apply Z.ltb_ge; lia).
  unfold attention, py_or. rewrite E0. unfold torch_split, split_bounds.
  rewrite E0, E1. simpl obind. rewrite map_map. simpl fst. simpl snd.
  rewrite enumerate_map_seq.
  destruct (@split_plan (nrows query) (Z.to_nat cz)) as (HN & Hplan & Hlast);
    [lia|].
  rewrite Z2Nat.id in Hplan by lia.
  apply attention_plan_run; assumption.
Qed.

Lemma attention_default_chunk junk (query key value bias : tensor) sc o :
  bias_rows_ok query bias -> o = None \/ o = Some 0%Z ->
  run_matches query key sc value bias
    (attention junk query key sc value bias o).
Proof.
  intros Hb Ho.
  destruct (Nat.eq_dec (nrows query) 0) as [E|E].
  - assert (Hpy : py_or o (nrows query) = 0%Z).
    { destruct Ho as [-> | ->]; simpl; lia. }
    unfold attention. rewrite Hpy. unfold torch_split, split_bounds. simpl.
    rewrite E. simpl obind. unfold enumerate. simpl.
    pose proof (@attention_plan_run junk junk query key value bias sc 0%Z 0
                  (fun _ => 0) 1 Hb ltac:(lia)) as H.
    simpl in H. rewrite E in H. apply H; [|reflexivity].
    intros i Hi. assert (i = 0) by lia. subst i. simpl.
    unfold slice_clamp. simpl. repeat split; lia.
  - assert (Hpy : attention junk query key sc value bias o
                  = attention junk query key sc value bias
                      (Some (Z.of_nat (nrows query)))).
    { unfold attention, py_or.
      destruct (Z.of_nat (nrows query) =? 0)%Z eqn:E0;
        [apply Z.eqb_eq in E0; lia|].
      destruct Ho as [-> | ->]; reflexivity. }
    rewrite Hpy. apply attention_positive_chunk; [exact Hb|lia].
Qed.

Lemma run_matches_result_eq (query key value bias : tensor) sc r1 r2 :
  run_matches query key sc value bias r1 ->
  run_matches query key sc value bias r2 ->
  result_eq r1 r2.
Proof.
  unfold run_matches.
  destruct (_attention query key sc value bias) as [[Out W]|].
  - destruct (ncols W =? nrows key).
    + intros ([o1 w1] & -> & H1) ([o2 w2] & -> & H2). simpl.
      destruct H1 as (A1 & A2 & A3 & A4 & A5 & A6).
      destruct H2 as (B1 & B2 & B3 & B4 & B5 & B6). simpl in *.
      split; (split; [congruence|]; split; [congruence|]); intros b i j Hi Hj.
      * rewrite A5, B5 by congruence. reflexivity.
      * rewrite A6, B6 by congruence. reflexivity.
    + intros -> ->. exact Logic.I.
  - intros -> ->. exact Logic.I.
Qed.

Lemma well_shaped_reference (query key value bias : tensor) sc :
  well_shaped query key value bias ->
  exists Out W, _attention query key sc value bias = Some (Out, W) /\
                ncols W = nrows key.
Proof.
  intros (Hd & Hk & Hpos & Hbr & Hbc).
  unfold _attention, einsum_id_jd. simpl. rewrite Hd, bdim_refl. simpl.
  unfold broadcast2. simpl.
  assert (E1 : bdim (nrows query) (nrows bias) = Some (nrows query)).
  { destruct Hbr as [-> | ->]; [apply bdim_refl|apply bdim_one_r]. }
  assert (E2 : bdim (nrows key) (ncols bias) = Some (nrows key)).
  { destruct Hbc as [-> | ->]; [apply bdim_refl|apply bdim_one_r]. }
  rewrite E1, E2. simpl. rewrite softmax_in_place_cols. simpl.
  destruct (nrows key =? 0) eqn:E; [apply Nat.eqb_eq in E; lia|]. simpl.
  unfold einsum_ij_jd. simpl. rewrite Hk, bdim_refl. simpl.
  eexists _, _. split; [reflexivity|]. reflexivity.
Qed.

(** The in-place softmax along the last axis, in terms of the entries of
    its argument. *)
Lemma softmax_cols_val_at (x : tensor) (f : I -> nat -> nat -> F) b i j :
  (forall i j, i < nrows x -> j < ncols x -> at_ x b i j = f b i j) ->
  i < nrows x -> j < ncols x ->
  at_ (softmax_cols_val x) b i j =
  fdiv (fexp (fsub (f b i j) (fmax_upto (ncols x - 1) (f b i))))
       (fsum (ncols x)
          (fun j' => fexp (fsub (f b i j') (fmax_upto (ncols x - 1) (f b i))))).
Proof.
  intros Hx Hi Hj. simpl. rewrite !(bidx_lt Hi), Hx by assumption.
  assert (HM : fmax_upto (ncols x - 1) (fun j0 => at_ x b i j0)
               = fmax_upto (ncols x - 1) (f b i)).
  { apply fmax_upto_ext. intros j0 Hj0. apply Hx; lia. }
  rewrite HM. f_equal. apply fsum_ext. intros j0 Hj0.
  rewrite Hx by assumption. reflexivity.
Qed.

Opaque softmax_cols_val.

(** On well-shaped arguments the single pass returns, entry by entry, the
    softmax of the biased logits and the values weighted by it. *)
Lemma _attention_closed_form (query key value bias : tensor) sc :
  well_shaped query key value bias ->
  exists Out W, _attention query key sc value bias = Some (Out, W) /\
    ncols W = nrows key /\
    (forall b i d, i < nrows query -> d < ncols value ->
       at_ Out b i d = attn_output query key sc value bias b i d) /\
    (forall b i j, i < nrows query -> j < nrows key ->
       at_ W b i j = attn_weights query key sc bias b i j).
Proof.
  intros (Hd & Hk & Hpos & Hbr & Hbc).
  unfold _attention, einsum_id_jd. simpl. rewrite Hd, bdim_refl. simpl.
  unfold broadcast2. simpl.
  assert (E1 : bdim (nrows query) (nrows bias) = Some (nrows query)).
  { destruct Hbr as [-> | ->]; [apply bdim_refl|apply bdim_one_r]. }
  assert (E2 : bdim (nrows key) (ncols bias) = Some (nrows key)).
  { destruct Hbc as [-> | ->]; [apply bdim_refl|apply bdim_one_r]. }
  rewrite E1, E2. simpl obind. rewrite softmax_in_place_cols.
  cbn [ncols].
  destruct (nrows key =? 0) eqn:E; [apply Nat.eqb_eq in E; lia|].
  simpl obind.
  unfold einsum_ij_jd. change (ncols (softmax_cols_val ?x)) with (ncols x).
  cbn [ncols]. rewrite <- Hk, bdim_refl. simpl obind.
  eexists _, _. split; [reflexivity|]. split; [reflexivity|].
  match goal with
  | |- context [softmax_cols_val ?x] => set (X := x)
  end.
  assert (HX : forall b i j, i < nrows X -> j < ncols X ->
                 at_ X b i j = attn_logits query key sc bias b i j).
  { intros b i j Hi Hj. unfold X in *. simpl in *. unfold attn_logits.
    rewrite Hd. rewrite (bidx_lt Hi), (bidx_lt Hj). f_equal.
    apply fsum_ext. intros e He. now rewrite (bidx_lt He). }
  assert (HW : forall b i j, i < nrows query -> j < nrows key ->
                 at_ (softmax_cols_val X) b i j
                 = attn_weights query key sc bias b i j).
  { intros b i j Hi Hj.
    rewrite (@softmax_cols_val_at X (attn_logits query key sc bias) b i j);
      [reflexivity|intros; apply HX; assumption|exact Hi|exact Hj]. }
  split.
  - intros b i d Hi Hdv. cbn [at_]. unfold attn_output.
    apply fsum_ext. intros j Hj.
    change (ncols (softmax_cols_val X)) with (nrows key).
    rewrite !(bidx_lt Hj), HW by assumption. reflexivity.
  - intros b i j Hi Hj. apply HW; assumption.
Qed.

Transparent softmax_cols_val.

(** [attention] on well-shaped arguments with an acceptable chunk size
    returns, entry by entry, what the single pass computes. *)
Lemma attention_closed_form junk (query key value bias : tensor) sc sub :
  well_shaped query key value bias -> chunk_size_ok sub ->
  exists o w, attention junk query key sc value bias sub = Some (o, w) /\
    nrows o = nrows query /\ ncols o = ncols value /\
    nrows w = nrows query /\ ncols w = nrows key /\
    (forall b i d, i < nrows query -> d < ncols value ->
       at_ o b i d = attn_output query key sc value bias b i d) /\
    (forall b i j, i < nrows query -> j < nrows key ->
       at_ w b i j = attn_weights query key sc bias b i j).
Proof.
  intros Hws Hsub.
  assert (Hb : bias_rows_ok query bias) by apply Hws.
  assert (Hrun : run_matches query key sc value bias
                   (attention junk query key sc value bias sub)).
  { destruct sub as [z|]; [|apply attention_default_chunk; auto].
    simpl in Hsub. destruct (Z.eq_dec z 0) as [->|Hz].
    - apply attention_default_chunk; auto.
    - apply attention_positive_chunk; [exact Hb|lia]. }
  destruct (@_attention_closed_form query key value bias sc Hws)
    as (Out & W & E & Hw & HO & HW).
  unfold run_matches in Hrun. rewrite E in Hrun.
  apply Nat.eqb_eq in Hw. rewrite Hw in Hrun.
  destruct Hrun as ([o w] & -> & (A1 & A2 & A3 & A4 & A5 & A6)). simpl in *.
  exists o, w. split; [reflexivity|]. repeat split; try assumption.
  - intros b i d Hi Hdv. rewrite A5 by assumption. apply HO; assumption.
  - intros b i j Hi Hj. rewrite A6 by assumption. apply HW; assumption.
Qed.

(** [attention] with the chunk size set to the query length. *)
Lemma attention_full_chunk junk (query key value bias : tensor) sc :
  bias_rows_ok query bias ->
  run_matches query key sc value bias
    (attention junk query key sc value bias (Some (Z.of_nat (nrows query)))).
Proof.
  intros Hb. destruct (Nat.eq_dec (nrows query) 0) as [E|E].
  - rewrite E. apply attention_default_chunk; auto.
  - apply attention_positive_chunk; [exact Hb|lia].
Qed.

(** C1. Chunk invariance of the attention primitive.  For a bias that
    broadcasts along the query axis (one row per query, or a single row) and
    every chunk size [c >= 1], dividing the query length or not, [attention]
    with [subbatch_size = c] and [attention] with [subbatch_size = n_q] have
    the same outcome: both raise, or both return outputs and attention
    weights of the same shape that agree in every entry, whatever the
    allocator left in the result buffers.  On well-shaped inputs the call
    returns.  The entries agree exactly, for any scalar arithmetic. *)
Theorem attention_chunk_invariance junk1 junk2
    (query key value bias : tensor) (scale : F) (c : Z) :
  bias_rows_ok query bias ->
  (1 <= c)%Z ->
  result_eq (attention junk1 query key scale value bias (Some c))
            (attention junk2 query key scale value bias
               (Some (Z.of_nat (nrows query)))) /\
  (well_shaped query key value bias ->
   attention junk1 query key scale value bias (Some c) <> None).
Proof.
  intros Hb Hc.
  pose proof (@attention_positive_chunk junk1 query key value bias scale c Hb
                ltac:(lia)) as H1.
  pose proof (@attention_full_chunk junk2 query key value bias scale Hb) as H2.
  split; [eapply run_matches_result_eq; eassumption|].
  intros Hws.
  destruct (@well_shaped_reference query key value bias scale Hws)
    as (Out & W & E & Hw).
  unfold run_matches in H1. rewrite E in H1.
  apply Nat.eqb_eq in Hw. rewrite Hw in H1.
  destruct H1 as (st & -> & _). discriminate.
Qed.

(** C2 (as the code has it). A negative chunk size makes [attention] raise
    ([torch.split] rejects it); chunk size 0 does not: [subbatch_size or
    q_length] replaces it by the query length, exactly as for an absent
    chunk size. *)
Theorem attention_nonpositive_chunk junk
    (query key value bias : tensor) (scale : F) (c : Z) :
  (c <= 0)%Z ->
  attention junk query key scale value bias (Some c) =
  if (c =? 0)%Z then attention junk query key scale value bias None else None.
Proof.
  intros Hc. destruct (c =? 0)%Z eqn:E.
  - apply Z.eqb_eq in E. subst c. reflexivity.
  - apply Z.eqb_neq in E. unfold attention, py_or, torch_split, split_bounds.
    apply Z.eqb_neq in E. rewrite E.
    destruct (c <? 0)%Z eqn:E1; [reflexivity|].
    apply Z.ltb_ge in E1. apply Z.eqb_neq in E. lia.
Qed.

End ChunkInvariance.

(** ** Softmax over the reals *)

Section SoftmaxReal.

Local Open Scope R_scope.

Lemma fsum_R_scale n (f : nat -> R) c :
  fsum n (fun t => f t * c) = fsum n f * c.
Proof.
  induction n as [|n IH]; simpl; [ring|]. rewrite IH. ring.
Qed.

Lemma fsum_R_pos n (f : nat -> R) :
  (0 < n)%nat -> (forall t, 0 < f t) -> 0 < fsum n f.
Proof.
  intros Hn Hf. induction n as [|n IH]; [lia|]. simpl.
  destruct n as [|n].
  - simpl. specialize (Hf 0%nat). lra.
  - specialize (IH ltac:(lia)). specialize (Hf (S n)). lra.
Qed.

Lemma fsum_exp_pos n (f : nat -> R) :
  (0 < n)%nat -> 0 < fsum n (fun t => exp (f t)).
Proof. intros Hn. apply fsum_R_pos; [exact Hn|]. intros t. apply exp_pos. Qed.

(** Subtracting a constant before exponentiating does not change softmax. *)
Lemma vsoftmax_sub_eq m n f t :
  (0 < n)%nat -> vsoftmax_sub m n f t = vsoftmax n f t.
Proof.
  intros Hn. unfold vsoftmax_sub, vsoftmax.
  assert (E : forall u, exp (f u - m) = exp (f u) * exp (- m)).
  { intros u. unfold Rminus. apply exp_plus. }
  rewrite E. rewrite (@fsum_ext R Scalar_R n _ (fun t' => exp (f t') * exp (- m)))
    by (intros; apply E).
  rewrite fsum_R_scale.
  pose proof (@fsum_exp_pos n f Hn). pose proof (exp_pos (- m)).
  field. split; lra.
Qed.

Lemma vsoftmax_pos n f t : (0 < n)%nat -> 0 < vsoftmax n f t.
Proof.
  intros Hn. unfold vsoftmax. apply Rdiv_lt_0_compat;
    [apply exp_pos|apply fsum_exp_pos, Hn].
Qed.

Lemma vsoftmax_sum_one n f : (0 < n)%nat -> fsum n (vsoftmax n f) = 1.
Proof.
  intros Hn. unfold vsoftmax, Rdiv.
  rewrite (fsum_R_scale n (fun t => exp (f t))).
  pose proof (@fsum_exp_pos n f Hn). field. lra.
Qed.

Lemma vsoftmax_shift n f g c t :
  (0 < n)%nat -> (forall u, (u < n)%nat -> g u = f u + c) -> (t < n)%nat ->
  vsoftmax n g t = vsoftmax n f t.
Proof.
  intros Hn Hg Ht.
  rewrite <- (@vsoftmax_sub_eq c n g t Hn). unfold vsoftmax_sub, vsoftmax.
  rewrite Hg by assumption. f_equal; [f_equal; ring|].
  apply fsum_ext. intros u Hu. rewrite Hg by assumption. f_equal. ring.
Qed.

Context {I : Type}.

(** Inside the shape, the in-place branch computes in each fibre the softmax
    of that fibre with its maximum subtracted first. *)
Lemma softmax_val_at a (x : bmat I R) b i j :
  (i < nrows x)%nat -> (j < ncols x)%nat ->
  at_ (softmax_val a x) b i j =
  vsoftmax_sub (fmax_upto (axis_size a x - 1) (fibre a x b i j))
    (axis_size a x) (fibre a x b i j) (fibre_pos a i j).
Proof.
  intros Hi Hj. destruct a; simpl; rewrite !bidx_lt by assumption; reflexivity.
Qed.

Lemma softmax_returns (x : bmat I R) dim a in_place :
  axis_of_dim dim = Some a -> (0 < axis_size a x)%nat ->
  exists y, softmax x dim in_place = Some y /\
    nrows y = nrows x /\ ncols y = ncols x /\
    forall b i j, (i < nrows x)%nat -> (j < ncols x)%nat ->
      at_ y b i j =
      vsoftmax (axis_size a x) (fibre a x b i j) (fibre_pos a i j).
Proof.
  intros Ha Hn. destruct in_place.
  - erewrite softmax_in_place_closed by exact Ha.
    destruct (axis_size a x =? 0)%nat eqn:E; [apply Nat.eqb_eq in E; lia|].
    eexists. split; [reflexivity|].
    split; [destruct a; reflexivity|]. split; [destruct a; reflexivity|].
    intros b i j Hi Hj. rewrite softmax_val_at by assumption.
    apply vsoftmax_sub_eq, Hn.
  - unfold softmax. rewrite Ha. simpl. eexists. split; [reflexivity|].
    repeat split. intros b i j _ _. destruct a; reflexivity.
Qed.

(** C6. In-place and out-of-place softmax agree.  Along either trailing
    axis, provided the axis is not empty, [softmax] with [in_place=True] and
    with [in_place=False] both return, and return tensors of the same shape
    with the same value in every entry (over the reals). *)
Theorem softmax_in_place_equiv (x : bmat I R) (dim : Z) (a : axis) :
  axis_of_dim dim = Some a -> (0 < axis_size a x)%nat ->
  exists y1 y2,
    softmax x dim true = Some y1 /\ softmax x dim false = Some y2 /\
    bmat_eq y1 y2.
Proof.
  intros Ha Hn.
  destruct (@softmax_returns x dim a true Ha Hn) as (y1 & E1 & R1 & C1 & V1).
  destruct (@softmax_returns x dim a false Ha Hn) as (y2 & E2 & R2 & C2 & V2).
  exists y1, y2. repeat split; try assumption; try congruence.
  intros b i j Hi Hj. rewrite V1, V2 by congruence. reflexivity.
Qed.

(** C7. Softmax correctness.  Along either trailing axis, provided the axis
    is not empty, [softmax] (in either mode) returns a tensor of the shape of
    its input whose entries are non-negative and sum to exactly 1 along the
    axis, and it returns the same tensor when one constant is added to all
    logits of a fibre. *)
Theorem softmax_correct (x : bmat I R) (dim : Z) (a : axis) (in_place : bool) :
  axis_of_dim dim = Some a -> (0 < axis_size a x)%nat ->
  exists y, softmax x dim in_place = Some y /\
    nrows y = nrows x /\ ncols y = ncols x /\
    (forall b i j, (i < nrows x)%nat -> (j < ncols x)%nat ->
       0 <= at_ y b i j) /\
    (forall b i j, (i < nrows x)%nat -> (j < ncols x)%nat ->
       axis_sum a y b i j = 1) /\
    (forall cst x', shifted_along a cst x x' ->
       exists y', softmax x' dim in_place = Some y' /\ bmat_eq y' y).
Proof.
  intros Ha Hn.
  destruct (@softmax_returns x dim a in_place Ha Hn) as (y & E & Hr & Hc & V).
  exists y. split; [exact E|]. split; [exact Hr|]. split; [exact Hc|].
  split; [|split].
  - intros b i j Hi Hj. rewrite V by assumption.
    apply Rlt_le, vsoftmax_pos, Hn.
  - intros b i j Hi Hj. destruct a; simpl in *.
    + rewrite Hr. 
      rewrite (@fsum_ext R Scalar_R (nrows x) _
                 (vsoftmax (nrows x) (fun i' => at_ x b i' j))).
      * apply vsoftmax_sum_one, Hn.
      * intros i' Hi'. rewrite V by assumption. reflexivity.
    + rewrite Hc.
      rewrite (@fsum_ext R Scalar_R (ncols x) _
                 (vsoftmax (ncols x) (fun j' => at_ x b i j'))).
      * apply vsoftmax_sum_one, Hn.
      * intros j' Hj'. rewrite V by assumption. reflexivity.
  - intros cst x' (Sr & Sc & Sv).
    assert (Hn' : (0 < axis_size a x')%nat).
    { destruct a; simpl in *; lia. }
    destruct (@softmax_returns x' dim a in_place Ha Hn')
      as (y' & E' & Hr' & Hc' & V').
    exists y'. split; [exact E'|].
    split; [congruence|]. split; [congruence|].
    intros b i j Hi Hj. rewrite V', V by lia.
    destruct a; simpl in *.
    + rewrite Sr. apply vsoftmax_shift with (c := cst b j); try lia.
      intros u Hu. apply Sv; lia.
    + rewrite Sc. apply vsoftmax_shift with (c := cst b i); try lia.
      intros u Hu. apply Sv; lia.
Qed.

End SoftmaxReal.

(** ** What a call of [attention] may change *)

Section Frame.

Context {I F : Type} {SF : Scalar F}.

Local Abbreviation tensor := (bmat I F).

Import Heap.

Lemma firstn_upd {A} (l : list A) n i x :
  n <= i -> firstn n (upd l i x) = firstn n l.
Proof.
  revert n i. induction l as [|a l IH]; intros n i Hle; simpl.
  - reflexivity.
  - destruct i as [|i]; [replace n with 0 by lia; reflexivity|].
    destruct n as [|n]; [reflexivity|]. simpl. f_equal. apply IH. lia.
Qed.

Lemma length_upd {A} (l : list A) i x : length (upd l i x) = length l.
Proof.
  revert i. induction l as [|a l IH]; intros i; simpl; [reflexivity|].
  destruct i; simpl; [reflexivity|]. now rewrite IH.
Qed.

Lemma firstn_snoc {A} (l : list A) n x :
  n <= length l -> firstn n (l ++ [x]) = firstn n l.
Proof.
  intros Hle. rewrite firstn_app.
  replace (n - length l) with 0 by lia. simpl. apply app_nil_r.
Qed.

Lemma triple_ret {A} n0 (a : A) (Q : A -> Prop) :
  Q a -> triple n0 (ret (I := I) (F := F) a) Q.
Proof.
  intros HQ h Hh. simpl. repeat split; auto. intros a' [= <-]. exact HQ.
Qed.

Lemma triple_bind {A B} n0 (m : M A) (f : A -> M B) (P : A -> Prop)
    (Q : B -> Prop) :
  triple (I := I) (F := F) n0 m P ->
  (forall a, P a -> triple n0 (f a) Q) ->
  triple n0 (bind m f) Q.
Proof.
  intros Hm Hf h Hh. destruct (Hm h Hh) as (H1 & H2 & H3).
  unfold bind. destruct (m h) as [[a|] h1]; simpl in *.
  - destruct (Hf a (H3 a eq_refl) h1 H2) as (G1 & G2 & G3).
    split; [congruence|]. split; assumption.
  - repeat split; auto. discriminate.
Qed.

Lemma triple_weaken {A} n0 (m : M A) (P Q : A -> Prop) :
  triple (I := I) (F := F) n0 m P -> (forall a, P a -> Q a) -> triple n0 m Q.
Proof.
  intros Hm HPQ h Hh. destruct (Hm h Hh) as (H1 & H2 & H3).
  repeat split; auto.
Qed.

Lemma triple_lift {A} n0 (o : option A) :
  triple n0 (lift (I := I) (F := F) o) (fun _ => True).
Proof. intros h Hh. simpl. repeat split; auto. Qed.

Lemma triple_read n0 x :
  triple n0 (read (I := I) (F := F) x) (fun _ => True).
Proof. intros h Hh. simpl. repeat split; auto. Qed.

Lemma triple_alloc n0 (v : tensor) : triple n0 (alloc v) (fresh n0).
Proof.
  intros h Hh. simpl. split; [apply firstn_snoc, Hh|].
  split; [rewrite length_app; simpl; lia|].
  intros a [= <-]. exact Hh.
Qed.

(** Writing through a handle on fresh storage leaves the old storages alone. *)
Lemma triple_write n0 x (v : tensor) :
  fresh n0 x -> triple n0 (write x v) (fun _ => True).
Proof.
  intros Hx h Hh. unfold write.
  destruct (nth_error h (h_loc x)); simpl.
  - split; [apply firstn_upd, Hx|]. rewrite length_upd. auto.
  - repeat split; auto.
Qed.

Lemma triple_unary n0 op x : triple n0 (unary (I := I) (F := F) op x) (fresh n0).
Proof.
  unfold unary. eapply triple_bind; [apply triple_read|].
  intros xv _. apply triple_alloc.
Qed.

Lemma triple_binary n0 op x y :
  triple n0 (binary (I := I) (F := F) op x y) (fresh n0).
Proof.
  unfold binary. eapply triple_bind; [apply triple_read|]. intros xv _.
  eapply triple_bind; [apply triple_read|]. intros yv _.
  eapply triple_bind; [apply triple_lift|]. intros r _. apply triple_alloc.
Qed.

Lemma triple_binary_into n0 op x y :
  fresh n0 x ->
  triple n0 (binary_into (I := I) (F := F) op x y) (fun _ => True).
Proof.
  intros Hx. unfold binary_into.
  eapply triple_bind; [apply triple_read|]. intros xv _.
  eapply triple_bind; [apply triple_read|]. intros yv _.
  eapply triple_bind; [apply triple_lift|]. intros r _.
  apply triple_write, Hx.
Qed.

Lemma triple_setitem n0 out start stop res :
  fresh n0 out ->
  triple n0 (setitem (I := I) (F := F) out start stop res) (fun _ => True).
Proof.
  intros Hx. unfold setitem.
  eapply triple_bind; [apply triple_read|]. intros xv _.
  eapply triple_bind; [apply triple_read|]. intros yv _.
  eapply triple_bind; [apply triple_lift|]. intros r _.
  apply triple_write, Hx.
Qed.

(** The in-place branch of [softmax] writes only through the handle it is
    given. *)
Lemma triple_softmax n0 x dim in_place :
  (in_place = true -> fresh n0 x) ->
  triple n0 (softmax (I := I) x dim in_place) (fresh n0).
Proof.
  intros Hx. unfold softmax.
  eapply triple_bind; [apply triple_lift|]. intros a _.
  destruct in_place; [specialize (Hx eq_refl)|apply triple_unary].
  eapply triple_bind; [apply triple_read|]. intros xv _.
  eapply triple_bind; [apply triple_lift|]. intros mv _.
  eapply triple_bind; [apply triple_alloc|]. intros max_val _.
  eapply triple_bind; [apply triple_binary_into, Hx|]. intros _ _.
  eapply triple_bind; [apply triple_read|]. intros xv' _.
  eapply triple_bind; [apply triple_write, Hx|]. intros _ _.
  eapply triple_bind; [apply triple_unary|]. intros summed _.
  eapply triple_bind; [apply triple_binary_into, Hx|]. intros _ _.
  apply triple_ret, Hx.
Qed.

(** [_attention] runs the in-place softmax on the tensor [logits + bias]
    that it has just allocated. *)
Lemma triple__attention n0 query key scale value bias :
  triple n0 (_attention (I := I) query key scale value bias)
    (fun r => fresh n0 (fst r) /\ fresh n0 (snd r)).
Proof.
  unfold _attention.
  eapply triple_bind; [apply triple_unary|]. intros qs _.
  eapply triple_bind; [apply triple_binary|]. intros logits _.
  eapply triple_bind; [apply triple_binary|]. intros x Hx.
  eapply triple_bind; [apply triple_softmax; intros _; exact Hx|].
  intros attn Hattn.
  eapply triple_bind; [apply triple_binary|]. intros out Hout.
  apply triple_ret. split; assumption.
Qed.

Lemma triple_for_each {A} n0 (body : A -> M unit) l :
  (forall a, triple (I := I) (F := F) n0 (body a) (fun _ => True)) ->
  triple n0 (for_each body l) (fun _ => True).
Proof.
  intros Hb. induction l as [|a l IH]; simpl.
  - apply triple_ret. exact Logic.I.
  - eapply triple_bind; [apply Hb|]. intros _ _. exact IH.
Qed.

Lemma triple_attention_step n0 key scale value bias q_length sub
    output logits iq :
  fresh n0 output -> fresh n0 logits ->
  triple n0 (attention_step (I := I) key scale value bias q_length sub
               output logits iq) (fun _ => True).
Proof.
  intros Ho Hl. destruct iq as [i q_i]. unfold attention_step.
  eapply triple_bind; [apply triple__attention|]. intros [res attn] _.
  eapply triple_bind; [apply triple_setitem, Ho|]. intros _ _.
  apply triple_setitem, Hl.
Qed.

Lemma triple_attention n0 junk query key scale value bias sub :
  triple n0 (attention (I := I) junk query key scale value bias sub)
    (fun r => fresh n0 (fst r) /\ fresh n0 (snd r)).
Proof.
  unfold attention.
  eapply triple_bind; [apply triple_read|]. intros vv _.
  eapply triple_bind; [apply triple_alloc|]. intros output Ho.
  eapply triple_bind; [apply triple_alloc|]. intros logits Hl.
  eapply triple_bind.
  { unfold split_views. eapply triple_bind; [apply triple_lift|].
    intros bounds _. apply triple_ret with (Q := fun _ => True).
    exact Logic.I. }
  intros chunks _.
  eapply triple_bind.
  { apply triple_for_each. intros iq.
    apply triple_attention_step; assumption. }
  intros _ _. apply triple_ret. split; assumption.
Qed.

(** C10. [attention] never mutates its arguments.  Whatever the store holds
    and whatever handles are passed, after the call (returned or raised)
    every storage that existed before it holds exactly what it held: the
    store has only grown.  In particular the query, key, value and bias
    tensors are unchanged, although the softmax inside [_attention] runs in
    place. *)
Theorem attention_preserves_arguments junk query key (scale : F) value bias
    (subbatch_size : option Z) (h : heap (I := I) (F := F)) :
  firstn (length h)
    (snd (attention junk query key scale value bias subbatch_size h)) = h.
Proof.
  destruct (@triple_attention (length h) junk query key scale value bias
              subbatch_size h (le_n _)) as (H & _).
  rewrite H. apply firstn_all.
Qed.

End Frame.

(** ** Shapes through the modules *)

Section ShapeFacts.

Import Shape.
Import String.StringSyntax.
Local Open Scope string_scope.

Lemma broadcast_refl s : broadcast s s = Some s.
Proof.
  induction s as [|a s IH]; simpl; [reflexivity|]. now rewrite bdim_refl, IH.
Qed.

Lemma broadcast_nil_r s : broadcast s [] = Some s.
Proof. destruct s; reflexivity. Qed.

Lemma expandable_refl s : expandable s s = true.
Proof.
  induction s as [|a s IH]; simpl; [reflexivity|].
  now rewrite expands_to_refl, IH.
Qed.

Lemma expandable_broadcast s t : broadcast t s = Some t -> expandable s t = true.
Proof.
  revert t. induction s as [|a s IH]; intros t H; [reflexivity|].
  destruct t as [|b t]; simpl in H; [discriminate|]. simpl.
  destruct (bdim b a) as [d|] eqn:Ed; simpl in H; [|discriminate].
  destruct (broadcast t s) as [r|] eqn:Er; simpl in H; [|discriminate].
  injection H as -> ->. rewrite (IH t Er), andb_true_r.
  unfold bdim in Ed. unfold expands_to.
  destruct (b =? a) eqn:E1.
  - apply Nat.eqb_eq in E1. subst. now rewrite Nat.eqb_refl.
  - destruct (b =? 1) eqn:E2.
    + injection Ed as ->. now rewrite Nat.eqb_refl.
    + destruct (a =? 1) eqn:E3; [apply orb_true_r|discriminate].
Qed.

(** The chunks of [split] have the lengths of the slices of the loop. *)
Lemma split_bounds_slices n sb bounds :
  split_bounds n sb = Some bounds ->
  forall i sl, nth_error bounds i = Some sl ->
    snd sl = slice_len n (Z.of_nat i * sb) ((Z.of_nat i + 1) * sb).
Proof.
  unfold split_bounds.
  destruct (sb <? 0)%Z eqn:E1; [discriminate|].
  destruct (sb =? 0)%Z eqn:E0.
  - apply Z.eqb_eq in E0. subst sb.
    destruct (n =? 0) eqn:En; [|discriminate]. apply Nat.eqb_eq in En.
    intros [= <-] i sl Hi. destruct i as [|[|i]]; simpl in Hi; try discriminate.
    injection Hi as <-. subst n. reflexivity.
  - apply Z.ltb_ge in E1. apply Z.eqb_neq in E0.
    destruct (@split_plan n (Z.to_nat sb)) as (HN & Hplan & _); [lia|].
    rewrite Z2Nat.id in Hplan by lia.
    intros [= <-] i sl Hi.
    rewrite nth_error_map in Hi.
    destruct (nth_error (seq 0 _) i) as [i'|] eqn:Es; simpl in Hi;
      [|discriminate].
    injection Hi as <-. simpl.
    assert (Hlt : i < Nat.max ((n + Z.to_nat sb - 1) / Z.to_nat sb) 1).
    { pose proof (proj1 (nth_error_Some _ _) ltac:(rewrite Es; discriminate))
        as Hl.
      now rewrite length_seq in Hl. }
    rewrite nth_error_seq in Es.
    destruct (Nat.ltb_spec i (Nat.max ((n + Z.to_nat sb - 1) / Z.to_nat sb) 1));
      [|lia].
    injection Es as <-. simpl.
    destruct (Hplan i Hlt) as (Hs & He & _).
    unfold slice_len. rewrite Hs, He. lia.
Qed.

Lemma all_ok_enumerate {A} (body : nat * A -> option unit) (l : list A) :
  (forall i a, nth_error l i = Some a -> body (i, a) = Some tt) ->
  all_ok body (enumerate l) = Some tt.
Proof.
  unfold enumerate. intros H.
  assert (G : forall m, (forall i a, nth_error l i = Some a ->
                           body (m + i, a) = Some tt) ->
                        all_ok body (combine (seq m (length l)) l) = Some tt).
  { clear H. induction l as [|a l IH]; intros m H; simpl; [reflexivity|].
    pose proof (H 0 a eq_refl) as H0. rewrite Nat.add_0_r in H0.
    rewrite H0. simpl. apply IH. intros i a' Hi.
    replace (S m + i) with (m + S i) by lia. apply H. exact Hi. }
  apply G. exact H.
Qed.

Lemma split_bounds_ok n sub :
  chunk_size_ok sub -> exists bounds, split_bounds n (py_or sub n) = Some bounds.
Proof.
  intros Hs. unfold split_bounds.
  assert (Hp : (0 <= py_or sub n)%Z /\ ((py_or sub n = 0)%Z -> n = 0)).
  { unfold py_or. destruct sub as [z|]; simpl in Hs.
    - destruct (z =? 0)%Z eqn:E; [lia|]. apply Z.eqb_neq in E. lia.
    - lia. }
  destruct Hp as [Hp1 Hp2].
  destruct (py_or sub n <? 0)%Z eqn:E1; [apply Z.ltb_lt in E1; lia|].
  destruct (py_or sub n =? 0)%Z eqn:E0.
  - apply Z.eqb_eq in E0. rewrite (Hp2 E0). simpl. eauto.
  - eauto.
Qed.

(** [attention] on well-shaped arguments: queries [(.., Lq, d)], keys
    [(.., Lk, d)], values [(.., Lk, dv)], a bias [(.., Lq, Lk)] whose batch
    axes broadcast to those of the queries, and at least one key. *)
Lemma attention_shape d dv Lq Lk bs bt sub :
  broadcast bs bt = Some bs ->
  Lk <> 0 ->
  chunk_size_ok sub ->
  attention (d :: Lq :: bs) (d :: Lk :: bs) (dv :: Lk :: bs)
    (Some (Lk :: Lq :: bt)) sub
  = Some (dv :: Lq :: bs, Lk :: Lq :: bs).
Proof.
  intros Hbt HLk Hsub. unfold attention. simpl.
  destruct (@split_bounds_ok Lq sub Hsub) as (bounds & Eb). rewrite Eb. simpl.
  rewrite all_ok_enumerate; [reflexivity|].
  intros i q_i Hi. rewrite nth_error_map in Hi.
  destruct (nth_error bounds i) as [sl|] eqn:Esl; simpl in Hi; [|discriminate].
  injection Hi as <-.
  rewrite (@split_bounds_slices _ _ _ Eb i sl Esl).
  unfold attention_step. simpl. rewrite Nat.eqb_refl. simpl.
  unfold _attention, einsum. simpl.
  rewrite !bdim_refl. simpl. rewrite !broadcast_refl. simpl.
  rewrite !bdim_refl. simpl. rewrite Hbt. simpl.
  unfold softmax. simpl.
  destruct (Lk =? 0) eqn:E; [apply Nat.eqb_eq in E; contradiction|]. simpl.
  rewrite !bdim_refl. simpl. rewrite !broadcast_refl. simpl.
  rewrite !expands_to_refl, !expandable_refl. reflexivity.
Qed.

Lemma split_bounds_exact k c :
  0 < c -> 0 < k ->
  split_bounds (k * c) (Z.of_nat c) = Some (map (fun i => (i * c, c)) (seq 0 k)).
Proof.
  intros Hc Hk. unfold split_bounds.
  destruct (Z.of_nat c <? 0)%Z eqn:E1; [apply Z.ltb_lt in E1; lia|].
  destruct (Z.of_nat c =? 0)%Z eqn:E0; [apply Z.eqb_eq in E0; lia|].
  rewrite Nat2Z.id.
  assert (Hd : (k * c + c - 1) / c = k).
  { replace (k * c + c - 1) with (k * c + (c - 1)) by lia.
    rewrite Nat.div_add_l by lia. rewrite Nat.div_small by lia. lia. }
  rewrite Hd. replace (Nat.max k 1) with k by lia.
  f_equal. apply map_ext. intros i.
  replace (c * k - k * c) with 0 by lia.
  destruct (i <? k - 1); f_equal; lia.
Qed.

Ltac shape_simp :=
  repeat progress
    (simpl;
     rewrite ?bdim_refl, ?bdim_one_l, ?bdim_one_r, ?broadcast_nil_r,
       ?broadcast_refl, ?expands_to_refl, ?expands_to_one, ?expandable_refl,
       ?Nat.eqb_refl).

Opaque attention.

(** Steps shared by the two shape lemmas on [Attention.forward], after the
    track axis is in place and the query/gate projection has been split. *)
Ltac forward_steps c fwd_cfg r Lq Lk tail HLk :=
  rewrite ?Nat.eqb_refl; simpl;
  (assert (Hsub : exists sub,
             match fwd_cfg with
             | Some cfg => Some cfg
             | None => Some (Some r)
             end = Some sub /\ chunk_size_ok sub)
     by (destruct fwd_cfg as [cfg|]; simpl in *; [eauto|];
         eexists; split; [reflexivity|]; simpl; lia));
  destruct Hsub as (sub & -> & Hsub); simpl;
  (destruct (c =? 0) eqn:Ec; [apply Nat.eqb_eq in Ec; contradiction|]);
  simpl;
  pose proof (@attention_shape c c Lq Lk tail tail sub (broadcast_refl _)
                HLk Hsub) as HA;
  unfold shape in *; rewrite HA; clear HA;
  shape_simp; reflexivity.

(** Plain inputs [(.., length, feature_dim)] to a module with one track:
    the track axis is inserted and removed again. *)
Lemma Attention_forward_plain self Lq Lk rbs fwd_cfg :
  Attention.n_axis self = 1 ->
  Attention.q_dim self <> 1 ->
  Attention.c self <> 0 ->
  Lk <> 0 ->
  cfg_ok fwd_cfg ->
  Attention.forward self
    (Attention.q_dim self :: Lq :: rbs) (Attention.kv_dim self :: Lk :: rbs)
    (Some (Lk :: Lq :: Attention.n_head self :: rbs)) fwd_cfg
  = Some (Attention.out_dim self :: Lq :: rbs,
          Attention.n_head self :: Lk :: Lq :: rbs).
Proof.
  destruct self as [qd kd H g c od na]. simpl. intros -> Hq Hc HLk Hcfg.
  unfold Attention.forward. simpl.
  rewrite Nat.eqb_refl.
  destruct (qd =? 1) eqn:E; [apply Nat.eqb_eq in E; contradiction|]. simpl.
  unfold einsum, Attention.qg_weights, Attention.kv_weights,
    Attention.qg_bias, Attention.kv_bias, Attention.o_weights,
    Attention.o_bias. shape_simp.
  assert (E2 : c * 2 = c + (c + 0)) by lia.
  assert (E1 : c * 1 = c + 0) by lia.
  unfold inplace.
  destruct g; simpl; rewrite ?E1, ?E2, ?expands_to_refl, ?expands_to_one;
    simpl.
  1: pose proof (@split_bounds_exact 2 c ltac:(lia) ltac:(lia)) as HS.
  2: pose proof (@split_bounds_exact 1 c ltac:(lia) ltac:(lia)) as HS.
  all: simpl in HS; rewrite HS; clear HS.
  all: forward_steps c fwd_cfg 1%Z Lq Lk (H :: 1 :: rbs) HLk.
Qed.

(** The same with a bias [(.., n_head, length_q, length_k)] whose batch axes
    [bt] broadcast to the batch axes of the inputs. *)
Lemma Attention_forward_plain_bias self Lq Lk rbs bt fwd_cfg :
  Attention.n_axis self = 1 ->
  Attention.q_dim self <> 1 ->
  Attention.c self <> 0 ->
  Lk <> 0 ->
  cfg_ok fwd_cfg ->
  broadcast rbs bt = Some rbs ->
  Attention.forward self
    (Attention.q_dim self :: Lq :: rbs) (Attention.kv_dim self :: Lk :: rbs)
    (Some (Lk :: Lq :: Attention.n_head self :: bt)) fwd_cfg
  = Some (Attention.out_dim self :: Lq :: rbs,
          Attention.n_head self :: Lk :: Lq :: rbs).
Proof.
  destruct self as [qd kd H g c od na]. simpl. intros -> Hq Hc HLk Hcfg Hbt.
  unfold Attention.forward. simpl.
  rewrite Nat.eqb_refl.
  destruct (qd =? 1) eqn:E; [apply Nat.eqb_eq in E; contradiction|]. simpl.
  unfold einsum, Attention.qg_weights, Attention.kv_weights,
    Attention.qg_bias, Attention.kv_bias, Attention.o_weights,
    Attention.o_bias. shape_simp.
  assert (E2 : c * 2 = c + (c + 0)) by lia.
  assert (E1 : c * 1 = c + 0) by lia.
  assert (HB : broadcast (H :: 1 :: rbs) (H :: 1 :: bt)
               = Some (H :: 1 :: rbs)).
  { simpl. rewrite !bdim_refl. simpl. rewrite Hbt. reflexivity. }
  assert (Hsub : exists sub,
             match fwd_cfg with
             | Some cfg => Some cfg
             | None => Some (Some 1%Z)
             end = Some sub /\ chunk_size_ok sub).
  { destruct fwd_cfg as [cfg|]; simpl in *; [eauto|].
    eexists; split; [reflexivity|]; simpl; lia. }
  destruct Hsub as (sub & Esub & Hsub).
  pose proof (@attention_shape c c Lq Lk (H :: 1 :: rbs) (H :: 1 :: bt) sub
                HB HLk Hsub) as HA.
  unfold inplace.
  destruct g; simpl; rewrite ?E1, ?E2, ?expands_to_refl, ?expands_to_one;
    simpl.
  1: pose proof (@split_bounds_exact 2 c ltac:(lia) ltac:(lia)) as HS.
  2: pose proof (@split_bounds_exact 1 c ltac:(lia) ltac:(lia)) as HS.
  all: simpl in HS; rewrite HS; clear HS.
  all: rewrite ?Nat.eqb_refl; simpl; rewrite Esub; simpl.
  all: destruct (c =? 0) eqn:Ec; [apply Nat.eqb_eq in Ec; contradiction|].
  all: simpl; unfold shape in *; rewrite HA; shape_simp; reflexivity.
Qed.

(** Inputs that carry the track axis [(.., length, feature_dim, n_axis)]:
    the outputs keep it. *)
Lemma Attention_forward_tracked self Lq Lk rbs fwd_cfg :
  Attention.c self <> 0 ->
  Lk <> 0 ->
  cfg_ok fwd_cfg ->
  Attention.forward self
    (Attention.n_axis self :: Attention.q_dim self :: Lq :: rbs)
    (Attention.n_axis self :: Attention.kv_dim self :: Lk :: rbs)
    (Some (Lk :: Lq :: Attention.n_head self :: Attention.n_axis self :: rbs))
    fwd_cfg
  = Some (Attention.n_axis self :: Attention.out_dim self :: Lq :: rbs,
          Attention.n_head self :: Lk :: Lq :: Attention.n_axis self :: rbs).
Proof.
  destruct self as [qd kd H g c od na]. simpl. intros Hc HLk Hcfg.
  unfold Attention.forward. simpl.
  rewrite Nat.eqb_refl. simpl.
  unfold einsum, Attention.qg_weights, Attention.kv_weights,
    Attention.qg_bias, Attention.kv_bias, Attention.o_weights,
    Attention.o_bias. shape_simp.
  assert (E2 : c * 2 = c + (c + 0)) by lia.
  assert (E1 : c * 1 = c + 0) by lia.
  unfold inplace.
  destruct g; simpl; rewrite ?E1, ?E2, ?expands_to_refl, ?expands_to_one;
    simpl.
  1: pose proof (@split_bounds_exact 2 c ltac:(lia) ltac:(lia)) as HS.
  2: pose proof (@split_bounds_exact 1 c ltac:(lia) ltac:(lia)) as HS.
  all: simpl in HS; rewrite HS; clear HS.
  all: forward_steps c fwd_cfg (Z.of_nat na) Lq Lk (H :: na :: rbs) HLk.
Qed.

Transparent attention.

(** C9 (as the code has it). Track axis of [Attention.forward].  For every
    batch shape: when the module has ONE track and the feature dimension is
    not 1, plain inputs [(.., length, q_dim)] are given a track axis that is
    removed again from the output [(.., length_q, out_dim)] and from the
    returned weights [(.., length_q, length_k, n_head)]; inputs that carry
    the track axis keep it in the output [(.., length_q, out_dim, n_axis)]
    and in the weights [(.., n_axis, length_q, length_k, n_head)]. *)
Theorem Attention_forward_track_axis (self : Attention.t)
    (bs : list nat) (Lq Lk : nat) (fwd_cfg : option (option Z)) :
  Attention.c self <> 0 -> Lk <> 0 -> cfg_ok fwd_cfg ->
  (Attention.n_axis self = 1 -> Attention.q_dim self <> 1 ->
   Attention.forward self
     (of_dims (bs ++ [Lq; Attention.q_dim self]))
     (of_dims (bs ++ [Lk; Attention.kv_dim self]))
     (Some (of_dims (bs ++ [Attention.n_head self; Lq; Lk]))) fwd_cfg
   = Some (of_dims (bs ++ [Lq; Attention.out_dim self]),
           of_dims (bs ++ [Lq; Lk; Attention.n_head self]))) /\
  Attention.forward self
    (of_dims (bs ++ [Lq; Attention.q_dim self; Attention.n_axis self]))
    (of_dims (bs ++ [Lk; Attention.kv_dim self; Attention.n_axis self]))
    (Some (of_dims (bs ++ [Attention.n_axis self; Attention.n_head self;
                           Lq; Lk]))) fwd_cfg
  = Some (of_dims (bs ++ [Lq; Attention.out_dim self; Attention.n_axis self]),
          of_dims (bs ++ [Attention.n_axis self; Lq; Lk;
                          Attention.n_head self])).
Proof.
  intros Hc HLk Hcfg. unfold of_dims. rewrite !rev_app_distr. simpl. split.
  - intros Ha Hq. apply Attention_forward_plain; assumption.
  - apply Attention_forward_tracked; assumption.
Qed.

(** [edge_repr] must have exactly the three axes [(L, L, d_edge)]: with any
    other number of axes the call raises, whatever the other arguments are
    ([permute(2, 0, 1)], line 485). *)
Lemma AttentionWEdgeBias_forward_edge_rank (self : AttentionWEdgeBias.t)
    (node_repr edge_repr mask : shape) (fwd_cfg : option (option Z)) :
  length edge_repr <> 3 ->
  AttentionWEdgeBias.forward self node_repr edge_repr mask fwd_cfg = None.
Proof.
  intros Hr. unfold AttentionWEdgeBias.forward.
  destruct (normalize node_repr) as [n|]; [|reflexivity]. cbn [obind].
  unfold normalize at 1.
  destruct edge_repr as [|d e]; [reflexivity|]. cbn [obind].
  unfold linear.
  destruct (d =? AttentionWEdgeBias.d_edge self); [|reflexivity].
  cbn [obind guard]. unfold permute.
  destruct (length [2; 0; 1]
            =? length (rev (AttentionWEdgeBias.n_head self :: e))) eqn:E;
    [|reflexivity].
  apply Nat.eqb_eq in E. rewrite length_rev in E. simpl in E, Hr. lia.
Qed.

(** C3 (as the code has it). Output shape of [AttentionWEdgeBias.forward].
    For node features [(B.., L, d_node)] with any batch axes [B..], edge
    features [(L, L, d_edge)] WITHOUT batch axes and a mask [(B'.., L)] whose
    batch axes are those of the node features or broadcast to them, with at
    least one position, [d_node] other than 1 and a per-head dimension of at
    least 1, the call returns a tensor of shape exactly [(B.., L, d_node)],
    for every head count, edge dimension and gating flag, and for every
    chunk size the configuration may carry: absent, [None], or an integer
    that is not negative. *)
Theorem AttentionWEdgeBias_forward_shape (self : AttentionWEdgeBias.t)
    (bs bm : list nat) (L : nat) (fwd_cfg : option (option Z)) :
  L <> 0 ->
  AttentionWEdgeBias.d_node self <> 1 ->
  AttentionWEdgeBias.attn_c self <> 0 ->
  cfg_ok fwd_cfg ->
  broadcast (of_dims bs) (of_dims bm) = Some (of_dims bs) ->
  AttentionWEdgeBias.forward self
    (of_dims (bs ++ [L; AttentionWEdgeBias.d_node self]))
    (of_dims [L; L; AttentionWEdgeBias.d_edge self])
    (of_dims (bm ++ [L])) fwd_cfg
  = Some (of_dims (bs ++ [L; AttentionWEdgeBias.d_node self])).
Proof.
  destruct self as [dn de H g c]. simpl. intros HL Hdn Hc Hcfg Hb.
  unfold of_dims in *. rewrite !rev_app_distr. simpl.
  unfold AttentionWEdgeBias.forward, AttentionWEdgeBias.attention. simpl.
  rewrite Nat.eqb_refl. unfold permute. simpl.
  rewrite !bdim_refl, !bdim_one_r. simpl.
  pose proof (@Attention_forward_plain_bias
                (Attention.Make dn dn H g c dn 1)
                L L (rev bs) (rev bm) fwd_cfg eq_refl Hdn Hc HL Hcfg Hb)
    as HF.
  simpl in HF. unfold shape in *. rewrite HF. reflexivity.
Qed.

End ShapeFacts.

(** ** Values through the modules *)

Section ValueFacts.

Import Value.

Context {F : Type} {SF : Scalar F}.

(** [Attention.forward] returns on well-formed sizes, and its results are
    the projections of what the single pass of attention computes. *)
Lemma Attention_forward_returns {Ib} (self : Shape.Attention.t)
    (P : Attention_params) Lq Lk
    (q_inputs kv_inputs : Ib -> nat -> nat -> nat -> F)
    (bias : Ib -> nat -> nat -> nat -> nat -> F) junk fwd_cfg :
  Shape.Attention.c self <> 0 -> Lk <> 0 -> cfg_ok fwd_cfg ->
  exists attn_out output logits,
    Attention_forward self P Lq Lk q_inputs kv_inputs bias junk fwd_cfg
      = Some (output, logits) /\
    output = project_out self P (gated_out self P q_inputs attn_out) /\
    (forall b r h q c', q < Lq -> c' < Shape.Attention.c self ->
       at_ attn_out (b, r, h) q c' =
       attn_output (query self P Lq q_inputs) (key self P Lk kv_inputs)
         (fpow_neg_half (Shape.Attention.c self)) (value self P Lk kv_inputs)
         (bias_arg Lq Lk bias) (b, r, h) q c') /\
    (forall b r h q k, q < Lq -> k < Lk ->
       logits b r q k h =
       attn_weights (query self P Lq q_inputs) (key self P Lk kv_inputs)
         (fpow_neg_half (Shape.Attention.c self)) (bias_arg Lq Lk bias)
         (b, r, h) q k).
Proof.
  intros Hc HLk Hcfg. unfold Attention_forward.
  destruct (Shape.Attention.c self =? 0) eqn:Ec;
    [apply Nat.eqb_eq in Ec; contradiction|]. simpl obind.
  set (sub := match fwd_cfg with
              | Some cfg => cfg
              | None => Some (Z.of_nat (Shape.Attention.n_axis self))
              end).
  assert (Hsub : chunk_size_ok sub).
  { unfold sub. destruct fwd_cfg as [cfg|]; simpl in *; [exact Hcfg|lia]. }
  destruct (@attention_closed_form _ _ _ junk
              (query self P Lq q_inputs) (key self P Lk kv_inputs)
              (value self P Lk kv_inputs) (bias_arg Lq Lk bias)
              (fpow_neg_half (Shape.Attention.c self)) sub)
    as (o & w & E & _ & _ & _ & _ & HO & HW); [|exact Hsub|].
  { repeat split; simpl; try lia. left. reflexivity. }
  rewrite E. simpl obind. exists o. eexists _, _.
  split; [reflexivity|]. split; [reflexivity|]. split.
  - intros b r h q c' Hq Hc'. apply HO; assumption.
  - intros b r h q k Hq Hk. apply HW; assumption.
Qed.

(** C4. Fusion formula of [GeometricAttention.forward].  For two tracks, a
    per-head dimension and a sequence length of at least 1, and every edge
    tensor and mask, the call returns, and every entry [(i, j, c)] of its
    output is the sum of the gated outer-product result of track 0, that of
    track 1, the attended result of track 0 and the attended result of
    track 1 with its two pair axes exchanged, added in this order:
    [(g0 + g1) + (a0 + a1^T)]. *)
Theorem GeometricAttention_forward_fusion (self : Shape.GeometricAttention.t)
    (P : GeometricAttention_params) (L : nat)
    (edge_repr : nat -> nat -> nat -> F) (mask : nat -> F) junk :
  Shape.GeometricAttention.n_axis self = 2 ->
  Shape.GeometricAttention.c self <> 0 ->
  L <> 0 ->
  exists att out,
    attended self P L edge_repr mask junk = Some att /\
    GeometricAttention_forward self P L edge_repr mask junk = Some out /\
    forall i j c,
      out i j c =
      fadd (fadd (gated self P L edge_repr mask i j 0 c)
                 (gated self P L edge_repr mask i j 1 c))
           (fadd (att i j c 0) (att j i c 1)).
Proof.
  intros Ha Hc HL.
  destruct (@Attention_forward_returns nat
              (Shape.GeometricAttention.attention self) (edge_attention P)
              L L (edge_stacked self edge_repr) (edge_stacked self edge_repr)
              (fun _ r h q k => pair_bias self P edge_repr mask r h q k)
              junk None Hc HL Logic.I)
    as (ao & output & logits & E & _).
  unfold GeometricAttention_forward, attended. rewrite Ha, E. simpl.
  eexists _, _. split; [reflexivity|]. split; [reflexivity|].
  intros i j c. reflexivity.
Qed.

(** *** Exchange of the two tracks of [GeometricAttention] *)

Lemma normalize_ext n (x y : nat -> F) d :
  (forall i, x i = y i) -> normalize n x d = normalize n y d.
Proof.
  intros H. unfold normalize.
  assert (Hs : fsum n x = fsum n y) by (apply fsum_ext; intros; apply H).
  rewrite Hs, (H d). do 2 f_equal. f_equal. f_equal.
  apply fsum_ext. intros i _. now rewrite (H i).
Qed.

Lemma edge_stacked_exchange (self : Shape.GeometricAttention.t)
    (E : nat -> nat -> nat -> F) i j d r :
  edge_stacked self (transpose_edges E) i j d r
  = edge_stacked self E i j d (1 - r).
Proof. destruct r as [|[|r]]; reflexivity. Qed.

Lemma act_proj_exchange (self : Shape.GeometricAttention.t)
    (P : GeometricAttention_params) (E : nat -> nat -> nat -> F) i j r c :
  act_proj self (swap_tracks P) (transpose_edges E) i j r c
  = act_proj self P E i j (1 - r) c.
Proof.
  unfold act_proj. simpl. f_equal. apply fsum_ext. intros d _.
  now rewrite edge_stacked_exchange.
Qed.

Lemma act_masked_exchange (self : Shape.GeometricAttention.t)
    (P : GeometricAttention_params) (E : nat -> nat -> nat -> F) mask i j r c :
  act_masked self (swap_tracks P) (transpose_edges E) mask i j r c
  = act_masked self P E mask i j (1 - r) c.
Proof.
  unfold act_masked, act_glu. now rewrite !act_proj_exchange.
Qed.

Lemma outer_exchange (self : Shape.GeometricAttention.t)
    (P : GeometricAttention_params) L (E : nat -> nat -> nat -> F) mask
    i j r d :
  outer self (swap_tracks P) L (transpose_edges E) mask i j r d
  = outer self P L E mask i j (1 - r) d.
Proof.
  unfold outer. apply fsum_ext. intros k _.
  now rewrite !act_masked_exchange.
Qed.

(** The gated outer-product result of track [r] for the transposed edges
    and exchanged parameters is that of track [1 - r] for the edges. *)
Lemma gated_exchange (self : Shape.GeometricAttention.t)
    (P : GeometricAttention_params) L (E : nat -> nat -> nat -> F) mask
    i j r c :
  gated self (swap_tracks P) L (transpose_edges E) mask i j r c
  = gated self P L E mask i j (1 - r) c.
Proof.
  unfold gated, gate_channels. rewrite act_proj_exchange. f_equal.
  unfold outer_proj. simpl. f_equal. apply fsum_ext. intros d _. f_equal.
  apply normalize_ext. intros d'. apply outer_exchange.
Qed.

Lemma pair_bias_exchange (self : Shape.GeometricAttention.t)
    (P : GeometricAttention_params) (E : nat -> nat -> nat -> F) mask
    r h q k :
  pair_bias self (swap_tracks P) (transpose_edges E) mask r h q k
  = pair_bias self P E mask (1 - r) h q k.
Proof.
  unfold pair_bias. simpl. do 2 f_equal. apply fsum_ext. intros c _.
  now rewrite edge_stacked_exchange.
Qed.

(** The single pass of attention depends on its arguments entry by entry. *)
Lemma attn_weights_ext {I J} (q k bias : bmat I F) (q' k' bias' : bmat J F)
    sc b b' i j :
  ncols q' = ncols q -> nrows k' = nrows k ->
  nrows bias' = nrows bias -> ncols bias' = ncols bias ->
  (forall x y, at_ q' b' x y = at_ q b x y) ->
  (forall x y, at_ k' b' x y = at_ k b x y) ->
  (forall x y, at_ bias' b' x y = at_ bias b x y) ->
  attn_weights q' k' sc bias' b' i j = attn_weights q k sc bias b i j.
Proof.
  intros Hq Hk Hbr Hbc Eq Ek Eb.
  assert (HL : forall i j, attn_logits q' k' sc bias' b' i j
                           = attn_logits q k sc bias b i j).
  { intros i0 j0. unfold attn_logits. rewrite Hq, Hbr, Hbc, Eb. f_equal.
    apply fsum_ext. intros e _. now rewrite Eq, Ek. }
  unfold attn_weights. rewrite Hk, HL.
  rewrite (@fmax_upto_ext _ _ (nrows k - 1) (attn_logits q' k' sc bias' b' i)
             (attn_logits q k sc bias b i)) by (intros; apply HL).
  f_equal. apply fsum_ext. intros j' _. now rewrite HL.
Qed.

Lemma attn_output_ext {I J} (q k v bias : bmat I F) (q' k' v' bias' : bmat J F)
    sc b b' i d :
  ncols q' = ncols q -> nrows k' = nrows k ->
  nrows bias' = nrows bias -> ncols bias' = ncols bias ->
  (forall x y, at_ q' b' x y = at_ q b x y) ->
  (forall x y, at_ k' b' x y = at_ k b x y) ->
  (forall x y, at_ v' b' x y = at_ v b x y) ->
  (forall x y, at_ bias' b' x y = at_ bias b x y) ->
  attn_output q' k' sc v' bias' b' i d = attn_output q k sc v bias b i d.
Proof.
  intros Hq Hk Hbr Hbc Eq Ek Ev Eb. unfold attn_output. rewrite Hk.
  apply fsum_ext. intros j _. rewrite Ev. f_equal.
  apply attn_weights_ext; assumption.
Qed.

Lemma qg_exchange (self : Shape.GeometricAttention.t)
    (P : GeometricAttention_params) (E : nat -> nat -> nat -> F)
    (b : nat) r h q c' :
  qg (Shape.GeometricAttention.attention self)
     (edge_attention (swap_tracks P))
     (edge_stacked self (transpose_edges E)) b r h q c'
  = qg (Shape.GeometricAttention.attention self) (edge_attention P)
       (edge_stacked self E) b (1 - r) h q c'.
Proof.
  unfold qg. simpl. f_equal. apply fsum_ext. intros a _.
  now rewrite edge_stacked_exchange.
Qed.

Lemma kv_exchange (self : Shape.GeometricAttention.t)
    (P : GeometricAttention_params) (E : nat -> nat -> nat -> F)
    (b : nat) r h k c' :
  kv (Shape.GeometricAttention.attention self)
     (edge_attention (swap_tracks P))
     (edge_stacked self (transpose_edges E)) b r h k c'
  = kv (Shape.GeometricAttention.attention self) (edge_attention P)
       (edge_stacked self E) b (1 - r) h k c'.
Proof.
  unfold kv. simpl. f_equal. apply fsum_ext. intros a _.
  now rewrite edge_stacked_exchange.
Qed.

(** C5 (as the code has it). Track exchange in [GeometricAttention.forward].
    Each track has parameters of its own, so the transposed edge tensor is
    compared under the module with the parameters of its two tracks
    exchanged.  The call on the transposed edges returns, and every
    in-range entry [(i, j, c)] of its output is [(g1 + g0) + (a1 + a0^T)],
    where [g_r] and [a_r] are the gated outer-product result and the
    attended result of track [r] in the call on the edges themselves, whose
    output is [(g0 + g1) + (a0 + a1^T)]: the attention part is transposed,
    the gated outer-product part is not. *)
Theorem GeometricAttention_forward_track_exchange
    (self : Shape.GeometricAttention.t)
    (P : GeometricAttention_params) (L : nat)
    (edge_repr : nat -> nat -> nat -> F) (mask : nat -> F) junk junk' :
  Shape.GeometricAttention.n_axis self = 2 ->
  Shape.GeometricAttention.c self <> 0 ->
  L <> 0 ->
  exists att out',
    attended self P L edge_repr mask junk = Some att /\
    GeometricAttention_forward self (swap_tracks P) L
      (transpose_edges edge_repr) mask junk' = Some out' /\
    forall i j c, i < L -> j < L ->
      out' i j c =
      fadd (fadd (gated self P L edge_repr mask i j 1 c)
                 (gated self P L edge_repr mask i j 0 c))
           (fadd (att i j c 1) (att j i c 0)).
Proof.
  intros Ha Hc HL.
  destruct (@Attention_forward_returns nat
              (Shape.GeometricAttention.attention self) (edge_attention P)
              L L (edge_stacked self edge_repr) (edge_stacked self edge_repr)
              (fun _ r h q k => pair_bias self P edge_repr mask r h q k)
              junk None Hc HL Logic.I)
    as (ao & output & logits & E & Ho & HO & _).
  destruct (@Attention_forward_returns nat
              (Shape.GeometricAttention.attention self)
              (edge_attention (swap_tracks P))
              L L (edge_stacked self (transpose_edges edge_repr))
              (edge_stacked self (transpose_edges edge_repr))
              (fun _ r h q k =>
                 pair_bias self (swap_tracks P) (transpose_edges edge_repr)
                   mask r h q k)
              junk' None Hc HL Logic.I)
    as (ao' & output' & logits' & E' & Ho' & HO' & _).
  unfold GeometricAttention_forward, attended. rewrite Ha, E, E'. simpl.
  eexists _, _. split; [reflexivity|]. split; [reflexivity|].
  intros i j c Hi Hj.
  unfold tadd, track_of_gated, track_of_attended, transpose_pair.
  rewrite !gated_exchange. simpl.
  assert (HA : forall b r h q c', q < L ->
            c' < Shape.Attention.c (Shape.GeometricAttention.attention self) ->
            at_ ao' (b, r, h) q c' = at_ ao (b, 1 - r, h) q c').
  { intros b r h q c' Hq Hc'. rewrite HO, HO' by assumption.
    apply attn_output_ext; try reflexivity; intros x y; simpl.
    - apply qg_exchange.
    - apply kv_exchange.
    - apply kv_exchange.
    - apply pair_bias_exchange. }
  assert (HX : forall b q o r, q < L -> output' b q o r = output b q o (1 - r)).
  { intros b q o r Hq. rewrite Ho, Ho'. unfold project_out. simpl.
    f_equal. apply fsum_ext. intros h _. apply fsum_ext. intros c' Hc'.
    f_equal. unfold gated_out. rewrite HA by assumption.
    destruct (Shape.Attention.gating _); [|reflexivity].
    f_equal. f_equal. unfold gate.
    apply (@qg_exchange self P edge_repr b r h q). }
  rewrite !HX by assumption. reflexivity.
Qed.

End ValueFacts.

(** ** Masking and track symmetry, over the reals *)

Section ValueReal.

Import Value.

Local Open Scope R_scope.

Lemma fsum_R_ge_term n (g : nat -> R) u :
  (forall t, 0 <= g t) -> (u < n)%nat -> g u <= fsum n g.
Proof.
  intros Hg Hu. induction n as [|n IH]; [lia|]. simpl.
  assert (H0 : 0 <= fsum n g).
  { clear IH Hu. induction n as [|n IH]; simpl; [lra|].
    specialize (Hg n). lra. }
  destruct (Nat.eq_dec u n) as [->|Hne].
  - lra.
  - specialize (IH ltac:(lia)). specialize (Hg n). lra.
Qed.

(** The weight of one key is at most [exp] of its logit's lead over any
    other key. *)
Lemma vsoftmax_le n f p u :
  (u < n)%nat -> vsoftmax n f p <= exp (f p - f u).
Proof.
  intros Hu. unfold vsoftmax.
  assert (Hn : (0 < n)%nat) by lia.
  pose proof (@fsum_exp_pos n f Hn) as Hpos.
  pose proof (@fsum_R_ge_term n (fun t => exp (f t)) u
                (fun t => Rlt_le _ _ (exp_pos (f t))) Hu) as Hge.
  simpl in Hge.
  unfold Rminus. rewrite exp_plus, exp_Ropp.
  pose proof (exp_pos (f p)) as Hp. pose proof (exp_pos (f u)) as Hpu.
  unfold Rdiv. apply Rmult_le_compat_l; [lra|].
  apply Rinv_le_contravar; assumption.
Qed.

Lemma attn_weights_R {I} (q k : bmat I R) sc bias b i j :
  (0 < nrows k)%nat ->
  attn_weights q k sc bias b i j
  = vsoftmax (nrows k) (attn_logits q k sc bias b i) j.
Proof.
  intros Hk. unfold attn_weights.
  apply (@vsoftmax_sub_eq
           (fmax_upto (nrows k - 1) (attn_logits q k sc bias b i))
           (nrows k) (attn_logits q k sc bias b i) j Hk).
Qed.

Lemma fsum_R_abs_le n (f g : nat -> R) :
  (forall t, (t < n)%nat -> Rabs (f t) <= g t) ->
  Rabs (fsum n f) <= fsum n g.
Proof.
  intros H. induction n as [|n IH]; simpl.
  - rewrite Rabs_R0. lra.
  - eapply Rle_trans; [apply Rabs_triang|].
    apply Rplus_le_compat; [apply IH; intros; apply H; lia|apply H; lia].
Qed.

Lemma fsum_R_sq_ge_term n (g : nat -> R) i :
  (i < n)%nat -> g i * g i <= fsum n (fun t => g t * g t).
Proof.
  intros Hi.
  apply (@fsum_R_ge_term n (fun t => g t * g t) i); [|exact Hi].
  intros t. nra.
Qed.

(** Every entry of a normalised vector of [n] features has magnitude at
    most [sqrt n]. *)
Lemma normalize_abs_le n (x : nat -> R) i :
  (i < n)%nat -> Rabs (normalize n x i) <= sqrt (INR n).
Proof.
  intros Hi. unfold normalize. simpl.
  set (mu := fsum n x / INR n).
  set (S := fsum n (fun t => (x t - mu) * (x t - mu))).
  assert (Hn : 0 < INR n) by (apply lt_0_INR; lia).
  assert (HS : (x i - mu) * (x i - mu) <= S).
  { apply (@fsum_R_sq_ge_term n (fun t => x t - mu) i Hi). }
  assert (HS0 : 0 <= S).
  { pose proof (Rle_0_sqr (x i - mu)) as H0. unfold Rsqr in H0. lra. }
  assert (Hv : 0 <= S / INR n).
  { apply Rmult_le_pos; [lra|]. left. now apply Rinv_0_lt_compat. }
  set (s := sqrt (S / INR n + 1 / 100000)).
  assert (Hs : 0 < s) by (apply sqrt_lt_R0; lra).
  unfold Rdiv at 1. rewrite Rabs_mult, Rabs_inv, (Rabs_right s) by lra.
  apply (Rmult_le_reg_r s); [exact Hs|].
  rewrite Rmult_assoc, Rinv_l, Rmult_1_r by lra.
  unfold s. rewrite <- sqrt_mult by lra.
  rewrite <- sqrt_Rsqr_abs. apply sqrt_le_1_alt. unfold Rsqr.
  replace (INR n * (S / INR n + 1 / 100000))
    with (S + INR n * (1 / 100000)) by (field; lra).
  lra.
Qed.

Lemma proj_abs_le n (x w : nat -> R) b :
  (forall a, (a < n)%nat -> Rabs (x a) <= sqrt (INR n)) ->
  Rabs (fsum n (fun a => x a * w a) + b) <= proj_bound n w b.
Proof.
  intros Hx. unfold proj_bound.
  eapply Rle_trans; [apply Rabs_triang|].
  apply Rplus_le_compat_r.
  eapply Rle_trans.
  - apply (@fsum_R_abs_le n _ (fun a => Rabs (w a) * sqrt (INR n))).
    intros a Ha. rewrite Rabs_mult, Rmult_comm.
    apply Rmult_le_compat_l; [apply Rabs_pos|]. apply Hx, Ha.
  - rewrite fsum_R_scale. lra.
Qed.

Lemma fpow_neg_half_pos c : 0 < fpow_neg_half (F := R) c.
Proof. simpl. unfold Rpower. apply exp_pos. Qed.

(** The logits of two keys, before the mask bias is added, are at most
    [logit_gap_bound] apart, whatever the input is. *)
Lemma unmasked_logit_gap (self : Shape.AttentionWEdgeBias.t)
    (P : AttentionWEdgeBias_params)
    (node_repr : nat -> nat -> R) (edge_repr : nat -> nat -> nat -> R)
    (h q p u : nat) :
  unmasked_logit self P node_repr edge_repr h q p
  - unmasked_logit self P node_repr edge_repr h q u
  <= logit_gap_bound self P h.
Proof.
  set (att := Shape.AttentionWEdgeBias.attention self).
  set (A := node_attention P).
  set (inputs := fun (_ : unit) i a (_ : nat) =>
                   node_normalized self node_repr i a).
  set (T := fsum (Shape.Attention.c att)
          (fun e =>
             proj_bound (Shape.AttentionWEdgeBias.d_node self)
               (fun a => qg_weights A a 0 h e) (qg_bias A 0 h 0 e)
             * fpow_neg_half (Shape.Attention.c att)
             * proj_bound (Shape.AttentionWEdgeBias.d_node self)
                 (fun a => kv_weights A a 0 h e) (kv_bias A 0 h 0 e))
        + sqrt (INR (Shape.AttentionWEdgeBias.d_edge self))
          * fsum (Shape.AttentionWEdgeBias.d_edge self)
              (fun e => Rabs (proj_weight P h e))).
  assert (HT : forall k,
            Rabs (unmasked_logit self P node_repr edge_repr h q k
                  - proj_bias P h) <= T).
  { intros k. unfold unmasked_logit, edge_bias. fold att A inputs.
    cbn [fadd fmul Scalar_R].
    match goal with
    | |- Rabs (?a + (?b + ?c) - ?c) <= _ =>
        replace (a + (b + c) - c) with (a + (b + 0)) by ring
    end.
    eapply Rle_trans; [apply Rabs_triang|]. unfold T.
    apply Rplus_le_compat.
    - apply fsum_R_abs_le. intros e He.
      rewrite !Rabs_mult.
      rewrite (Rabs_right (fpow_neg_half _))
        by (left; apply fpow_neg_half_pos).
      pose proof (fpow_neg_half_pos (Shape.Attention.c att)) as Hsc.
      assert (HQ : Rabs (qg att A inputs tt 0 h q e)
                   <= proj_bound (Shape.AttentionWEdgeBias.d_node self)
                        (fun a => qg_weights A a 0 h e) (qg_bias A 0 h 0 e)).
      { unfold qg. apply proj_abs_le. intros a Ha.
        apply normalize_abs_le, Ha. }
      assert (HK : Rabs (kv att A inputs tt 0 h k e)
                   <= proj_bound (Shape.AttentionWEdgeBias.d_node self)
                        (fun a => kv_weights A a 0 h e) (kv_bias A 0 h 0 e)).
      { unfold kv. apply proj_abs_le. intros a Ha.
        apply normalize_abs_le, Ha. }
      apply Rmult_le_compat; try assumption.
      + apply Rmult_le_pos; [apply Rabs_pos|lra].
      + apply Rabs_pos.
      + apply Rmult_le_compat_r; [lra|assumption].
    - pose proof (@proj_abs_le (Shape.AttentionWEdgeBias.d_edge self)
                    (edge_normalized self edge_repr q k)
                    (proj_weight P h) 0
                    (fun a Ha => @normalize_abs_le _ _ a Ha)) as HE.
      unfold proj_bound in HE. rewrite Rabs_R0 in HE.
      eapply Rle_trans; [exact HE|lra]. }
  pose proof (HT p) as Hp. pose proof (HT u) as Hu.
  pose proof (Rle_abs (unmasked_logit self P node_repr edge_repr h q p
                       - proj_bias P h)) as Hp'.
  pose proof (Rle_abs (- (unmasked_logit self P node_repr edge_repr h q u
                          - proj_bias P h))) as Hu'.
  rewrite Rabs_Ropp in Hu'.
  unfold logit_gap_bound. fold att A T. lra.
Qed.

Lemma exp_le_mono a b : a <= b -> exp a <= exp b.
Proof.
  intros [H| ->]; [left; now apply exp_increasing|right; reflexivity].
Qed.

(** C8. Masking in [AttentionWEdgeBias.forward], over the reals.  For every
    input (node features, edge features, and a mask that is 0 at key [p]
    and 1 at some key [u]), the call returns, and the attention weight of
    the masked key [p] is, for every query and every head [h], at least 0
    and at most [exp (G - 1e9)]: [G = logit_gap_bound self P h] depends on
    the parameters of the module only, not on the input, because the node
    and edge features are normalised before they are projected.  For
    parameters of ordinary size [G] is tiny beside [1e9], and the weight is
    0 to every precision. *)
Theorem masked_key_weight_bound (self : Shape.AttentionWEdgeBias.t)
    (P : AttentionWEdgeBias_params) (L : nat)
    (node_repr : nat -> nat -> R) (edge_repr : nat -> nat -> nat -> R)
    (mask : nat -> R) junk fwd_cfg (p u : nat) :
  Shape.AttentionWEdgeBias.d_node self <> 1%nat ->
  Shape.AttentionWEdgeBias.attn_c self <> 0%nat ->
  cfg_ok fwd_cfg ->
  (p < L)%nat -> (u < L)%nat -> mask p = 0 -> mask u = 1 ->
  exists out w,
    AttentionWEdgeBias_attention self P L node_repr edge_repr mask junk fwd_cfg
      = Some (out, w) /\
    forall q h, (q < L)%nat ->
      0 <= w q p h <= exp (logit_gap_bound self P h - 1000000000).
Proof.
  intros Hdn Hc Hcfg Hp Hu Hmp Hmu.
  unfold AttentionWEdgeBias_attention.
  destruct (Shape.AttentionWEdgeBias.d_node self =? 1)%nat eqn:E;
    [apply Nat.eqb_eq in E; contradiction|]. cbv [obind guard negb].
  destruct (@Attention_forward_returns R Scalar_R unit
              (Shape.AttentionWEdgeBias.attention self) (node_attention P)
              L L
              (fun _ q a _ => node_normalized self node_repr q a)
              (fun _ k a _ => node_normalized self node_repr k a)
              (fun _ _ h q k => node_bias self P edge_repr mask h q k)
              junk fwd_cfg Hc ltac:(lia) Hcfg)
    as (ao & output & logits & Ef & _ & _ & HW).
  rewrite Ef. eexists _, _. split; [reflexivity|].
  intros q h Hq. rewrite HW by assumption.
  rewrite attn_weights_R by (simpl; lia).
  split; [left; apply vsoftmax_pos; simpl; lia|].
  eapply Rle_trans; [apply (@vsoftmax_le _ _ p u); simpl; lia|].
  apply exp_le_mono.
  pose proof (@unmasked_logit_gap self P node_repr edge_repr h q p u) as HG.
  eapply Rle_trans; [|apply Rplus_le_compat_r; exact HG].
  apply Req_le.
  unfold attn_logits, unmasked_logit. simpl.
  rewrite !bidx_lt by assumption.
  unfold node_bias, mask2bias. simpl. rewrite Hmp, Hmu. ring.
Qed.

(** *** A masked key with a dominant weight *)

#[local] Arguments Value.normalize : simpl never.

Lemma fsum_R_zero n (g : nat -> R) :
  (forall t, (t < n)%nat -> g t = 0) -> fsum n g = 0.
Proof.
  intros Hg. induction n as [|n IH]; simpl; [reflexivity|].
  rewrite IH, Hg by (intros; try apply Hg; lia). lra.
Qed.

Lemma vsoftmax2_ge_half (f : nat -> R) :
  f 0%nat <= f 1%nat -> 1 / 2 <= vsoftmax 2 f 1.
Proof.
  intros Hf. unfold vsoftmax. simpl.
  pose proof (exp_pos (f 0%nat)) as H0. pose proof (exp_pos (f 1%nat)) as H1.
  assert (Hle : exp (f 0%nat) <= exp (f 1%nat)).
  { destruct Hf as [Hlt|Heq];
      [left; apply exp_increasing, Hlt|right; now rewrite Heq]. }
  apply Rmult_le_reg_r with (r := (0 + exp (f 0%nat) + exp (f 1%nat)));
    [lra|].
  replace (exp (f 1%nat) / (0 + exp (f 0%nat) + exp (f 1%nat))
           * (0 + exp (f 0%nat) + exp (f 1%nat)))
    with (exp (f 1%nat)) by (field; lra).
  lra.
Qed.

Lemma sqrt_one_eps_bounds : 0 < sqrt (1 + 1 / 100000) <= 2.
Proof.
  split.
  - apply sqrt_lt_R0. lra.
  - replace 2 with (sqrt 4).
    + apply sqrt_le_1; lra.
    + replace 4 with (2 * 2) by lra. apply sqrt_square. lra.
Qed.

(** The normalisation of the feature vector [(1, -1)] and of [(0, 0)]. *)
Lemma normalize_pm_one (x : nat -> R) :
  x 0%nat = 1 -> x 1%nat = -1 ->
  normalize 2 x 0 = 1 / sqrt (1 + 1 / 100000).
Proof.
  intros H0 H1. unfold normalize. simpl. rewrite H0, H1.
  assert (Hm : (0 + 1 + -1) / (1 + 1) = 0) by (unfold Rdiv; ring).
  rewrite Hm.
  assert (Hv : (0 + (1 - 0) * (1 - 0) + (-1 - 0) * (-1 - 0)) / (1 + 1)
               + 1 / 100000 = 1 + 1 / 100000) by field.
  rewrite Hv. f_equal. ring.
Qed.

Lemma normalize_zero (x : nat -> R) i :
  x 0%nat = 0 -> x 1%nat = 0 -> (i < 2)%nat -> normalize 2 x i = 0.
Proof.
  intros H0 H1 Hi. unfold normalize. simpl. rewrite H0, H1.
  assert (Hx : x i = 0)
    by (destruct i as [|[|i]]; [assumption|assumption|lia]).
  rewrite Hx. unfold Rdiv. ring.
Qed.

(** With zero query and key projections the logits are the bias. *)
Lemma attn_logits_zero_qg {Ib} (self : Shape.Attention.t)
    (P : Attention_params) L (inputs : Ib -> nat -> nat -> nat -> R)
    (bias : Ib -> nat -> nat -> nat -> nat -> R) sc b r h i j :
  (forall a r h c, qg_weights P a r h c = 0) ->
  (forall r h c, qg_bias P r h 0%nat c = 0) ->
  (i < L)%nat -> (j < L)%nat ->
  attn_logits (query self P L inputs) (key self P L inputs) sc
    (bias_arg L L bias) (b, r, h) i j
  = bias b r h i j.
Proof.
  intros Hw Hb Hi Hj. unfold attn_logits. simpl.
  rewrite !bidx_lt by assumption.
  rewrite fsum_R_zero; [lra|].
  intros e _. unfold qg. simpl. rewrite Hb.
  rewrite fsum_R_zero; [ring|]. intros a _. rewrite Hw. ring.
Qed.

(** The bound on the weight of a masked key grows with the parameters.  In
    a module whose edge projection has a weight of [4e9], position 1 is
    masked, position 0 is not, and the masked key still receives at least
    half of the attention of query 0: the projected edge bias
    [4e9 / sqrt(1.00001)] outweighs the mask bias [-1e9]. *)
Lemma masked_key_weight_not_small :
  exists out w,
    AttentionWEdgeBias_attention awb_self awb_params 2 awb_node awb_edge
      awb_mask (fun _ _ _ => 0) None = Some (out, w) /\
    awb_mask 1 = 0 /\ awb_mask 0 = 1 /\ 1 / 2 <= w 0%nat 1%nat 0%nat.
Proof.
  unfold AttentionWEdgeBias_attention.
  destruct (@Attention_forward_returns R Scalar_R unit
              (Shape.AttentionWEdgeBias.attention awb_self) zero_attention
              2 2
              (fun _ q a _ => node_normalized awb_self awb_node q a)
              (fun _ k a _ => node_normalized awb_self awb_node k a)
              (fun _ _ h q k =>
                 node_bias awb_self awb_params awb_edge awb_mask h q k)
              (fun _ _ _ => 0) None ltac:(simpl; lia) ltac:(lia) Logic.I)
    as (ao & output & logits & Ef & _ & _ & HW).
  change (node_attention awb_params) with zero_attention.
  cbv [obind guard negb awb_self Shape.AttentionWEdgeBias.d_node Nat.eqb].
  fold awb_self. rewrite Ef. eexists _, _. split; [reflexivity|].
  split; [reflexivity|]. split; [reflexivity|].
  rewrite HW by lia. rewrite attn_weights_R by (simpl; lia).
  apply vsoftmax2_ge_half.
  rewrite !attn_logits_zero_qg by (reflexivity || lia).
  unfold node_bias, edge_bias, edge_normalized, mask2bias. simpl.
  rewrite !(@normalize_zero (awb_edge 0 0)) by (reflexivity || lia).
  rewrite (@normalize_pm_one (awb_edge 0 1)) by reflexivity.
  pose proof sqrt_one_eps_bounds as [Hs1 Hs2].
  set (s := sqrt (1 + 1 / 100000)) in *.
  assert (Hinv : 1 / 2 <= 1 / s).
  { unfold Rdiv. rewrite !Rmult_1_l. apply Rinv_le_contravar; lra. }
  set (n1 := normalize 2 (awb_edge 0 1) 1).
  unfold awb_mask. simpl. lra.
Qed.

Lemma sigmoid_arg_zero z : z = 0 -> 1 / (1 + exp (- z)) = 1 / 2.
Proof. intros ->. rewrite Ropp_0, exp_0. lra. Qed.

Lemma attn_output_two {I} (q k v bias : bmat I R) sc b i d :
  nrows k = 2%nat ->
  attn_output q k sc v bias b i d =
  0 + attn_weights q k sc bias b i 0 * at_ v b 0 d
    + attn_weights q k sc bias b i 1 * at_ v b 1 d.
Proof. intros H. unfold attn_output. rewrite H. reflexivity. Qed.

Lemma ga_weights_pos E i q k : 0 < ga_weights E i q k.
Proof.
  unfold ga_weights. rewrite attn_weights_R by (simpl; lia).
  apply vsoftmax_pos. simpl. lia.
Qed.

(** The first output channel of the concrete module [ga_self]: half the
    attention-weighted first normalised feature along the row. *)
Lemma ga_forward_value (E : nat -> nat -> nat -> R) junk :
  exists out,
    GeometricAttention_forward ga_self ga_params 2 E ga_mask junk = Some out /\
    forall i j, (i < 2)%nat -> (j < 2)%nat ->
        out i j 0%nat =
        (ga_weights E i j 0 * normalize 2 (E i 0%nat) 0
         + ga_weights E i j 1 * normalize 2 (E i 1%nat) 0) * (1 / 2).
Proof.
  destruct (@Attention_forward_returns R Scalar_R nat
              (Shape.GeometricAttention.attention ga_self) ga_attention
              2 2 (edge_stacked ga_self E) (edge_stacked ga_self E)
              (fun _ r h q k => pair_bias ga_self ga_params E ga_mask r h q k)
              junk None ltac:(simpl; lia) ltac:(lia) Logic.I)
    as (ao & output & logits & Ef & Ho & HO & _).
  unfold GeometricAttention_forward, attended.
  change (edge_attention ga_params) with ga_attention.
  rewrite Ef. cbv [obind guard ga_self Shape.GeometricAttention.n_axis Nat.eqb].
  fold ga_self.
  eexists. split; [reflexivity|].
  intros i j Hi Hj.
  unfold tadd, track_of_gated, track_of_attended, transpose_pair.
  rewrite Ho.
  unfold project_out, gated_out, gated, outer_proj. simpl.
  rewrite !HO by (simpl; lia).
  rewrite !attn_output_two by reflexivity.
  fold (ga_weights E i j 0%nat) (ga_weights E i j 1%nat).
  generalize (ga_weights E i j 0%nat) (ga_weights E i j 1%nat). intros w0 w1.
  repeat match goal with
  | |- context [attn_weights ?a ?b ?c ?d ?e ?f ?g] =>
      generalize (attn_weights a b c d e f g); intro
  end.
  simpl.
  rewrite !sigmoid_arg_zero by ring.
  ring.
Qed.

(** C5 (as stated) fails: the edge tensor [ga_edge] is its own transpose,
    only track 0 of the module attends, and entry [(0, 1)] of the output
    for the transposed edges is not entry [(1, 0)] of the output for the
    edges: row 0 holds the non-zero edge, row 1 does not. *)
Lemma GeometricAttention_not_transpose_symmetric :
  exists out outT,
    GeometricAttention_forward ga_self ga_params 2 ga_edge ga_mask
      (fun _ _ _ => 0) = Some out /\
    GeometricAttention_forward ga_self ga_params 2 (transpose_edges ga_edge)
      ga_mask (fun _ _ _ => 0) = Some outT /\
    outT 0%nat 1%nat 0%nat <> out 1%nat 0%nat 0%nat.
Proof.
  destruct (ga_forward_value ga_edge (fun _ _ _ => 0)) as (out & Eo & Ho).
  destruct (ga_forward_value (transpose_edges ga_edge) (fun _ _ _ => 0))
    as (outT & EoT & HoT).
  exists out, outT. split; [exact Eo|]. split; [exact EoT|].
  rewrite Ho, HoT by lia.
  rewrite !(@normalize_zero (ga_edge 1 0)) by (reflexivity || lia).
  rewrite ?(@normalize_zero (ga_edge 1 1)) by (reflexivity || lia).
  rewrite ?(@normalize_zero (transpose_edges ga_edge 0 1))
    by (reflexivity || lia).
  rewrite (@normalize_pm_one (transpose_edges ga_edge 0 0)) by reflexivity.
  pose proof (ga_weights_pos (transpose_edges ga_edge) 0 1 0) as Hw.
  pose proof sqrt_one_eps_bounds as [Hs1 Hs2].
  set (s := sqrt (1 + 1 / 100000)) in *.
  set (w := ga_weights (transpose_edges ga_edge) 0 1 0) in *.
  assert (Hinv : 0 < 1 / s) by (apply Rdiv_lt_0_compat; lra).
  assert (Hp : 0 < w * (1 / s)) by (apply Rmult_lt_0_compat; assumption).
  generalize (ga_weights (transpose_edges ga_edge) 0 1 1). intros w1.
  generalize (ga_weights ga_edge 1 0 0) (ga_weights ga_edge 1 0 1).
  intros v0 v1. lra.
Qed.

End ValueReal.

(** *** Concrete calls *)

Lemma attention_chunk_invariance_witness :
  result_eq (attention no_junk q_ex k_ex 1%R v_ex b_ex (Some 2%Z))
            (attention no_junk q_ex k_ex 1%R v_ex b_ex (Some 3%Z)) /\
  (well_shaped q_ex k_ex v_ex b_ex ->
   attention no_junk q_ex k_ex 1%R v_ex b_ex (Some 2%Z) <> None).
Proof.
  apply (@attention_chunk_invariance unit R Scalar_R no_junk no_junk
           q_ex k_ex v_ex b_ex 1%R 2%Z).
  - right. reflexivity.
  - lia.
Defined.

Lemma attention_nonpositive_chunk_witness :
  attention no_junk q_ex k_ex 1%R v_ex b_ex (Some (-1)%Z) = None.
Proof.
  apply (@attention_nonpositive_chunk unit R Scalar_R no_junk
           q_ex k_ex v_ex b_ex 1%R (-1)%Z).
  lia.
Defined.

Lemma well_shaped_ex : well_shaped q_ex k_ex v_ex b_ex.
Proof.
  repeat split; simpl; try lia. right. reflexivity.
Qed.

(** C2 (as stated) fails: with chunk size 0 the call does not raise, it
    returns what the call without a chunk size returns. *)
Lemma attention_chunk_zero_returns :
  attention no_junk q_ex k_ex 1%R v_ex b_ex (Some 0%Z) <> None /\
  attention no_junk q_ex k_ex 1%R v_ex b_ex (Some 0%Z)
  = attention no_junk q_ex k_ex 1%R v_ex b_ex None.
Proof.
  split; [|reflexivity].
  pose proof (@attention_default_chunk unit R Scalar_R no_junk
                q_ex k_ex v_ex b_ex 1%R (Some 0%Z)
                ltac:(right; reflexivity) ltac:(right; reflexivity)) as H.
  destruct (@well_shaped_reference unit R Scalar_R q_ex k_ex v_ex b_ex 1%R
              well_shaped_ex) as (Out & W & E & Hw).
  unfold run_matches in H. rewrite E in H.
  apply Nat.eqb_eq in Hw. rewrite Hw in H.
  destruct H as (st & -> & _). discriminate.
Qed.

Lemma softmax_in_place_equiv_witness :
  exists y1 y2,
    softmax q_ex (-1) true = Some y1 /\ softmax q_ex (-1) false = Some y2 /\
    bmat_eq y1 y2.
Proof.
  apply (@softmax_in_place_equiv unit q_ex (-1)%Z Cols).
  - reflexivity.
  - simpl. lia.
Defined.

Lemma softmax_correct_witness :
  exists y, softmax q_ex (-2) true = Some y /\
    nrows y = nrows q_ex /\ ncols y = ncols q_ex /\
    (forall b i j, i < nrows q_ex -> j < ncols q_ex ->
       (0 <= at_ y b i j)%R) /\
    (forall b i j, i < nrows q_ex -> j < ncols q_ex ->
       axis_sum Rows y b i j = 1%R) /\
    (forall cst x', shifted_along Rows cst q_ex x' ->
       exists y', softmax x' (-2) true = Some y' /\ bmat_eq y' y).
Proof.
  apply (@softmax_correct unit q_ex (-2)%Z Rows true).
  - reflexivity.
  - simpl. lia.
Defined.

(** *** Concrete calls of the modules, on shapes *)

Lemma Attention_forward_track_axis_witness :
  (Shape.Attention.n_axis (Shape.Attention.Make 3 3 2 true 4 5 1) = 1 ->
   Shape.Attention.q_dim (Shape.Attention.Make 3 3 2 true 4 5 1) <> 1 ->
   Shape.Attention.forward (Shape.Attention.Make 3 3 2 true 4 5 1)
     (Shape.of_dims ([7] ++ [4; 3])) (Shape.of_dims ([7] ++ [6; 3]))
     (Some (Shape.of_dims ([7] ++ [2; 4; 6]))) None
   = Some (Shape.of_dims ([7] ++ [4; 5]), Shape.of_dims ([7] ++ [4; 6; 2]))) /\
  Shape.Attention.forward (Shape.Attention.Make 3 3 2 true 4 5 1)
    (Shape.of_dims ([7] ++ [4; 3; 1])) (Shape.of_dims ([7] ++ [6; 3; 1]))
    (Some (Shape.of_dims ([7] ++ [1; 2; 4; 6]))) None
  = Some (Shape.of_dims ([7] ++ [4; 5; 1]),
          Shape.of_dims ([7] ++ [1; 4; 6; 2])).
Proof.
  apply (@Attention_forward_track_axis (Shape.Attention.Make 3 3 2 true 4 5 1)
           [7] 4 6 None).
  - simpl. lia.
  - lia.
  - exact Logic.I.
Defined.

(** C9 (as stated) fails: a module with two tracks given plain inputs
    inserts the track axis, broadcasts it to both tracks, and returns it in
    the output [(4, 5, 2)] and in the weights [(2, 4, 4, 1)]. *)
Lemma Attention_forward_plain_two_tracks :
  Shape.Attention.forward (Shape.Attention.Make 3 3 1 false 2 5 2)
    (Shape.of_dims [4; 3]) (Shape.of_dims [4; 3])
    (Some (Shape.of_dims [1; 4; 4])) None
  = Some (Shape.of_dims [4; 5; 2], Shape.of_dims [2; 4; 4; 1]) /\
  Shape.of_dims [4; 5; 2] <> Shape.of_dims [4; 5].
Proof. split; [vm_compute; reflexivity|discriminate]. Qed.

Lemma AttentionWEdgeBias_forward_shape_witness :
  Shape.AttentionWEdgeBias.forward (Shape.AttentionWEdgeBias.Make 4 5 2 true 3)
    (Shape.of_dims [2; 3; 4]) (Shape.of_dims [3; 3; 5])
    (Shape.of_dims [2; 3]) (Some (Some 2%Z))
  = Some (Shape.of_dims [2; 3; 4]).
Proof.
  apply (@AttentionWEdgeBias_forward_shape
           (Shape.AttentionWEdgeBias.Make 4 5 2 true 3) [2] [2] 3
           (Some (Some 2%Z))).
  - lia.
  - simpl. lia.
  - simpl. lia.
  - simpl. lia.
  - reflexivity.
Defined.

(** C3 (as stated) fails: with the batch axis on all three inputs, node
    features [(2, 3, 4)], edge features [(2, 3, 3, 5)] and mask [(2, 3)],
    the call raises (the three-axis [permute(2, 0, 1)] meets the four-axis
    edge tensor). *)
Lemma AttentionWEdgeBias_forward_batched_raises :
  Shape.AttentionWEdgeBias.forward (Shape.AttentionWEdgeBias.Make 4 5 2 true 3)
    (Shape.of_dims [2; 3; 4]) (Shape.of_dims [2; 3; 3; 5])
    (Shape.of_dims [2; 3]) None
  = None.
Proof. vm_compute. reflexivity. Qed.

(** *** Concrete calls of the modules, on values *)

Lemma GeometricAttention_forward_fusion_witness :
  exists att out,
    Value.attended ga_self ga_params 2 ga_edge ga_mask (fun _ _ _ => 0%R)
      = Some att /\
    Value.GeometricAttention_forward ga_self ga_params 2 ga_edge ga_mask
      (fun _ _ _ => 0%R) = Some out /\
    forall i j c,
      out i j c =
      (Value.gated ga_self ga_params 2 ga_edge ga_mask i j 0%nat c
       + Value.gated ga_self ga_params 2 ga_edge ga_mask i j 1%nat c
       + (att i j c 0%nat + att j i c 1%nat))%R.
Proof.
  apply (@GeometricAttention_forward_fusion R Scalar_R ga_self ga_params 2
           ga_edge ga_mask (fun _ _ _ => 0%R)).
  - reflexivity.
  - simpl. lia.
  - lia.
Defined.

Lemma GeometricAttention_forward_track_exchange_witness :
  exists att out',
    Value.attended ga_self ga_params 2 ga_edge ga_mask (fun _ _ _ => 0%R)
      = Some att /\
    Value.GeometricAttention_forward ga_self (swap_tracks ga_params) 2
      (transpose_edges ga_edge) ga_mask (fun _ _ _ => 1%R) = Some out' /\
    forall i j c, i < 2 -> j < 2 ->
      out' i j c =
      (Value.gated ga_self ga_params 2 ga_edge ga_mask i j 1%nat c
       + Value.gated ga_self ga_params 2 ga_edge ga_mask i j 0%nat c
       + (att i j c 1%nat + att j i c 0%nat))%R.
Proof.
  apply (@GeometricAttention_forward_track_exchange R Scalar_R ga_self
           ga_params 2 ga_edge ga_mask (fun _ _ _ => 0%R) (fun _ _ _ => 1%R)).
  - reflexivity.
  - simpl. lia.
  - lia.
Defined.

Lemma masked_key_weight_bound_witness :
  exists out w,
    Value.AttentionWEdgeBias_attention awb_self awb_params_unit 2 awb_node
      awb_edge awb_mask (fun _ _ _ => 0%R) None = Some (out, w) /\
    forall q h, q < 2 ->
      (0 <= w q 1%nat h
       <= exp (logit_gap_bound awb_self awb_params_unit h - 1000000000))%R.
Proof.
  apply (@masked_key_weight_bound awb_self awb_params_unit 2 awb_node
           awb_edge awb_mask (fun _ _ _ => 0%R) None 1 0).
  - simpl. lia.
  - simpl. lia.
  - exact Logic.I.
  - lia.
  - lia.
  - reflexivity.
  - reflexivity.
Defined.

(** With the unit edge projection the bound on the weight of a masked key
    is at most [exp (6 - 1e9)]. *)
Lemma logit_gap_bound_unit h :
  (logit_gap_bound awb_self awb_params_unit h <= 6)%R.
Proof.
  unfold logit_gap_bound, proj_bound. simpl.
  rewrite !Rabs_R0, !Rabs_R1.
  assert (H2 : (sqrt (1 + 1) <= 3 / 2)%R).
  { rewrite <- (sqrt_square (3 / 2)) by lra. apply sqrt_le_1_alt. lra. }
  assert (H0 : (sqrt 1 = 1)%R) by apply sqrt_1.
  pose proof (Rlt_le _ _ (exp_pos 0)) as He.
  unfold Rpower. lra.
Qed.

(* ================================================================== *)
(** * Further properties of the code *)
(* ================================================================== *)

(** ** Further properties of the attention primitive *)

Section AttentionEdge.

Context {I F : Type} {SF : Scalar F}.

Local Abbreviation tensor := (bmat I F).

(** X1. On an empty axis the two modes of [softmax] part ways: the in-place
    branch raises ([torch.max] rejects an empty reduction), the other one
    returns the (empty) tensor of the same shape. *)
Theorem softmax_empty_axis (x : tensor) (dim : Z) (a : axis) :
  axis_of_dim dim = Some a -> axis_size a x = 0 ->
  softmax x dim true = None /\
  exists y, softmax x dim false = Some y /\
            nrows y = nrows x /\ ncols y = ncols x.
Proof.
  intros Ha H0. unfold softmax. rewrite Ha. simpl. split.
  - destruct a; simpl in *; rewrite H0; reflexivity.
  - eexists. split; [reflexivity|]. split; reflexivity.
Qed.

Lemma _attention_no_keys (q k v bias : tensor) sc :
  nrows k = 0 -> _attention q k sc v bias = None.
Proof.
  intros Hk. unfold _attention, einsum_id_jd.
  destruct (bdim (ncols (mul_scalar q sc)) (ncols k)) as [d|]; [|reflexivity].
  simpl obind. unfold broadcast2. simpl nrows. simpl ncols.
  destruct (bdim (nrows q) (nrows bias)) as [r|]; [|reflexivity]. simpl obind.
  rewrite Hk.
  destruct (bdim 0 (ncols bias)) as [c|] eqn:Ec; [|reflexivity]. simpl obind.
  assert (c = 0).
  { unfold bdim in Ec. destruct (ncols bias) as [|[|n]]; simpl in Ec;
      congruence. }
  subst c. reflexivity.
Qed.

(** X2. Without keys there is nothing to attend to: when the key tensor
    has no rows, [attention] raises for every query, value, bias and chunk
    size (the row maximum of the softmax has nothing to reduce). *)
Theorem attention_no_keys junk (query key value bias : tensor) (scale : F)
    (subbatch_size : option Z) :
  nrows key = 0 ->
  attention junk query key scale value bias subbatch_size = None.
Proof.
  intros Hk. unfold attention, torch_split.
  destruct (split_bounds (nrows query) (py_or subbatch_size (nrows query)))
    as [bounds|] eqn:Eb; [|reflexivity].
  simpl obind.
  assert (Hne : bounds <> []).
  { unfold split_bounds in Eb.
    destruct (py_or subbatch_size (nrows query) <? 0)%Z; [discriminate|].
    destruct (py_or subbatch_size (nrows query) =? 0)%Z.
    - destruct (nrows query =? 0); [|discriminate].
      injection Eb as <-. discriminate.
    - injection Eb as <-.
      set (N := Nat.max _ 1). assert (1 <= N) by (unfold N; lia).
      destruct N; [lia|]. discriminate. }
  destruct bounds as [|sl bounds]; [contradiction|].
  unfold enumerate. simpl. unfold attention_step at 1.
  rewrite _attention_no_keys by exact Hk. reflexivity.
Qed.

End AttentionEdge.

Lemma softmax_empty_axis_witness :
  softmax (mat_of_rows 2 0 []) (-1) true = None /\
  exists y, softmax (mat_of_rows 2 0 []) (-1) false = Some y /\
            nrows y = nrows (mat_of_rows 2 0 []) /\
            ncols y = ncols (mat_of_rows 2 0 []).
Proof.
  apply (@softmax_empty_axis unit R Scalar_R (mat_of_rows 2 0 []) (-1)%Z Cols).
  - reflexivity.
  - reflexivity.
Defined.

Lemma attention_no_keys_witness :
  attention no_junk q_ex (mat_of_rows 0 2 []) 1%R (mat_of_rows 0 1 []) b_ex
    (Some 2%Z) = None.
Proof.
  apply (@attention_no_keys unit R Scalar_R no_junk q_ex (mat_of_rows 0 2 [])
           (mat_of_rows 0 1 []) b_ex 1%R (Some 2%Z)).
  reflexivity.
Defined.

Section AttentionReal.

Context {I : Type}.

Local Open Scope R_scope.

Lemma fsum_R_plus n (f g : nat -> R) :
  fsum n (fun t => f t + g t) = fsum n f + fsum n g.
Proof. induction n as [|n IH]; simpl; [ring|]. rewrite IH. ring. Qed.

Lemma fsum_R_nonneg n (f : nat -> R) :
  (forall t, (t < n)%nat -> 0 <= f t) -> 0 <= fsum n f.
Proof.
  induction n as [|n IH]; simpl; intros H; [lra|].
  specialize (IH ltac:(intros; apply H; lia)).
  specialize (H n ltac:(lia)). lra.
Qed.

(** A weighted mean with positive weights that sum to one lies between the
    bounds of what it averages. *)
Lemma weighted_mean_bounds n (w v : nat -> R) lo hi :
  (forall t, 0 < w t) -> fsum n w = 1 ->
  (forall t, (t < n)%nat -> lo <= v t <= hi) ->
  lo <= fsum n (fun t => w t * v t) <= hi.
Proof.
  intros Hw H1 Hv.
  assert (A : 0 <= fsum n (fun t => w t * (v t - lo))).
  { apply fsum_R_nonneg. intros t Ht. apply Rmult_le_pos.
    - apply Rlt_le, Hw.
    - specialize (Hv t Ht). lra. }
  assert (B : 0 <= fsum n (fun t => w t * (hi - v t))).
  { apply fsum_R_nonneg. intros t Ht. apply Rmult_le_pos.
    - apply Rlt_le, Hw.
    - specialize (Hv t Ht). lra. }
  assert (EA : fsum n (fun t => w t * (v t - lo))
               = fsum n (fun t => w t * v t) - fsum n w * lo).
  { rewrite <- fsum_R_scale.
    assert (E : fsum n (fun t => w t * v t)
                = fsum n (fun t => w t * (v t - lo) + w t * lo)).
    { apply fsum_ext. intros t _. simpl. ring. }
    rewrite E, fsum_R_plus. ring. }
  assert (EB : fsum n (fun t => w t * (hi - v t))
               = fsum n w * hi - fsum n (fun t => w t * v t)).
  { rewrite <- fsum_R_scale.
    assert (E : fsum n (fun t => w t * hi)
                = fsum n (fun t => w t * (hi - v t) + w t * v t)).
    { apply fsum_ext. intros t _. simpl. ring. }
    rewrite E, fsum_R_plus. ring. }
  rewrite H1 in EA, EB. lra.
Qed.

(** X3. The attention weights are a probability distribution over the
    keys: on well-shaped inputs and for every accepted chunk size,
    [attention] returns weights that are positive and sum to 1 along the key
    axis, for every query. *)
Theorem attention_weights_distribution junk
    (query key value bias : bmat I R) (scale : R) (subbatch_size : option Z) :
  well_shaped query key value bias -> chunk_size_ok subbatch_size ->
  exists out wts,
    attention junk query key scale value bias subbatch_size = Some (out, wts) /\
    ncols wts = nrows key /\
    forall b i, (i < nrows query)%nat ->
      fsum (ncols wts) (fun j => at_ wts b i j) = 1 /\
      forall j, (j < ncols wts)%nat -> 0 < at_ wts b i j.
Proof.
  intros Hws Hsub.
  destruct (@attention_closed_form I R Scalar_R junk query key value bias
              scale subbatch_size Hws Hsub)
    as (o & w & E & _ & _ & _ & Hwc & _ & HW).
  assert (Hk : (0 < nrows key)%nat) by apply Hws.
  exists o, w. split; [exact E|]. split; [exact Hwc|].
  intros b i Hi. rewrite Hwc. split.
  - rewrite (@fsum_ext R Scalar_R (nrows key) _
               (vsoftmax (nrows key) (attn_logits query key scale bias b i))).
    + apply vsoftmax_sum_one, Hk.
    + intros j Hj. rewrite HW by assumption. apply attn_weights_R, Hk.
  - intros j Hj. rewrite HW by assumption. rewrite attn_weights_R by exact Hk.
    apply vsoftmax_pos, Hk.
Qed.

(** X4. Every entry of the output is a weighted mean of one column of the
    values: when the entries of channel [d] of the values lie between [lo]
    and [hi] for a batch entry, so does channel [d] of the output for every
    query of that batch entry. *)
Theorem attention_output_within_values junk
    (query key value bias : bmat I R) (scale : R) (subbatch_size : option Z)
    (b : I) (d : nat) (lo hi : R) :
  well_shaped query key value bias -> chunk_size_ok subbatch_size ->
  (d < ncols value)%nat ->
  (forall j, (j < nrows value)%nat -> lo <= at_ value b j d <= hi) ->
  exists out wts,
    attention junk query key scale value bias subbatch_size = Some (out, wts) /\
    forall i, (i < nrows query)%nat -> lo <= at_ out b i d <= hi.
Proof.
  intros Hws Hsub Hd Hv.
  destruct (@attention_closed_form I R Scalar_R junk query key value bias
              scale subbatch_size Hws Hsub)
    as (o & w & E & _ & _ & _ & _ & HO & _).
  assert (Hk : (0 < nrows key)%nat) by apply Hws.
  assert (Hkv : nrows key = nrows value) by apply Hws.
  exists o, w. split; [exact E|]. intros i Hi.
  rewrite HO by assumption. unfold attn_output.
  rewrite (@fsum_ext R Scalar_R (nrows key) _
             (fun j => vsoftmax (nrows key)
                         (attn_logits query key scale bias b i) j
                       * at_ value b j d))
    by (intros j Hj; rewrite attn_weights_R by exact Hk; reflexivity).
  apply weighted_mean_bounds.
  - intros t. apply vsoftmax_pos, Hk.
  - apply vsoftmax_sum_one, Hk.
  - intros t Ht. apply Hv. lia.
Qed.

(** X5. A constant added to the bias along the key axis (one constant per
    batch entry and bias row) changes neither the output nor the weights:
    only differences between the logits of one query matter. *)
Theorem attention_bias_shift junk junk'
    (query key value bias bias' : bmat I R) (scale : R)
    (subbatch_size subbatch_size' : option Z) (cst : I -> nat -> R) :
  well_shaped query key value bias ->
  chunk_size_ok subbatch_size -> chunk_size_ok subbatch_size' ->
  shifted_along Cols cst bias bias' ->
  exists out wts out' wts',
    attention junk query key scale value bias subbatch_size
      = Some (out, wts) /\
    attention junk' query key scale value bias' subbatch_size'
      = Some (out', wts') /\
    bmat_eq out' out /\ bmat_eq wts' wts.
Proof.
  intros Hws Hsub Hsub' (Hr & Hc & Hsh).
  assert (Hws' : well_shaped query key value bias').
  { destruct Hws as (A & B & C & D & E). unfold well_shaped, bias_rows_ok.
    rewrite Hr, Hc. repeat split; assumption. }
  destruct (@attention_closed_form I R Scalar_R junk query key value bias
              scale subbatch_size Hws Hsub)
    as (o & w & E & A1 & A2 & A3 & A4 & HO & HW).
  destruct (@attention_closed_form I R Scalar_R junk' query key value bias'
              scale subbatch_size' Hws' Hsub')
    as (o' & w' & E' & A1' & A2' & A3' & A4' & HO' & HW').
  assert (Hk : (0 < nrows key)%nat) by apply Hws.
  assert (HWeq : forall b i j, (i < nrows query)%nat -> (j < nrows key)%nat ->
            attn_weights query key scale bias' b i j
            = attn_weights query key scale bias b i j).
  { intros b i j Hi Hj. rewrite !attn_weights_R by exact Hk.
    apply vsoftmax_shift with (c := cst b (bidx (nrows bias) i));
      [exact Hk| |exact Hj].
    intros u Hu. unfold attn_logits. rewrite Hr, Hc. simpl.
    rewrite Hsh.
    - ring.
    - destruct Hws as (_ & _ & _ & [Hb|Hb] & _); unfold bidx; rewrite Hb.
      + destruct (nrows query =? 1); lia.
      + simpl. lia.
    - destruct Hws as (_ & _ & _ & _ & [Hb|Hb]); unfold bidx; rewrite Hb.
      + destruct (nrows key =? 1); lia.
      + simpl. lia. }
  exists o, w, o', w'. split; [exact E|]. split; [exact E'|]. split.
  - split; [congruence|]. split; [congruence|].
    intros b i d Hi Hd. rewrite A1' in Hi. rewrite A2' in Hd.
    rewrite HO, HO' by assumption. unfold attn_output.
    apply fsum_ext. intros j Hj. rewrite HWeq by assumption.
    reflexivity.
  - split; [congruence|]. split; [congruence|].
    intros b i j Hi Hj. rewrite A3' in Hi. rewrite A4' in Hj.
    rewrite HW, HW' by assumption. apply HWeq; assumption.
Qed.

End AttentionReal.

Lemma attention_weights_distribution_witness :
  exists out wts,
    attention no_junk q_ex k_ex 1%R v_ex b_ex (Some 2%Z) = Some (out, wts) /\
    ncols wts = nrows k_ex /\
    forall b i, i < nrows q_ex ->
      fsum (ncols wts) (fun j => at_ wts b i j) = 1%R /\
      forall j, j < ncols wts -> (0 < at_ wts b i j)%R.
Proof.
  apply (@attention_weights_distribution unit no_junk q_ex k_ex v_ex b_ex 1%R
           (Some 2%Z)).
  - exact well_shaped_ex.
  - simpl. lia.
Defined.

Lemma attention_output_within_values_witness :
  exists out wts,
    attention no_junk q_ex k_ex 1%R v_ex b_ex (Some 2%Z) = Some (out, wts) /\
    forall i, i < nrows q_ex -> (5 <= at_ out tt i 0%nat <= 7)%R.
Proof.
  apply (@attention_output_within_values unit no_junk q_ex k_ex v_ex b_ex 1%R
           (Some 2%Z) tt 0 5%R 7%R).
  - exact well_shaped_ex.
  - simpl. lia.
  - simpl. lia.
  - intros j Hj. simpl in Hj.
    destruct j as [|[|j]]; [simpl; lra|simpl; lra|lia].
Defined.

Lemma attention_bias_shift_witness :
  exists out wts out' wts',
    attention no_junk q_ex k_ex 1%R v_ex b_ex (Some 2%Z) = Some (out, wts) /\
    attention no_junk q_ex k_ex 1%R v_ex b_ex_shifted None
      = Some (out', wts') /\
    bmat_eq out' out /\ bmat_eq wts' wts.
Proof.
  apply (@attention_bias_shift unit no_junk no_junk q_ex k_ex v_ex b_ex
           b_ex_shifted 1%R (Some 2%Z) None (fun _ _ => 3%R)).
  - exact well_shaped_ex.
  - simpl. lia.
  - exact Logic.I.
  - split; [reflexivity|]. split; [reflexivity|].
    intros b i j Hi Hj. simpl in Hi, Hj.
    destruct i as [|i]; [|lia].
    destruct j as [|[|j]]; [simpl; lra|simpl; lra|lia].
Defined.

Section AttentionLocal.

Context {I F : Type} {SF : Scalar F}.

Local Abbreviation tensor := (bmat I F).

(** X6. Queries attend independently of each other.  When two query
    tensors agree on row [i] of batch entry [b], the outputs and the weights
    of [attention] agree on that row, whatever the other rows hold, however
    many there are and however each call is chunked. *)
Theorem attention_query_row_local junk junk'
    (query query' key value bias : tensor) (scale : F)
    (subbatch_size subbatch_size' : option Z) (b : I) (i : nat) :
  well_shaped query key value bias -> well_shaped query' key value bias ->
  chunk_size_ok subbatch_size -> chunk_size_ok subbatch_size' ->
  i < nrows query -> i < nrows query' ->
  (forall e, e < ncols key -> at_ query' b i e = at_ query b i e) ->
  exists out wts out' wts',
    attention junk query key scale value bias subbatch_size
      = Some (out, wts) /\
    attention junk' query' key scale value bias subbatch_size'
      = Some (out', wts') /\
    (forall d, d < ncols value -> at_ out' b i d = at_ out b i d) /\
    (forall j, j < nrows key -> at_ wts' b i j = at_ wts b i j).
Proof.
  intros Hws Hws' Hsub Hsub' Hi Hi' Hrow.
  destruct (@attention_closed_form I F SF junk query key value bias
              scale subbatch_size Hws Hsub)
    as (o & w & E & _ & _ & _ & _ & HO & HW).
  destruct (@attention_closed_form I F SF junk' query' key value bias
              scale subbatch_size' Hws' Hsub')
    as (o' & w' & E' & _ & _ & _ & _ & HO' & HW').
  assert (Hq : ncols query = ncols key) by apply Hws.
  assert (Hq' : ncols query' = ncols key) by apply Hws'.
  assert (HL : forall j, attn_logits query' key scale bias b i j
                         = attn_logits query key scale bias b i j).
  { intros j. unfold attn_logits. rewrite Hq, Hq'. f_equal.
    apply fsum_ext. intros e He. now rewrite Hrow. }
  assert (HWeq : forall j, attn_weights query' key scale bias b i j
                           = attn_weights query key scale bias b i j).
  { intros j. unfold attn_weights. rewrite HL.
    rewrite (@fmax_upto_ext _ _ (nrows key - 1)
               (attn_logits query' key scale bias b i)
               (attn_logits query key scale bias b i)) by (intros; apply HL).
    f_equal. apply fsum_ext. intros j' _. now rewrite HL. }
  exists o, w, o', w'. split; [exact E|]. split; [exact E'|]. split.
  - intros d Hd. rewrite HO, HO' by assumption. unfold attn_output.
    apply fsum_ext. intros j _. now rewrite HWeq.
  - intros j Hj. rewrite HW, HW' by assumption. apply HWeq.
Qed.

End AttentionLocal.

Section ModuleChunking.

Import Value.

Context {F : Type} {SF : Scalar F}.

(** X7. Sub-batching inside [Attention.forward] is invisible in its
    results: for a module with [c >= 1] and at least one key, the call with
    any accepted chunk size in [fwd_cfg] returns, as does the call without
    [fwd_cfg], and the two agree in every entry of the output and of the
    returned weights, whatever the result buffers held before. *)
Theorem Attention_forward_chunk_config {Ib} (self : Shape.Attention.t)
    (P : Attention_params) (Lq Lk : nat)
    (q_inputs kv_inputs : Ib -> nat -> nat -> nat -> F)
    (bias : Ib -> nat -> nat -> nat -> nat -> F) junk junk'
    (fwd_cfg : option (option Z)) :
  Shape.Attention.c self <> 0 -> Lk <> 0 -> cfg_ok fwd_cfg ->
  exists output logits output' logits',
    Attention_forward self P Lq Lk q_inputs kv_inputs bias junk None
      = Some (output, logits) /\
    Attention_forward self P Lq Lk q_inputs kv_inputs bias junk' fwd_cfg
      = Some (output', logits') /\
    (forall b q o r, q < Lq -> output' b q o r = output b q o r) /\
    (forall b r q k h, q < Lq -> k < Lk ->
       logits' b r q k h = logits b r q k h).
Proof.
  intros Hc HLk Hcfg.
  destruct (@Attention_forward_returns F SF Ib self P Lq Lk q_inputs kv_inputs
              bias junk None Hc HLk Logic.I)
    as (ao & output & logits & E & Ho & HO & HW).
  destruct (@Attention_forward_returns F SF Ib self P Lq Lk q_inputs kv_inputs
              bias junk' fwd_cfg Hc HLk Hcfg)
    as (ao' & output' & logits' & E' & Ho' & HO' & HW').
  exists output, logits, output', logits'.
  split; [exact E|]. split; [exact E'|]. split.
  - intros b q o r Hq. rewrite Ho, Ho'. unfold project_out. f_equal.
    apply fsum_ext. intros h _. apply fsum_ext. intros c' Hc'. f_equal.
    unfold gated_out. rewrite HO, HO' by assumption. reflexivity.
  - intros b r q k h Hq Hk. rewrite HW, HW' by assumption. reflexivity.
Qed.

End ModuleChunking.

Lemma attention_query_row_local_witness :
  exists out wts out' wts',
    attention no_junk q_ex k_ex 1%R v_ex b_ex (Some 2%Z) = Some (out, wts) /\
    attention no_junk q_ex_short k_ex 1%R v_ex b_ex None
      = Some (out', wts') /\
    (forall d, d < ncols v_ex -> at_ out' tt 0 d = at_ out tt 0 d) /\
    (forall j, j < nrows k_ex -> at_ wts' tt 0 j = at_ wts tt 0 j).
Proof.
  apply (@attention_query_row_local unit R Scalar_R no_junk no_junk q_ex
           q_ex_short k_ex v_ex b_ex 1%R (Some 2%Z) None tt 0).
  - exact well_shaped_ex.
  - repeat split; simpl; try lia. right. reflexivity.
  - simpl. lia.
  - exact Logic.I.
  - simpl. lia.
  - simpl. lia.
  - intros e He. simpl in He.
    destruct e as [|[|e]]; [reflexivity|reflexivity|lia].
Defined.

Lemma Attention_forward_chunk_config_witness :
  exists output logits output' logits',
    Value.Attention_forward (Shape.AttentionWEdgeBias.attention awb_self)
      zero_attention 2 2 (fun (_ : unit) _ _ _ => 1%R) (fun _ _ _ _ => 1%R)
      (fun _ _ _ _ _ => 0%R) (fun _ _ _ => 0%R) None
      = Some (output, logits) /\
    Value.Attention_forward (Shape.AttentionWEdgeBias.attention awb_self)
      zero_attention 2 2 (fun (_ : unit) _ _ _ => 1%R) (fun _ _ _ _ => 1%R)
      (fun _ _ _ _ _ => 0%R) (fun _ _ _ => 1%R) (Some (Some 1%Z))
      = Some (output', logits') /\
    (forall b q o r, q < 2 -> output' b q o r = output b q o r) /\
    (forall b r q k h, q < 2 -> k < 2 ->
       logits' b r q k h = logits b r q k h).
Proof.
  apply (@Attention_forward_chunk_config R Scalar_R unit
           (Shape.AttentionWEdgeBias.attention awb_self) zero_attention 2 2
           (fun _ _ _ _ => 1%R) (fun _ _ _ _ => 1%R) (fun _ _ _ _ _ => 0%R)
           (fun _ _ _ => 0%R) (fun _ _ _ => 1%R) (Some (Some 1%Z))).
  - simpl. lia.
  - lia.
  - simpl. lia.
Defined.

Section ModuleShapes.

Import Shape.

(** X8. A module built with [c = 0] cannot run: [Attention.forward]
    raises on every input ([self.c ** (-0.5)] divides by zero), if nothing
    before that line has raised already. *)
Theorem Attention_forward_zero_c (self : Attention.t)
    (q_inputs kv_inputs : shape) (bias : option shape)
    (fwd_cfg : option (option Z)) :
  Attention.c self = 0 ->
  Attention.forward self q_inputs kv_inputs bias fwd_cfg = None.
Proof.
  intros Hc. unfold Attention.forward. rewrite Hc.
  repeat match goal with
         | |- obind ?m _ = None =>
             let E := fresh "E" in
             destruct m eqn:E; [simpl obind|reflexivity]
         end.
  reflexivity.
Qed.

Ltac shape_norm :=
  repeat progress
    (simpl;
     rewrite ?bdim_refl, ?bdim_one_l, ?bdim_one_r, ?broadcast_nil_r,
       ?broadcast_refl, ?expands_to_refl, ?expands_to_one, ?expandable_refl,
       ?Nat.eqb_refl).

Opaque attention.

(** Inputs that carry the track axis, with a bias whose batch axes broadcast
    to those of the inputs. *)
Lemma Attention_forward_tracked_bias self Lq Lk rbs bt :
  Attention.c self <> 0 ->
  Lk <> 0 ->
  broadcast rbs bt = Some rbs ->
  Attention.forward self
    (Attention.n_axis self :: Attention.q_dim self :: Lq :: rbs)
    (Attention.n_axis self :: Attention.kv_dim self :: Lk :: rbs)
    (Some (Lk :: Lq :: Attention.n_head self :: Attention.n_axis self :: bt))
    None
  = Some (Attention.n_axis self :: Attention.out_dim self :: Lq :: rbs,
          Attention.n_head self :: Lk :: Lq :: Attention.n_axis self :: rbs).
Proof.
  destruct self as [qd kd H g c od na]. simpl. intros Hc HLk Hbt.
  unfold Attention.forward. simpl.
  rewrite Nat.eqb_refl. simpl.
  unfold einsum, Attention.qg_weights, Attention.kv_weights,
    Attention.qg_bias, Attention.kv_bias, Attention.o_weights,
    Attention.o_bias. shape_norm.
  assert (E2 : c * 2 = c + (c + 0)) by lia.
  assert (E1 : c * 1 = c + 0) by lia.
  assert (HB : broadcast (H :: na :: rbs) (H :: na :: bt)
               = Some (H :: na :: rbs))
    by (simpl; rewrite !bdim_refl; simpl; rewrite Hbt; reflexivity).
  unfold inplace.
  destruct g; simpl; rewrite ?E1, ?E2, ?expands_to_refl, ?expands_to_one;
    simpl.
  1: pose proof (@split_bounds_exact 2 c ltac:(lia) ltac:(lia)) as HS.
  2: pose proof (@split_bounds_exact 1 c ltac:(lia) ltac:(lia)) as HS.
  all: simpl in HS; rewrite HS; clear HS.
  all: rewrite ?Nat.eqb_refl; simpl.
  all: destruct (c =? 0) eqn:Ec; [apply Nat.eqb_eq in Ec; contradiction|].
  all: simpl.
  all: pose proof (@attention_shape c c Lq Lk (H :: na :: rbs) (H :: na :: bt)
                     (Some (Z.of_nat na)) HB HLk ltac:(simpl; lia)) as HA.
  all: unfold shape in *; rewrite HA; clear HA.
  all: shape_norm; reflexivity.
Qed.

Transparent attention.

Lemma even_mul_4 d : Nat.even (d * 4) = true.
Proof.
  replace (d * 4) with (2 * (2 * d)) by lia. rewrite Nat.even_mul.
  reflexivity.
Qed.

Lemma stack2_refl x : stack2 x x = Some (2 :: x).
Proof.
  unfold stack2. destruct (list_eq_dec Nat.eq_dec x x) as [_|N];
    [reflexivity|contradiction].
Qed.

Opaque stack2 Attention.forward.

(** X9. Output shape of [GeometricAttention.forward].  For a module with
    two tracks and [c >= 1], edge features [(L, L, d_edge)] and a mask
    [(L)] with at least one position, the call returns a tensor of the shape
    of the edge features, [(L, L, d_edge)], for every head count and edge
    dimension. *)
Theorem GeometricAttention_forward_shape (self : GeometricAttention.t)
    (L : nat) :
  GeometricAttention.n_axis self = 2 ->
  GeometricAttention.c self <> 0 ->
  L <> 0 ->
  GeometricAttention.forward self
    (of_dims [L; L; GeometricAttention.d_edge self]) (of_dims [L])
  = Some (of_dims [L; L; GeometricAttention.d_edge self]).
Proof.
  destruct self as [d c H na]. simpl. intros -> Hc HL.
  unfold GeometricAttention.forward, GeometricAttention.attention.
  pose proof (@Attention_forward_tracked_bias (Attention.Make d d H true c d 2)
                L L [L] [] Hc HL (broadcast_nil_r _)) as HF.
  simpl in HF. simpl. rewrite stack2_refl.
  unfold einsum, inplace. shape_norm.
  unfold shape in *. rewrite HF. clear HF. shape_norm.
  replace (d * 4 + (d + 0)) with (d * 5) by lia. shape_norm.
  rewrite even_mul_4.
  assert (E : d * 4 / 2 = d + (d + 0)).
  { replace (d * 4) with ((d + (d + 0)) * 2) by lia. apply Nat.div_mul. lia. }
  change (fst (Nat.divmod (d * 4) 1 0 1)) with (d * 4 / 2).
  rewrite E. shape_norm. reflexivity.
Qed.

Transparent stack2 Attention.forward.

(** ** [MultiHeadedScaling] on shapes *)


Lemma axis_from_end_neg n m :
  m < n -> axis_from_end n (- (Z.of_nat m + 1)) = Some m.
Proof.
  intros H. unfold axis_from_end.
  destruct (- (Z.of_nat m + 1))%Z as [|p|p] eqn:E; try lia.
  assert (Hp : Pos.to_nat p = S m) by lia.
  rewrite Hp. replace (S m - 1) with m by lia.
  destruct (Nat.ltb_spec m n); [reflexivity|lia].
Qed.

Lemma axis_from_end_nonneg n i :
  i < n -> axis_from_end n (Z.of_nat i) = Some (n - 1 - i).
Proof.
  intros H. unfold axis_from_end.
  destruct (Z.of_nat i) as [|p|p] eqn:E; try lia.
  - assert (i = 0) by lia. subst i. simpl.
    destruct (Nat.ltb_spec 0 n); [reflexivity|lia].
  - rewrite <- E, Nat2Z.id.
    destruct (Nat.ltb_spec i n); [reflexivity|lia].
Qed.

Lemma insert_at_app (a b : shape) x :
  insert_at (length a) x (a ++ b) = Some (a ++ x :: b).
Proof.
  induction a as [|y a IH]; simpl; [reflexivity|]. now rewrite IH.
Qed.

Lemma set_at_app (a b : shape) x v :
  set_at (length a) v (a ++ x :: b) = a ++ v :: b.
Proof.
  induction a as [|y a IH]; simpl; [reflexivity|]. now rewrite IH.
Qed.

Lemma remove_at_app (a b : shape) x :
  remove_at (length a) (a ++ x :: b) = a ++ b.
Proof.
  induction a as [|y a IH]; simpl; [reflexivity|]. now rewrite IH.
Qed.

Lemma nth_error_mid (a b : shape) x :
  nth_error (a ++ x :: b) (length a) = Some x.
Proof.
  induction a as [|y a IH]; simpl; [reflexivity|]. exact IH.
Qed.

Lemma broadcast_length s t r :
  length s = length t -> broadcast s t = Some r -> length r = length s.
Proof.
  revert t r. induction s as [|a s IH]; intros [|b t] r Hl; simpl in *;
    try discriminate.
  - intros [= <-]. reflexivity.
  - destruct (bdim a b); simpl; [|discriminate].
    destruct (broadcast s t) as [r'|] eqn:E; simpl; [|discriminate].
    intros [= <-]. simpl. f_equal. apply (IH t); [lia|exact E].
Qed.

Lemma broadcast_app s t r s2 t2 r2 :
  length s = length t ->
  broadcast s t = Some r -> broadcast s2 t2 = Some r2 ->
  broadcast (s ++ s2) (t ++ t2) = Some (r ++ r2).
Proof.
  revert t r. induction s as [|a s IH]; intros [|b t] r Hl; simpl in *;
    try discriminate.
  - intros [= <-] H2. exact H2.
  - destruct (bdim a b); simpl; [|discriminate].
    destruct (broadcast s t) as [r'|] eqn:E; simpl; [|discriminate].
    intros [= <-] H2. erewrite IH by (eauto; lia). reflexivity.
Qed.

Lemma bdim_idem a b c : bdim a b = Some c -> bdim c b = Some c.
Proof.
  unfold bdim. destruct (a =? b) eqn:E1.
  - intros [= <-]. now rewrite E1.
  - destruct (a =? 1) eqn:E2.
    + intros [= <-]. now rewrite Nat.eqb_refl.
    + destruct (b =? 1) eqn:E3; [|discriminate].
      intros [= <-]. now rewrite E1, E2.
Qed.

Lemma broadcast_idem s t r :
  length s = length t -> broadcast s t = Some r -> broadcast r t = Some r.
Proof.
  revert t r. induction s as [|a s IH]; intros [|b t] r Hl; simpl in *;
    try discriminate.
  - intros [= <-]. reflexivity.
  - destruct (bdim a b) as [c|] eqn:Ec; simpl; [|discriminate].
    destruct (broadcast s t) as [r'|] eqn:E; simpl; [|discriminate].
    intros [= <-]. simpl. erewrite bdim_idem by eassumption. simpl.
    erewrite IH by (eauto; lia). reflexivity.
Qed.

Lemma map_all_repeat {A B} (f : A -> option B) a b n :
  f a = Some b -> map_all f (repeat a n) = Some (repeat b n).
Proof.
  intros H. induction n as [|n IH]; simpl; [reflexivity|].
  now rewrite H, IH.
Qed.

Lemma sum_repeat_one n : fold_right Nat.add 0 (repeat 1 n) = n.
Proof. induction n as [|n IH]; simpl; [reflexivity|]. now rewrite IH. Qed.

(** X10. Output shapes of [MultiHeadedScaling.forward].  For an input whose
    trailing axes broadcast with the [shape] the module was built for, and a
    callback (if any) that keeps the shape, the call returns [num_heads]
    tensors, each with the leading axes of the input followed by the
    broadcast trailing axes: the shape of the input itself when its trailing
    axes equal [shape]. *)
Theorem MultiHeadedScaling_forward_shape
    (arg : MultiHeadedScaling.shape_arg) (num_heads : nat)
    (on_out_ready : option (shape -> option shape))
    (lead xdims rdims : list nat) :
  length xdims = length (arg_dims arg) ->
  broadcast (of_dims xdims) (of_dims (arg_dims arg)) = Some (of_dims rdims) ->
  (forall f, on_out_ready = Some f ->
     f (of_dims (lead ++ num_heads :: rdims))
     = Some (of_dims (lead ++ num_heads :: rdims))) ->
  MultiHeadedScaling.forward
    (MultiHeadedScaling.init arg num_heads on_out_ready)
    (of_dims (lead ++ xdims))
  = Some (repeat (of_dims (lead ++ rdims)) num_heads).
Proof.
  intros Hlen Hb Hcb.
  assert (Hinit : MultiHeadedScaling.init arg num_heads on_out_ready
                  = MultiHeadedScaling.Make
                      (- (Z.of_nat (length (arg_dims arg)) + 1))
                      (of_dims (num_heads :: arg_dims arg))
                      (repeat 1 num_heads) on_out_ready)
    by (destruct arg; reflexivity).
  rewrite Hinit. clear Hinit.
  set (dims := arg_dims arg) in *.
  unfold MultiHeadedScaling.forward.
  cbn [MultiHeadedScaling.unsqueeze_dim MultiHeadedScaling.weight
       MultiHeadedScaling.split_dims MultiHeadedScaling.call_on_out_ready].
  unfold of_dims in *. rewrite !rev_app_distr. cbn [rev]. 
  set (xr := rev xdims) in *. set (dr := rev dims) in *.
  set (lr := rev lead). set (rr := rev rdims) in *.
  assert (Hxr : length xr = length dims)
    by (unfold xr; rewrite length_rev; exact Hlen).
  assert (Hdr : length dr = length dims) by (unfold dr; apply length_rev).
  assert (Hrr : length rr = length dims).
  { rewrite <- Hxr. apply broadcast_length with (t := dr); [lia|exact Hb]. }
  unfold unsqueeze, ndim. rewrite length_app.
  rewrite axis_from_end_neg by lia. cbn [obind].
  rewrite <- Hxr, insert_at_app. cbn [obind].
  assert (B1 : broadcast (xr ++ 1 :: lr) (dr ++ [num_heads])
               = Some (rr ++ num_heads :: lr)).
  { apply broadcast_app; [lia|exact Hb|].
    simpl. rewrite bdim_one_l. simpl. rewrite broadcast_nil_r. reflexivity. }
  assert (B2 : broadcast (rr ++ num_heads :: lr) (dr ++ [num_heads])
               = Some (rr ++ num_heads :: lr)).
  { apply broadcast_app; [lia| |].
    - apply broadcast_idem with (s := xr); [lia|exact Hb].
    - simpl. rewrite bdim_refl. simpl. rewrite broadcast_nil_r.
      reflexivity. }
  rewrite B1. cbn [obind]. rewrite B2. cbn [obind].
  assert (Hx : rev (lead ++ num_heads :: rdims) = rr ++ num_heads :: lr).
  { rewrite rev_app_distr. simpl. rewrite <- app_assoc. reflexivity. }
  rewrite Hx in Hcb.
  assert (Hp : (Z.of_nat (length (rr ++ num_heads :: lr))
                + - (Z.of_nat (length xr) + 1))%Z = Z.of_nat (length lr)).
  { rewrite length_app. simpl. lia. }
  assert (Hk : axis_from_end (ndim (rr ++ num_heads :: lr))
                 (Z.of_nat (length lr)) = Some (length rr)).
  { unfold ndim. rewrite axis_from_end_nonneg
      by (rewrite length_app; simpl; lia).
    f_equal. rewrite length_app. simpl. lia. }
  assert (Hk1 : axis_from_end (ndim (rr ++ 1 :: lr))
                  (Z.of_nat (length lr)) = Some (length rr)).
  { unfold ndim. rewrite axis_from_end_nonneg
      by (rewrite length_app; simpl; lia).
    f_equal. rewrite length_app. simpl. lia. }
  destruct on_out_ready as [f|];
    [rewrite (Hcb f eq_refl)|]; clear Hcb; cbn [obind].
  all: rewrite Hp.
  all: unfold split_sections_at; rewrite Hk; cbn [obind].
  all: rewrite nth_error_mid; cbn [obind].
  all: rewrite sum_repeat_one, Nat.eqb_refl; cbn [guard obind].
  all: rewrite map_repeat, set_at_app.
  all: apply map_all_repeat.
  all: unfold squeeze.
  all: rewrite Hk1; cbn [obind]; rewrite nth_error_mid; cbn [obind].
  all: rewrite Nat.eqb_refl, remove_at_app; reflexivity.
Qed.

(** X11. An input with fewer axes than the [shape] the module was built for is
    rejected: [unsqueeze] has no place for the head axis. *)
Theorem MultiHeadedScaling_forward_too_few_axes
    (arg : MultiHeadedScaling.shape_arg) (num_heads : nat)
    (on_out_ready : option (shape -> option shape)) (x : shape) :
  ndim x < length (arg_dims arg) ->
  MultiHeadedScaling.forward
    (MultiHeadedScaling.init arg num_heads on_out_ready) x = None.
Proof.
  intros H.
  assert (Hinit : MultiHeadedScaling.unsqueeze_dim
                    (MultiHeadedScaling.init arg num_heads on_out_ready)
                  = (- (Z.of_nat (length (arg_dims arg)) + 1))%Z)
    by (destruct arg; reflexivity).
  unfold MultiHeadedScaling.forward. rewrite Hinit.
  unfold unsqueeze, axis_from_end.
  destruct (- (Z.of_nat (length (arg_dims arg)) + 1))%Z as [|p|p] eqn:E;
    try lia.
  assert (Hp : Pos.to_nat p = S (length (arg_dims arg))) by lia.
  rewrite Hp.
  replace (S (length (arg_dims arg)) - 1) with (length (arg_dims arg)) by lia.
  destruct (Nat.ltb_spec (length (arg_dims arg)) (S (ndim x))); [lia|].
  reflexivity.
Qed.

(** ** [Node2Edge] *)


(** X12. Output shape of [Node2Edge.forward].  For every batch shape, node
    features [(.., S, L, in_dim)] and a mask [(.., S, L)], a module with
    [proj_dim >= 1] returns pair features of shape [(.., L, L, out_dim)]. *)
Theorem Node2Edge_forward_shape (self : Node2Edge.t) (bs : list nat)
    (S L : nat) :
  Node2Edge.proj_dim self <> 0 ->
  Node2Edge.forward self
    (of_dims (bs ++ [S; L; Node2Edge.in_dim self]))
    (of_dims (bs ++ [S; L]))
  = Some (of_dims (bs ++ [L; L; Node2Edge.out_dim self])).
Proof.
  destruct self as [di p do]. simpl. intros Hp.
  unfold of_dims. rewrite !rev_app_distr. simpl.
  unfold Node2Edge.forward. simpl. rewrite Nat.eqb_refl. simpl.
  rewrite !bdim_one_r, !bdim_refl. simpl. rewrite broadcast_refl. simpl.
  unfold einsum. simpl.
  rewrite !bdim_refl. simpl. rewrite !broadcast_refl. simpl.
  pose proof (@split_bounds_exact 2 p ltac:(lia) ltac:(lia)) as HS.
  replace (2 * p) with (p * 2) in HS by lia. rewrite HS. clear HS. simpl.
  shape_norm. reflexivity.
Qed.

(** X13. A module built with [proj_dim = 0] cannot run: its projection has no
    channels to split into the two halves [l, r], and [forward] raises on
    every input. *)
Theorem Node2Edge_forward_zero_proj (self : Node2Edge.t)
    (node_repr mask : shape) :
  Node2Edge.proj_dim self = 0 ->
  Node2Edge.forward self node_repr mask = None.
Proof.
  intros Hp. unfold Node2Edge.forward. rewrite Hp.
  destruct (normalize node_repr) as [x|]; [|reflexivity]. cbn [obind].
  destruct (linear _ _ x) as [act|] eqn:El; [|reflexivity]. cbn [obind].
  destruct (broadcast act (1 :: mask)) as [act'|] eqn:Eb; [|reflexivity].
  cbn [obind].
  destruct (einsum _ [1 :: mask; 1 :: mask]) as [norm|]; [|reflexivity].
  cbn [obind].
  destruct (split_last act' (Z.of_nat 0)) as [halves|] eqn:Es;
    [|reflexivity].
  cbn [obind].
  unfold split_last in Es. destruct act' as [|d s']; [discriminate|].
  unfold split_bounds in Es. simpl in Es.
  destruct (d =? 0); simpl in Es; [|discriminate].
  injection Es as <-. reflexivity.
Qed.

End ModuleShapes.

Lemma Attention_forward_zero_c_witness :
  Shape.Attention.forward (Shape.Attention.Make 3 3 2 true 0 5 1)
    (Shape.of_dims [4; 3]) (Shape.of_dims [4; 3])
    (Some (Shape.of_dims [2; 4; 4])) None = None.
Proof.
  apply (@Attention_forward_zero_c (Shape.Attention.Make 3 3 2 true 0 5 1)
           (Shape.of_dims [4; 3]) (Shape.of_dims [4; 3])
           (Some (Shape.of_dims [2; 4; 4])) None).
  reflexivity.
Defined.

Lemma GeometricAttention_forward_shape_witness :
  Shape.GeometricAttention.forward (Shape.GeometricAttention.Make 3 4 2 2)
    (Shape.of_dims [5; 5; 3]) (Shape.of_dims [5])
  = Some (Shape.of_dims [5; 5; 3]).
Proof.
  apply (@GeometricAttention_forward_shape
           (Shape.GeometricAttention.Make 3 4 2 2) 5).
  - reflexivity.
  - simpl. lia.
  - lia.
Defined.

Lemma MultiHeadedScaling_forward_shape_witness :
  Shape.MultiHeadedScaling.forward
    (Shape.MultiHeadedScaling.init (Shape.MultiHeadedScaling.Dims [4; 5]) 3
       None)
    (Shape.of_dims ([7] ++ [4; 1]))
  = Some (repeat (Shape.of_dims ([7] ++ [4; 5])) 3).
Proof.
  apply (@MultiHeadedScaling_forward_shape
           (Shape.MultiHeadedScaling.Dims [4; 5]) 3 None [7] [4; 1] [4; 5]).
  - reflexivity.
  - reflexivity.
  - intros f Hf. discriminate.
Defined.

Lemma MultiHeadedScaling_forward_too_few_axes_witness :
  Shape.MultiHeadedScaling.forward
    (Shape.MultiHeadedScaling.init (Shape.MultiHeadedScaling.Dims [4; 5]) 3
       None)
    (Shape.of_dims [5])
  = None.
Proof.
  apply (@MultiHeadedScaling_forward_too_few_axes
           (Shape.MultiHeadedScaling.Dims [4; 5]) 3 None (Shape.of_dims [5])).
  simpl. lia.
Defined.

Lemma Node2Edge_forward_shape_witness :
  Shape.Node2Edge.forward (Shape.Node2Edge.Make 6 3 4)
    (Shape.of_dims ([2] ++ [5; 7; 6])) (Shape.of_dims ([2] ++ [5; 7]))
  = Some (Shape.of_dims ([2] ++ [7; 7; 4])).
Proof.
  apply (@Node2Edge_forward_shape (Shape.Node2Edge.Make 6 3 4) [2] 5 7).
  simpl. lia.
Defined.

Lemma Node2Edge_forward_zero_proj_witness :
  Shape.Node2Edge.forward (Shape.Node2Edge.Make 6 0 4)
    (Shape.of_dims [5; 7; 6]) (Shape.of_dims [5; 7]) = None.
Proof.
  apply (@Node2Edge_forward_zero_proj (Shape.Node2Edge.Make 6 0 4)
           (Shape.of_dims [5; 7; 6]) (Shape.of_dims [5; 7])).
  reflexivity.
Defined.

(** ** [Transition]: chunking along axis 0 *)

Section TransitionFacts.

Import Value.

Context {I F : Type} {SF : Scalar F}.

Local Abbreviation tensor := (bmat I F).

Variables (d n : nat).
Variable P : Transition_params (F := F).
Variable activation : tensor -> option tensor.

(** The activation treats the rows (the entries along axis 0) separately:
    applied to a block of rows it gives that block of its result. *)
Hypothesis activation_rows : forall s L (x' x : tensor),
  rows_rel s L x' x -> opt_rel (rows_rel s L) (activation x') (activation x).

Lemma normalize_rows_rel s L (x' x : tensor) :
  rows_rel s L x' x -> rows_rel s L (normalize_rows x') (normalize_rows x).
Proof.
  intros (H1 & H2 & H3 & H4). repeat split; simpl; auto.
  intros b i j Hi. rewrite H2. apply normalize_ext.
  intros a. apply H4, Hi.
Qed.

Lemma linear_rows_rel fi fo w bv s L (x' x : tensor) :
  rows_rel s L x' x ->
  opt_rel (rows_rel s L) (linear fi fo w bv x') (linear fi fo w bv x).
Proof.
  intros (H1 & H2 & H3 & H4). unfold linear. rewrite H2.
  destruct (ncols x =? fi); simpl; [|exact Logic.I].
  repeat split; simpl; auto.
  intros b i k Hi. f_equal. apply fsum_ext. intros a _.
  now rewrite H4.
Qed.

Lemma Transition_network_rows_rel s L (x' x : tensor) :
  rows_rel s L x' x ->
  opt_rel (rows_rel s L) (Transition_network d n P activation x')
    (Transition_network d n P activation x).
Proof using activation_rows.
  intros H. unfold Transition_network.
  eapply opt_rel_bind; [apply linear_rows_rel, H|].
  intros y' y Hy.
  eapply opt_rel_bind; [apply activation_rows, Hy|].
  intros z' z Hz. apply linear_rows_rel, Hz.
Qed.

Lemma Transition_network_ncols (x y : tensor) :
  Transition_network d n P activation x = Some y ->
  ncols x = d /\ ncols y = d.
Proof.
  unfold Transition_network, linear.
  destruct (ncols x =? d) eqn:E; simpl; [|discriminate].
  apply Nat.eqb_eq in E.
  destruct (activation _) as [z|]; simpl; [|discriminate].
  destruct (ncols z =? n * d); simpl; [|discriminate].
  intros [= <-]. split; [exact E|reflexivity].
Qed.

Section Loop.

Variables (x Y : tensor).
Hypothesis Href :
  Transition_network d n P activation (normalize_rows x) = Some Y.

Variables (cz : Z) (c : nat) (len : nat -> nat) (N : nat).
Hypothesis Hplan : plan_ok (nrows x) cz c len N.

Lemma rows_done_mono r r' out :
  r' <= r -> rows_done x Y r out -> rows_done x Y r' out.
Proof.
  intros Hle (H1 & H2 & H3). repeat split; auto. intros. apply H3; lia.
Qed.

Lemma Transition_step_ok i out :
  i < N -> rows_done x Y (i * c) out ->
  exists out',
    Transition_step d n P activation cz out (i, narrow x (i * c) (len i))
      = Some out' /\ rows_done x Y (i * c + len i) out'.
Proof using Href Hplan activation_rows.
  intros Hi (Ho1 & Ho2 & Hov).
  destruct (Hplan Hi) as (Hs & He & Hle & _).
  unfold Transition_step.
  assert (Hn : rows_rel (i * c) (len i) (narrow x (i * c) (len i)) x)
    by (apply narrow_rows_rel; exact Hle).
  pose proof (Transition_network_rows_rel (normalize_rows_rel Hn)) as Hrel.
  rewrite Href in Hrel.
  destruct (Transition_network d n P activation
              (normalize_rows (narrow x (i * c) (len i)))) as [y|] eqn:Ey;
    simpl in Hrel; [|contradiction].
  destruct Hrel as (Hr1 & Hr2 & _ & Hrv).
  destruct (Transition_network_ncols _ Href) as [Hxd HYd]. simpl in Hxd.
  simpl obind.
  unfold setitem_rows, slice_len, slice_start.
  rewrite Ho1, Ho2, Hs, He, Hr1, Hr2, HYd, Hxd.
  replace (i * c + len i - i * c) with (len i) by lia.
  rewrite !expands_to_refl. simpl.
  eexists. split; [reflexivity|].
  repeat split; simpl; auto.
  intros b r j Hr Hj.
  destruct (Nat.leb_spec (i * c) r) as [H1|H1]; simpl.
  - destruct (Nat.ltb_spec r (i * c + len i)) as [H2|H2]; [|lia].
    rewrite !bidx_lt by lia. rewrite Hrv by lia. f_equal. lia.
  - apply Hov; lia.
Qed.

Lemma Transition_loop_ok k : forall m out,
  m + k <= N -> rows_done x Y (m * c) out ->
  exists out',
    for_each (Transition_step d n P activation cz)
      (map (fun i => (i, narrow x (i * c) (len i))) (seq m k)) out
      = Some out' /\
    (k = 0 -> out' = out) /\
    (0 < k -> rows_done x Y ((m + k - 1) * c + len (m + k - 1)) out').
Proof using Href Hplan activation_rows.
  induction k as [|k IH]; intros m out Hle Hinv; cbn [for_each map seq].
  - exists out. split; [reflexivity|]. split; [reflexivity|]. intros H. lia.
  - destruct (@Transition_step_ok m out) as (o1 & -> & Hinv1);
      [lia|exact Hinv|].
    cbn [obind]. destruct k as [|k].
    + cbn [for_each map seq]. exists o1. split; [reflexivity|]. split; [lia|].
      intros _. replace (m + 1 - 1) with m by lia. exact Hinv1.
    + destruct (IH (S m) o1) as (o2 & E2 & _ & Hinv2); [lia| |].
      { apply rows_done_mono with (r := m * c + len m); [|exact Hinv1].
        apply (Hplan (i := m)); lia. }
      exists o2. split; [exact E2|]. split; [lia|].
      intros _. replace (m + S (S k) - 1) with (S m + S k - 1) by lia.
      apply Hinv2. lia.
Qed.

End Loop.

Lemma Transition_plan_run junk (x : tensor) cz c len N :
  0 < N ->
  plan_ok (nrows x) cz c len N ->
  (N - 1) * c + len (N - 1) = nrows x ->
  chunked_matches x (Transition_network d n P activation (normalize_rows x))
    (for_each (Transition_step d n P activation cz)
       (map (fun i => (i, narrow x (i * c) (len i))) (seq 0 N))
       (torch_empty junk (nrows x) (ncols x))).
Proof using activation_rows.
  intros HN Hplan Hlast. unfold chunked_matches.
  destruct (Transition_network d n P activation (normalize_rows x))
    as [Y|] eqn:Href.
  - destruct (@Transition_loop_ok x Y Href cz c len N Hplan N 0
                (torch_empty junk (nrows x) (ncols x)))
      as (out' & E & _ & Hinv); [lia| |].
    { repeat split; simpl; auto; intros; lia. }
    exists out'. split; [exact E|]. rewrite <- Hlast. apply Hinv. exact HN.
  - destruct N as [|N]; [lia|]. cbn [for_each map seq].
    assert (H0 : 0 < S N) by lia.
    destruct (Hplan 0 H0) as (_ & _ & Hle & _).
    assert (Hn : rows_rel (0 * c) (len 0) (narrow x (0 * c) (len 0)) x)
      by (apply narrow_rows_rel; exact Hle).
    pose proof (Transition_network_rows_rel (normalize_rows_rel Hn)) as Hrel.
    rewrite Href in Hrel. unfold Transition_step at 1.
    destruct (Transition_network d n P activation
                (normalize_rows (narrow x (0 * c) (len 0)))) as [y|];
      simpl in Hrel; [contradiction|]. reflexivity.
Qed.

(** X14. Chunk invariance of [Transition.forward].  For an activation that
    treats rows separately and every effective chunk size of at least 1
    ([subbatch_size], or [x.shape[-2]] when that is [None] or 0), dividing
    the length of axis 0 or not, the chunked loop gives what one pass of the
    network over the normalised [x] gives: it raises when that pass does,
    and otherwise returns a tensor of the shape of [x] holding the result of
    the pass in every entry, whatever the result buffer held before. *)
Theorem Transition_forward_chunked junk (mid : list nat) (x : tensor)
    (subbatch_size : option Z) :
  (1 <= py_or subbatch_size (last mid (nrows x)))%Z ->
  chunked_matches x (Transition_network d n P activation (normalize_rows x))
    (Transition_forward d n P activation junk mid x subbatch_size).
Proof using activation_rows.
  intros Hc. unfold Transition_forward.
  set (cz := py_or subbatch_size (last mid (nrows x))) in *.
  assert (E0 : (cz =? 0)%Z = false) by (apply Z.eqb_neq; lia).
  assert (E1 : (cz <? 0)%Z = false) by (apply Z.ltb_ge; lia).
  unfold torch_split, split_bounds.
  rewrite E0, E1. simpl obind. rewrite map_map. simpl fst. simpl snd.
  rewrite enumerate_map_seq.
  destruct (@split_plan (nrows x) (Z.to_nat cz)) as (HN & Hplan & Hlast);
    [lia|].
  rewrite Z2Nat.id in Hplan by lia.
  apply Transition_plan_run; assumption.
Qed.

(** X15. Chunk sizes [Transition.forward] rejects.  The split is along
    axis 0 while the default chunk size is [x.shape[-2]]: [forward] raises
    when the effective chunk size is negative, and when it is 0 while axis
    0 is not empty, as for [subbatch_size] [None] or 0 and an [x] of shape
    [(n0, .., 0, d)] with [n0 >= 1]. *)
Theorem Transition_forward_bad_chunk junk (mid : list nat) (x : tensor)
    (subbatch_size : option Z) :
  (py_or subbatch_size (last mid (nrows x)) < 0)%Z \/
  (py_or subbatch_size (last mid (nrows x)) = 0%Z /\ nrows x <> 0) ->
  Transition_forward d n P activation junk mid x subbatch_size = None.
Proof.
  intros H. unfold Transition_forward, torch_split, split_bounds.
  destruct H as [H|[H Hn]].
  - apply Z.ltb_lt in H. rewrite H. reflexivity.
  - rewrite H. simpl. apply Nat.eqb_neq in Hn. rewrite Hn. reflexivity.
Qed.

End TransitionFacts.

Lemma relu_act_rows s L (x' x : bmat unit R) :
  rows_rel s L x' x -> opt_rel (rows_rel s L) (relu_act x') (relu_act x).
Proof.
  intros (H1 & H2 & H3 & H4). simpl. repeat split; simpl; auto.
  intros b i j Hi. now rewrite H4.
Qed.

Lemma Transition_forward_chunked_witness :
  chunked_matches q_ex
    (Value.Transition_network 2 1 tr_params relu_act
       (Value.normalize_rows q_ex))
    (Value.Transition_forward 2 1 tr_params relu_act no_junk [] q_ex
       (Some 2%Z)).
Proof.
  apply (@Transition_forward_chunked unit R Scalar_R 2 1 tr_params relu_act
           relu_act_rows no_junk [] q_ex (Some 2%Z)).
  simpl. lia.
Defined.

Lemma Transition_forward_bad_chunk_witness :
  Value.Transition_forward 2 1 tr_params relu_act no_junk [0] q_ex None
  = None.
Proof.
  apply (@Transition_forward_bad_chunk unit R Scalar_R 2 1 tr_params relu_act
           no_junk [0] q_ex None).
  right. split; [reflexivity|simpl; lia].
Defined.

(** ** The binning modules *)

Section BinFacts.

Local Open Scope R_scope.

Lemma linspace_length start stop steps l :
  linspace start stop steps = Some l -> length l = Z.to_nat steps.
Proof.
  unfold linspace. destruct (steps <? 0)%Z; [discriminate|].
  intros [= <-]. now rewrite length_map, length_seq.
Qed.

Lemma nth_map_seq {A} (f : nat -> A) n k d :
  (k < n)%nat -> nth k (map f (seq 0 n)) d = f k.
Proof.
  intros Hk.
  assert (G : forall s, nth k (map f (seq s n)) d = f (s + k)%nat).
  { revert k Hk. induction n as [|n IH]; intros k Hk s; [lia|].
    destruct k as [|k]; simpl.
    - f_equal. lia.
    - rewrite IH by lia. f_equal. lia. }
  apply (G 0%nat).
Qed.

Lemma linspace_nth start stop steps l k :
  linspace start stop steps = Some l -> (k < Z.to_nat steps)%nat ->
  nth k l 0 =
  if Z.to_nat steps =? 1 then start
  else start + INR k * ((stop - start) / INR (Z.to_nat steps - 1)).
Proof.
  unfold linspace. destruct (steps <? 0)%Z; [discriminate|].
  intros [= <-] Hk. rewrite nth_map_seq by exact Hk. reflexivity.
Qed.

Lemma count_below_le (d : R) l :
  (list_sum (map (fun b => if gt d b then 1 else 0) l) <= length l)%nat.
Proof.
  induction l as [|b l IH]; simpl; [lia|]. destruct (gt d b); lia.
Qed.

Lemma count_below_mono (d d' : R) l :
  d <= d' ->
  (list_sum (map (fun b => if gt d b then 1 else 0) l)
   <= list_sum (map (fun b => if gt d' b then 1 else 0) l))%nat.
Proof.
  intros H. induction l as [|b l IH]; simpl; [lia|].
  unfold gt at 1 3.
  destruct (Rlt_dec b d) as [H1|H1]; destruct (Rlt_dec b d') as [H2|H2];
    try lia.
  exfalso. apply H2. lra.
Qed.



(** X16. The bin indices stay in range.  [Val2Bins(cfg)] raises exactly when
    [num_bins < 1]; otherwise it holds [num_bins - 1] breaks and the bin
    index of every entry of every input is between 0 and [num_bins - 1]. *)
Theorem Val2Bins_bin_range (cfg : Val2Bins_cfg) :
  match Val2Bins_init cfg with
  | Some breaks =>
      (1 <= num_bins cfg)%Z /\
      Z.of_nat (length breaks) = (num_bins cfg - 1)%Z /\
      forall J (dist : J -> R) idx,
        (Z.of_nat (Val2Bins_forward breaks dist idx) <= num_bins cfg - 1)%Z
  | None => (num_bins cfg < 1)%Z
  end.
Proof.
  destruct (Val2Bins_init cfg) as [breaks|] eqn:E.
  - pose proof (@linspace_length _ _ _ _ E) as Hl.
    unfold Val2Bins_init, linspace in E.
    destruct (num_bins cfg - 1 <? 0)%Z eqn:E1; [discriminate|].
    apply Z.ltb_ge in E1.
    split; [lia|]. split; [lia|].
    intros J dist idx. unfold Val2Bins_forward.
    pose proof (count_below_le (dist idx) breaks). lia.
  - unfold Val2Bins_init, linspace in E.
    destruct (num_bins cfg - 1 <? 0)%Z eqn:E1; [|discriminate].
    apply Z.ltb_lt in E1. lia.
Qed.

(** X17. Binning is monotone: for any breaks, a larger entry never gets a
    smaller bin index. *)
Theorem Val2Bins_forward_monotone {J} (breaks : list R) (dist : J -> R)
    (idx idx' : J) :
  dist idx <= dist idx' ->
  (Val2Bins_forward breaks dist idx <= Val2Bins_forward breaks dist idx')%nat.
Proof. intros H. unfold Val2Bins_forward. apply count_below_mono, H. Qed.


End BinFacts.


Lemma Val2Bins_forward_monotone_witness :
  Val2Bins_forward bins_breaks two_dists false
  <= Val2Bins_forward bins_breaks two_dists true.
Proof.
  apply (@Val2Bins_forward_monotone bool bins_breaks two_dists false true).
  simpl. lra.
Defined.


Section ContBinFacts.

Local Open Scope R_scope.

(** The bin width [x_bin_size] of a configuration. *)
Lemma is_zero_sq s : is_zero ((s * (2 / 10)) ^ 2) = true <-> s = 0.
Proof.
  unfold is_zero. destruct (Req_dec_T ((s * (2 / 10)) ^ 2) 0) as [E|E].
  - split; [intros _|reflexivity].
    simpl in E. rewrite Rmult_1_r in E.
    apply Rmult_integral in E. destruct E as [E|E]; lra.
  - split; [discriminate|]. intros ->. exfalso. apply E. simpl. lra.
Qed.

(** X19. When the construction fails.  [Val2ContBins(cfg)] raises whenever
    [x_bins = 2] (the bin width divides by [x_bins - 2]), whenever [x_bins]
    is negative ([linspace] rejects it), and whenever [x_min = x_max] (the
    coefficient divides by the squared bin width, which is zero), whatever
    the rounding of the floats is.  These are not the only cases in the
    running code: the floats make line 578 raise for some bin widths that
    are not zero. *)
Theorem Val2ContBins_init_raises (sq_raises : rounding)
    (cfg : Val2ContBins_cfg) :
  (x_bins cfg = 2%Z \/ (x_bins cfg < 0)%Z \/ x_max cfg = x_min cfg) ->
  Val2ContBins_init sq_raises cfg = None.
Proof.
  intros H. unfold Val2ContBins_init.
  destruct (x_bins cfg - 2 =? 0)%Z eqn:E2; cbn [obind guard negb];
    [reflexivity|].
  apply Z.eqb_neq in E2. unfold linspace.
  destruct (x_bins cfg <? 0)%Z eqn:E0; cbn [obind guard negb];
    [reflexivity|].
  apply Z.ltb_ge in E0. destruct H as [H|[H|H]]; try lia.
  set (s := (x_max cfg - x_min cfg) / IZR (x_bins cfg - 2)).
  assert (Hs : s = 0) by (unfold s; rewrite H; unfold Rdiv; ring).
  apply is_zero_sq in Hs. rewrite Hs. reflexivity.
Qed.

(** What a successful construction holds. *)
Lemma Val2ContBins_init_inv (sq_raises : rounding)
    (cfg : Val2ContBins_cfg) self :
  Val2ContBins_init sq_raises cfg = Some self ->
  let s := (x_max cfg - x_min cfg) / IZR (x_bins cfg - 2) in
  (x_bins cfg - 2 <> 0)%Z /\ (0 <= x_bins cfg)%Z /\ s <> 0 /\
  linspace (x_min cfg - s / 2) (x_max cfg + s / 2) (x_bins cfg)
    = Some (x_offset self) /\
  coeff self = - (5 / 10) / (s * (2 / 10)) ^ 2.
Proof.
  intros H s. unfold Val2ContBins_init in H. fold s in H.
  destruct (x_bins cfg - 2 =? 0)%Z eqn:E2; cbn [obind guard negb] in H;
    [discriminate|].
  apply Z.eqb_neq in E2.
  destruct (linspace (x_min cfg - s / 2) (x_max cfg + s / 2) (x_bins cfg))
    as [offs|] eqn:El; cbn [obind] in H; [|discriminate].
  destruct (is_zero ((s * (2 / 10)) ^ 2)) eqn:Ez;
    cbn [obind guard negb orb] in H; [discriminate|].
  destruct (sq_raises cfg); cbn [obind guard negb] in H; [discriminate|].
  injection H as <-. cbn [x_offset coeff].
  split; [exact E2|]. split.
  - unfold linspace in El. destruct (x_bins cfg <? 0)%Z eqn:E0;
      [discriminate|]. apply Z.ltb_ge in E0. exact E0.
  - split; [|split; reflexivity].
    intros Hs. apply is_zero_sq in Hs. congruence.
Qed.

(** X20. The grid of bin centres.  After a successful construction there are
    [x_bins] offsets, spaced by the bin width
    [s = (x_max - x_min) / (x_bins - 2)] and starting half a bin below
    [x_min]: offset [k] is [x_min + (k - 1/2) * s], so the first and the
    last bin are centred outside [[x_min, x_max]]; the coefficient is
    [-12.5 / s^2]. *)
Theorem Val2ContBins_init_grid (sq_raises : rounding)
    (cfg : Val2ContBins_cfg) (self : Val2ContBins_t) :
  Val2ContBins_init sq_raises cfg = Some self ->
  let s := (x_max cfg - x_min cfg) / IZR (x_bins cfg - 2) in
  length (x_offset self) = Z.to_nat (x_bins cfg) /\
  (forall k, (k < Z.to_nat (x_bins cfg))%nat ->
     nth k (x_offset self) 0 = x_min cfg + (INR k - 1 / 2) * s) /\
  coeff self = - (25 / 2) / (s * s).
Proof.
  intros H s.
  destruct (@Val2ContBins_init_inv _ _ _ H) as (E2 & E0 & Hs & El & Hc).
  fold s in Hs, El, Hc.
  split; [apply (@linspace_length _ _ _ _ El)|]. split.
  - intros k Hk. rewrite (@linspace_nth _ _ _ _ k El) by exact Hk.
    destruct (Z.to_nat (x_bins cfg) =? 1) eqn:E1.
    + apply Nat.eqb_eq in E1. assert (k = 0%nat) by lia. subst k.
      simpl. lra.
    + apply Nat.eqb_neq in E1.
      assert (Hn : (2 <= Z.to_nat (x_bins cfg))%nat) by lia.
      assert (Hnz : INR (Z.to_nat (x_bins cfg) - 1) <> 0).
      { apply not_0_INR. lia. }
      assert (Hspan : x_max cfg - x_min cfg = s * IZR (x_bins cfg - 2)).
      { unfold s. field. intros Hz. apply eq_IZR_R0 in Hz. lia. }
      assert (HI : IZR (x_bins cfg - 2)
                   = INR (Z.to_nat (x_bins cfg) - 1) - 1).
      { rewrite minus_INR by lia. rewrite INR_IZR_INZ, Z2Nat.id by lia.
        rewrite minus_IZR. simpl. lra. }
      assert (Hstep : (x_max cfg + s / 2 - (x_min cfg - s / 2))
                      / INR (Z.to_nat (x_bins cfg) - 1) = s).
      { replace (x_max cfg + s / 2 - (x_min cfg - s / 2))
          with (x_max cfg - x_min cfg + s) by lra.
        rewrite Hspan, HI. field. exact Hnz. }
      rewrite Hstep. lra.
  - rewrite Hc. simpl. field. exact Hs.
Qed.

(** The Gaussian weight of bin [k] for one entry [d], before
    normalisation. *)
Lemma Val2ContBins_forward_at {J} (self : Val2ContBins_t) (dist_x : J -> R)
    out idx k :
  Val2ContBins_forward self dist_x = Some out ->
  (k < length (x_offset self))%nat ->
  out idx k =
  vsoftmax (length (x_offset self))
    (fun j => coeff self * (dist_x idx - nth j (x_offset self) 0) ^ 2) k.
Proof.
  unfold Val2ContBins_forward.
  destruct (length (x_offset self) =? 0) eqn:E0; cbn [obind guard negb];
    [discriminate|].
  apply Nat.eqb_neq in E0. intros [= <-] Hk.
  apply vsoftmax_shift with
    (c := - fmax_upto (length (x_offset self) - 1)
              (fun k0 => coeff self
                         * (dist_x idx - nth k0 (x_offset self) 0) ^ 2));
    [lia| |exact Hk].
  intros u _. unfold Rminus. reflexivity.
Qed.

(** X21. The output is a distribution over the bins, over the reals.  After
    a successful construction, [forward] raises exactly when there is no
    bin ([x_bins = 0]); otherwise, for every entry of the input, the
    weights of the bins are at least 0 and, over the reals, sum to 1. *)
Theorem Val2ContBins_forward_distribution (sq_raises : rounding)
    (cfg : Val2ContBins_cfg) (self : Val2ContBins_t) {J} (dist_x : J -> R) :
  Val2ContBins_init sq_raises cfg = Some self ->
  match Val2ContBins_forward self dist_x with
  | Some out =>
      (1 <= x_bins cfg)%Z /\
      forall idx,
        fsum (Z.to_nat (x_bins cfg)) (out idx) = 1 /\
        forall k, (k < Z.to_nat (x_bins cfg))%nat -> 0 <= out idx k
  | None => x_bins cfg = 0%Z
  end.
Proof.
  intros H.
  destruct (@Val2ContBins_init_inv _ _ _ H) as (E2 & E0 & Hs & El & Hc).
  pose proof (@linspace_length _ _ _ _ El) as Hlen.
  destruct (Val2ContBins_forward self dist_x) as [out|] eqn:Ef.
  - assert (Hn : (0 < length (x_offset self))%nat).
    { unfold Val2ContBins_forward in Ef.
      destruct (length (x_offset self) =? 0) eqn:E;
        cbn [obind guard negb] in Ef; [discriminate|].
      apply Nat.eqb_neq in E. lia. }
    split; [lia|]. intros idx. rewrite <- Hlen. split.
    + rewrite (@fsum_ext R Scalar_R (length (x_offset self)) (out idx)
                 (vsoftmax (length (x_offset self))
                    (fun j => coeff self
                       * (dist_x idx - nth j (x_offset self) 0) ^ 2)))
        by (intros k Hk; apply (@Val2ContBins_forward_at _ _ _ _ idx k Ef Hk)).
      apply vsoftmax_sum_one, Hn.
    + intros k Hk. rewrite (@Val2ContBins_forward_at _ _ _ _ idx k Ef Hk).
      apply Rlt_le, vsoftmax_pos, Hn.
  - unfold Val2ContBins_forward in Ef.
    destruct (length (x_offset self) =? 0) eqn:E;
      cbn [obind guard negb] in Ef; [|discriminate].
    apply Nat.eqb_eq in E. lia.
Qed.

(** X22. The subtraction of the maximum does not show in the result: the weight
    of bin [k] for an entry [d] is the normalised Gaussian
    [exp (coeff * (d - offset_k)^2) / sum_j exp (coeff * (d - offset_j)^2)]. *)
Theorem Val2ContBins_forward_gaussian {J} (self : Val2ContBins_t)
    (dist_x : J -> R) (out : J -> nat -> R) (idx : J) (k : nat) :
  Val2ContBins_forward self dist_x = Some out ->
  (k < length (x_offset self))%nat ->
  out idx k =
  exp (coeff self * (dist_x idx - nth k (x_offset self) 0) ^ 2)
  / fsum (length (x_offset self))
      (fun j => exp (coeff self * (dist_x idx - nth j (x_offset self) 0) ^ 2)).
Proof.
  intros Hf Hk. rewrite (@Val2ContBins_forward_at _ _ _ _ idx k Hf Hk).
  reflexivity.
Qed.

(** X23. The nearer bin gets the larger weight: for bins [i] and [j] with the
    offset of [i] at least as close to the entry as that of [j], the weight
    of [i] is at least that of [j]. *)
Theorem Val2ContBins_forward_nearest (sq_raises : rounding)
    (cfg : Val2ContBins_cfg) (self : Val2ContBins_t) {J} (dist_x : J -> R)
    (out : J -> nat -> R) (idx : J) (i j : nat) :
  Val2ContBins_init sq_raises cfg = Some self ->
  Val2ContBins_forward self dist_x = Some out ->
  (i < length (x_offset self))%nat -> (j < length (x_offset self))%nat ->
  Rabs (dist_x idx - nth i (x_offset self) 0)
    <= Rabs (dist_x idx - nth j (x_offset self) 0) ->
  out idx j <= out idx i.
Proof.
  intros Hinit Hf Hi Hj Habs.
  destruct (@Val2ContBins_init_inv _ _ _ Hinit) as (_ & _ & Hs & _ & Hc).
  set (s := (x_max cfg - x_min cfg) / IZR (x_bins cfg - 2)) in *.
  assert (Hneg : coeff self < 0).
  { rewrite Hc. assert (0 < (s * (2 / 10)) ^ 2).
    { simpl. rewrite Rmult_1_r.
      assert (s * (2 / 10) <> 0) by (intros E; apply Hs; lra).
      nra. }
    unfold Rdiv. rewrite <- Ropp_mult_distr_l.
    apply Ropp_lt_gt_0_contravar. apply Rmult_gt_0_compat; [lra|].
    apply Rinv_0_lt_compat. assumption. }
  rewrite (@Val2ContBins_forward_at _ _ _ _ idx i Hf Hi),
          (@Val2ContBins_forward_at _ _ _ _ idx j Hf Hj).
  unfold vsoftmax.
  set (xi := dist_x idx - nth i (x_offset self) 0) in *.
  set (xj := dist_x idx - nth j (x_offset self) 0) in *.
  assert (Hsq : xi ^ 2 <= xj ^ 2).
  { rewrite <- (pow2_abs xi), <- (pow2_abs xj).
    pose proof (Rabs_pos xi). simpl. nra. }
  assert (Hpos : 0 < fsum (length (x_offset self))
                       (fun t' => exp (coeff self
                          * (dist_x idx - nth t' (x_offset self) 0) ^ 2))).
  { apply fsum_exp_pos. lia. }
  apply Rmult_le_compat_r; [apply Rlt_le, Rinv_0_lt_compat, Hpos|].
  destruct (Req_dec (xi ^ 2) (xj ^ 2)) as [E|E].
  - rewrite E. lra.
  - apply Rlt_le, exp_increasing. nra.
Qed.

End ContBinFacts.

Lemma contbins_init_ex :
  Val2ContBins_init no_rounding contbins_cfg = Some contbins_ex.
Proof.
  unfold Val2ContBins_init, contbins_cfg. cbn [x_bins x_min x_max].
  change (4 - 2 =? 0)%Z with false. cbn [obind guard negb].
  change (linspace _ _ 4) with (Some (x_offset contbins_ex)).
  cbn [obind].
  assert (E : is_zero (((2 - 0) / IZR (4 - 2) * (2 / 10)) ^ 2) = false).
  { destruct (is_zero _) eqn:Ez; [|reflexivity].
    apply is_zero_sq in Ez. simpl in Ez. lra. }
  rewrite E. reflexivity.
Qed.

Lemma Val2ContBins_init_raises_witness :
  Val2ContBins_init no_rounding
    {| x_min := 1%R; x_max := 1%R; x_bins := 4 |} = None.
Proof.
  apply (@Val2ContBins_init_raises no_rounding
           {| x_min := 1%R; x_max := 1%R; x_bins := 4 |}).
  right. right. reflexivity.
Defined.

Lemma Val2ContBins_init_grid_witness :
  length (x_offset contbins_ex) = Z.to_nat (x_bins contbins_cfg) /\
  (forall k, k < Z.to_nat (x_bins contbins_cfg) ->
     nth k (x_offset contbins_ex) 0%R
     = (x_min contbins_cfg
        + (INR k - 1 / 2)
          * ((x_max contbins_cfg - x_min contbins_cfg)
             / IZR (x_bins contbins_cfg - 2)))%R) /\
  coeff contbins_ex
  = (- (25 / 2)
     / ((x_max contbins_cfg - x_min contbins_cfg)
        / IZR (x_bins contbins_cfg - 2)
        * ((x_max contbins_cfg - x_min contbins_cfg)
           / IZR (x_bins contbins_cfg - 2))))%R.
Proof.
  apply (@Val2ContBins_init_grid no_rounding contbins_cfg contbins_ex).
  exact contbins_init_ex.
Defined.

Lemma Val2ContBins_forward_distribution_witness :
  match Val2ContBins_forward contbins_ex two_dists with
  | Some out =>
      (1 <= x_bins contbins_cfg)%Z /\
      forall idx,
        fsum (Z.to_nat (x_bins contbins_cfg)) (out idx) = 1%R /\
        forall k, k < Z.to_nat (x_bins contbins_cfg) -> (0 <= out idx k)%R
  | None => x_bins contbins_cfg = 0%Z
  end.
Proof.
  apply (@Val2ContBins_forward_distribution no_rounding contbins_cfg
           contbins_ex bool two_dists).
  exact contbins_init_ex.
Defined.

Lemma Val2ContBins_forward_gaussian_witness :
  exists out,
    Val2ContBins_forward contbins_ex two_dists = Some out /\
    out true 1%nat =
    (exp (coeff contbins_ex
          * (two_dists true - nth 1 (x_offset contbins_ex) 0) ^ 2)
     / fsum (length (x_offset contbins_ex))
         (fun j => exp (coeff contbins_ex
                        * (two_dists true - nth j (x_offset contbins_ex) 0)
                          ^ 2)))%R.
Proof.
  eexists. split; [reflexivity|].
  apply (@Val2ContBins_forward_gaussian bool contbins_ex two_dists _ true 1).
  - reflexivity.
  - simpl. lia.
Defined.

Lemma Val2ContBins_forward_nearest_witness :
  exists out,
    Val2ContBins_forward contbins_ex two_dists = Some out /\
    (out false 3%nat <= out false 0%nat)%R.
Proof.
  eexists. split; [reflexivity|].
  apply (@Val2ContBins_forward_nearest no_rounding contbins_cfg contbins_ex
           bool two_dists _ false 0 3).
  - exact contbins_init_ex.
  - reflexivity.
  - simpl. lia.
  - simpl. lia.
  - simpl. unfold Rabs. repeat destruct (Rcase_abs _); lra.
Defined.

Section Node2EdgeReal.

Import Value.

Local Open Scope R_scope.

Variables (in_dim proj_dim : nat).
Variable P : Node2Edge_params (F := R).
Variable n_seq : nat.

Lemma fsum_R_zero_upto n (g : nat -> R) :
  (forall t, (t < n)%nat -> g t = 0) -> fsum n g = 0.
Proof.
  induction n as [|n IH]; simpl; intros H; [reflexivity|].
  rewrite IH by (intros; apply H; lia). rewrite H by lia. lra.
Qed.

(** X24. Masked positions do not influence the result.  When the mask is 0 at
    row [s0] and position [i0], the node features at that place can be
    replaced by anything without changing any entry of the output. *)
Theorem Node2Edge_masked_input_unused
    (node_repr node_repr' : nat -> nat -> nat -> R) (mask : nat -> nat -> R)
    (s0 i0 : nat) :
  mask s0 i0 = 0 ->
  (forall s i a, (s <> s0 \/ i <> i0) -> node_repr' s i a = node_repr s i a) ->
  proj_dim <> 0%nat ->
  exists out out',
    Node2Edge_forward in_dim proj_dim P (1 / 1000) n_seq node_repr mask
      = Some out /\
    Node2Edge_forward in_dim proj_dim P (1 / 1000) n_seq node_repr' mask
      = Some out' /\
    forall i j f, out' i j f = out i j f.
Proof.
  intros Hm Hsame Hp. unfold Node2Edge_forward.
  destruct (proj_dim =? 0)%nat eqn:E; [apply Nat.eqb_eq in E; contradiction|].
  cbn [obind guard negb].
  eexists _, _. split; [reflexivity|]. split; [reflexivity|].
  assert (HA : forall s i k,
             n2e_act_masked in_dim P node_repr' mask s i k
             = n2e_act_masked in_dim P node_repr mask s i k).
  { intros s i k. unfold n2e_act_masked.
    destruct (Nat.eq_dec s s0) as [Es|Es];
      [destruct (Nat.eq_dec i i0) as [Ei|Ei]|].
    - subst s i. rewrite Hm. simpl. ring.
    - f_equal. unfold n2e_act. f_equal. apply fsum_ext. intros a _.
      f_equal. apply normalize_ext. intros a'. apply Hsame. now right.
    - f_equal. unfold n2e_act. f_equal. apply fsum_ext. intros a _.
      f_equal. apply normalize_ext. intros a'. apply Hsame. now left. }
  intros i j f.
  assert (HO : n2e_out in_dim proj_dim P n_seq node_repr' mask i j f
               = n2e_out in_dim proj_dim P n_seq node_repr mask i j f).
  { unfold n2e_out. apply f_equal2; [|reflexivity].
    apply fsum_ext. intros s _. apply fsum_ext. intros d _.
    apply fsum_ext. intros e _. unfold n2e_l, n2e_r. now rewrite !HA. }
  cbv beta. rewrite HO. reflexivity.
Qed.

(** X25. A position that is masked in every row gets the output bias, scaled:
    with all products gone and the normaliser at its floor [1e-3], every
    pair that involves the position holds [out_bias * 1000]. *)
Theorem Node2Edge_fully_masked_position
    (node_repr : nat -> nat -> nat -> R) (mask : nat -> nat -> R)
    (i0 : nat) :
  (forall s, (s < n_seq)%nat -> mask s i0 = 0) ->
  proj_dim <> 0%nat ->
  exists out,
    Node2Edge_forward in_dim proj_dim P (1 / 1000) n_seq node_repr mask
      = Some out /\
    forall j f, out i0 j f = out_bias P f * 1000 /\
                out j i0 f = out_bias P f * 1000.
Proof.
  intros Hm Hp. unfold Node2Edge_forward.
  destruct (proj_dim =? 0)%nat eqn:E; [apply Nat.eqb_eq in E; contradiction|].
  cbn [obind guard negb].
  eexists. split; [reflexivity|].
  assert (HA : forall s k, (s < n_seq)%nat ->
             n2e_act_masked in_dim P node_repr mask s i0 k = 0).
  { intros s k Hs. unfold n2e_act_masked. rewrite Hm by exact Hs.
    simpl. ring. }
  intros j f. cbv beta. split.
  - unfold n2e_out, n2e_norm, n2e_l.
    rewrite !fsum_R_zero_upto.
    + simpl. field.
    + intros s Hs. simpl. rewrite Hm by exact Hs. ring.
    + intros s Hs. apply fsum_R_zero_upto. intros d _.
      apply fsum_R_zero_upto. intros e _. rewrite HA by exact Hs.
      simpl. ring.
  - unfold n2e_out, n2e_norm, n2e_r.
    rewrite !fsum_R_zero_upto.
    + simpl. field.
    + intros s Hs. simpl. rewrite Hm by exact Hs. ring.
    + intros s Hs. apply fsum_R_zero_upto. intros d _.
      apply fsum_R_zero_upto. intros e _. rewrite HA by exact Hs.
      simpl. ring.
Qed.

End Node2EdgeReal.

Lemma Node2Edge_masked_input_unused_witness :
  exists out out',
    Value.Node2Edge_forward 2 1 n2e_params (1 / 1000)%R 2 n2e_node n2e_mask
      = Some out /\
    Value.Node2Edge_forward 2 1 n2e_params (1 / 1000)%R 2 n2e_node' n2e_mask
      = Some out' /\
    forall i j f, out' i j f = out i j f.
Proof.
  apply (@Node2Edge_masked_input_unused 2 1 n2e_params 2 n2e_node n2e_node'
           n2e_mask 0 0).
  - reflexivity.
  - intros s i a H. unfold n2e_node'.
    destruct s as [|s]; destruct i as [|i]; simpl; try reflexivity.
    destruct H as [H|H]; contradiction.
  - lia.
Defined.

Lemma Node2Edge_fully_masked_position_witness :
  exists out,
    Value.Node2Edge_forward 2 1 n2e_params (1 / 1000)%R 2 n2e_node n2e_mask
      = Some out /\
    forall j f, out 0 j f = (Value.out_bias n2e_params f * 1000)%R /\
                out j 0 f = (Value.out_bias n2e_params f * 1000)%R.
Proof.
  apply (@Node2Edge_fully_masked_position 2 1 n2e_params 2 n2e_node n2e_mask
           0).
  - intros s Hs. reflexivity.
  - lia.
Defined.

(** ** [softmax] on the store: what the in-place branch overwrites *)

Section HeapSoftmax.

Context {I F : Type} {SF : Scalar F}.

Local Abbreviation tensor := (bmat I F).

Lemma nth_error_upd_eq {A} (l : list A) i x :
  i < length l -> nth_error (Heap.upd l i x) i = Some x.
Proof.
  revert i. induction l as [|a l IH]; intros i Hi; simpl in *; [lia|].
  destruct i as [|i]; simpl; [reflexivity|]. apply IH. lia.
Qed.

Lemma nth_error_upd_neq {A} (l : list A) i j x :
  i <> j -> nth_error (Heap.upd l i x) j = nth_error l j.
Proof.
  revert i j. induction l as [|a l IH]; intros i j Hij; simpl.
  - reflexivity.
  - destruct i as [|i]; destruct j as [|j]; simpl; try reflexivity;
      [lia|]. apply IH. lia.
Qed.

Lemma bind_some {A B} (m : Heap.M (I := I) (F := F) A) (f : A -> Heap.M B) h a h' :
  m h = (Some a, h') -> Heap.bind m f h = f a h'.
Proof. intros E. unfold Heap.bind. now rewrite E. Qed.

Lemma bind_none {A B} (m : Heap.M (I := I) (F := F) A) (f : A -> Heap.M B) h h' :
  m h = (None, h') -> Heap.bind m f h = (None, h').
Proof. intros E. unfold Heap.bind. now rewrite E. Qed.

Lemma read_at h x (st : tensor) :
  nth_error h (Heap.h_loc x) = Some st ->
  Heap.read x h = (Some (narrow st (Heap.h_off x) (Heap.h_rows x)), h).
Proof. intros E. unfold Heap.read. now rewrite E. Qed.

Lemma write_at h x (v st : tensor) :
  nth_error h (Heap.h_loc x) = Some st ->
  Heap.write x v h = (Some tt, Heap.upd h (Heap.h_loc x) (written x v st)).
Proof. intros E. unfold Heap.write. now rewrite E. Qed.

(** Reading through a Heap.handle what has just been written through it. *)
Lemma narrow_written x (v st : tensor) :
  nrows v = Heap.h_rows x -> ncols v = ncols st ->
  same_rows (narrow (written x v st) (Heap.h_off x) (Heap.h_rows x)) v.
Proof.
  intros Hr Hc. repeat split; simpl; auto.
  intros b i j Hi.
  destruct (Nat.leb_spec (Heap.h_off x) (Heap.h_off x + i)); [|lia].
  destruct (Nat.ltb_spec (Heap.h_off x + i) (Heap.h_off x + Heap.h_rows x)); [|lia].
  simpl. f_equal. lia.
Qed.

Lemma same_rows_refl (v : tensor) : same_rows v v.
Proof. repeat split. Qed.

Lemma same_rows_trans (u v w : tensor) :
  same_rows u v -> same_rows v w -> same_rows u w.
Proof.
  intros (A1 & A2 & A3) (B1 & B2 & B3). repeat split; try congruence.
  intros b i j Hi. rewrite A3 by lia. apply B3, Hi.
Qed.

Lemma tmap_same f (v' v : tensor) :
  same_rows v' v -> same_rows (tmap f v') (tmap f v).
Proof.
  intros (A1 & A2 & A3). repeat split; simpl; auto.
  intros b i j Hi. now rewrite A3.
Qed.

Lemma sum_keepdim_same a (v' v : tensor) :
  same_rows v' v -> same_rows (sum_keepdim v' a) (sum_keepdim v a).
Proof.
  intros (A1 & A2 & A3). destruct a; repeat split; simpl; auto.
  - intros b i j _. rewrite A1. apply fsum_ext. intros i' Hi'. now apply A3.
  - intros b i j Hi. rewrite A2. apply fsum_ext. intros j' _. now apply A3.
Qed.

Lemma broadcast2_into_same op (x' x y' y : tensor) :
  same_rows x' x -> same_rows y' y ->
  opt_rel same_rows (broadcast2_into op x' y') (broadcast2_into op x y).
Proof.
  intros (A1 & A2 & A3) (B1 & B2 & B3). unfold broadcast2_into.
  rewrite A1, A2, B1, B2.
  destruct (expands_to (nrows y) (nrows x) && expands_to (ncols y) (ncols x))
    eqn:E; simpl; [|exact Logic.I].
  repeat split; simpl; auto.
  intros b i j Hi. rewrite A3 by exact Hi. f_equal.
  apply B3. apply andb_prop in E. destruct E as [E _].
  unfold expands_to in E. unfold bidx.
  destruct (nrows y =? 1) eqn:E1.
  - apply Nat.eqb_eq in E1. lia.
  - rewrite orb_false_r in E. apply Nat.eqb_eq in E. lia.
Qed.

Lemma narrow_full_same (v : tensor) : same_rows (narrow v 0 (nrows v)) v.
Proof. repeat split. Qed.

Lemma alloc_at h (v : tensor) :
  Heap.alloc v h = (Some (Heap.Handle (length h) 0 (nrows v)), h ++ [v]).
Proof. reflexivity. Qed.

Lemma nth_error_snoc_old {A} (l : list A) x i a :
  nth_error l i = Some a -> nth_error (l ++ [x]) i = Some a.
Proof.
  intros E. rewrite nth_error_app1; [exact E|].
  apply nth_error_Some. congruence.
Qed.

Lemma nth_error_snoc_new {A} (l : list A) x :
  nth_error (l ++ [x]) (length l) = Some x.
Proof. rewrite nth_error_app2 by lia. now rewrite Nat.sub_diag. Qed.

Lemma broadcast2_into_shape op (x y r : tensor) :
  broadcast2_into op x y = Some r -> nrows r = nrows x /\ ncols r = ncols x.
Proof.
  unfold broadcast2_into.
  destruct (expands_to _ _ && expands_to _ _); simpl; [|discriminate].
  intros [= <-]. split; reflexivity.
Qed.

Lemma written_outside x (v st : tensor) b i j :
  i < Heap.h_off x \/ Heap.h_off x + Heap.h_rows x <= i ->
  at_ (written x v st) b i j = at_ st b i j.
Proof.
  intros H. simpl.
  destruct (Nat.leb_spec (Heap.h_off x) i); simpl; [|reflexivity].
  destruct (Nat.ltb_spec i (Heap.h_off x + Heap.h_rows x)); [lia|reflexivity].
Qed.

(** X26. The in-place branch of [softmax] works on the storage of its
    argument.  For a handle [x] on rows of a storage, the call returns [x]
    itself, and afterwards the rows under [x] hold the softmax of what they
    held before, while the other rows of that storage and every other
    storage that existed before the call are as they were; the call raises
    exactly when the function on values does. *)
Theorem softmax_in_place_overwrites (x : Heap.handle) (dim : Z)
    (h : Heap.heap) (st : tensor) :
  nth_error h (Heap.h_loc x) = Some st ->
  match softmax (narrow st (Heap.h_off x) (Heap.h_rows x)) dim true with
  | Some y =>
      exists h' st',
        Heap.softmax x dim true h = (Some x, h') /\
        nth_error h' (Heap.h_loc x) = Some st' /\
        same_rows (narrow st' (Heap.h_off x) (Heap.h_rows x)) y /\
        (forall b i j, i < Heap.h_off x \/ Heap.h_off x + Heap.h_rows x <= i ->
           at_ st' b i j = at_ st b i j) /\
        (forall l, l < length h -> l <> Heap.h_loc x ->
           nth_error h' l = nth_error h l)
  | None => fst (Heap.softmax x dim true h) = None
  end.
Proof.
  intros Hst.
  assert (Hloc : Heap.h_loc x < length h) by (apply nth_error_Some; congruence).
  unfold softmax.
  cbv [Heap.softmax Heap.bind Heap.lift Heap.ret Heap.binary_into Heap.unary].
  destruct (axis_of_dim dim) as [a|]; [|reflexivity].
  cbn [obind].
  rewrite (@read_at h x st Hst).
  set (xv := narrow st (Heap.h_off x) (Heap.h_rows x)).
  destruct (max_keepdim xv a) as [mv|] eqn:Emv; [|reflexivity].
  cbn [obind]. rewrite alloc_at.
  set (h1 := h ++ [mv]).
  assert (H1 : nth_error h1 (Heap.h_loc x) = Some st)
    by (apply nth_error_snoc_old, Hst).
  rewrite (@read_at h1 x st H1). fold xv.
  rewrite (@read_at h1 (Heap.Handle (length h) 0 (nrows mv)) mv
             (nth_error_snoc_new h mv)).
  cbn [Heap.h_off Heap.h_rows].
  pose proof (@broadcast2_into_same fsub _ _ _ _ (same_rows_refl xv)
                (narrow_full_same mv)) as R1.
  destruct (broadcast2_into fsub xv mv) as [p1|] eqn:Ep1;
    destruct (broadcast2_into fsub xv (narrow mv 0 (nrows mv)))
      as [r1|] eqn:Er1; simpl in R1; try contradiction; [|reflexivity].
  cbn [obind].
  destruct (broadcast2_into_shape _ _ _ Er1) as [Hr1 Hc1].
  rewrite (@write_at h1 x r1 st H1).
  set (st1 := written x r1 st). set (h2 := Heap.upd h1 (Heap.h_loc x) st1).
  assert (Hl1 : Heap.h_loc x < length h1)
    by (unfold h1; rewrite length_app; simpl; lia).
  assert (H2 : nth_error h2 (Heap.h_loc x) = Some st1)
    by (apply nth_error_upd_eq, Hl1).
  rewrite (@read_at h2 x st1 H2).
  set (xv1 := narrow st1 (Heap.h_off x) (Heap.h_rows x)).
  assert (S1 : same_rows xv1 p1).
  { apply same_rows_trans with (v := r1); [|exact R1].
    apply narrow_written; [exact Hr1|exact Hc1]. }
  rewrite (@write_at h2 x (tmap fexp xv1) st1 H2).
  set (st2 := written x (tmap fexp xv1) st1).
  set (h3 := Heap.upd h2 (Heap.h_loc x) st2).
  assert (Hl2 : Heap.h_loc x < length h2)
    by (unfold h2; rewrite length_upd; exact Hl1).
  assert (H3 : nth_error h3 (Heap.h_loc x) = Some st2)
    by (apply nth_error_upd_eq, Hl2).
  rewrite (@read_at h3 x st2 H3).
  set (xv2 := narrow st2 (Heap.h_off x) (Heap.h_rows x)).
  assert (S2 : same_rows xv2 (tmap fexp p1)).
  { apply same_rows_trans with (v := tmap fexp xv1);
      [|apply tmap_same, S1].
    apply narrow_written; reflexivity. }
  rewrite alloc_at.
  set (sv := sum_keepdim xv2 a). set (h4 := h3 ++ [sv]).
  assert (H4 : nth_error h4 (Heap.h_loc x) = Some st2)
    by (apply nth_error_snoc_old, H3).
  rewrite (@read_at h4 x st2 H4). fold xv2.
  rewrite (@read_at h4 (Heap.Handle (length h3) 0 (nrows sv)) sv
             (nth_error_snoc_new h3 sv)).
  cbn [Heap.h_off Heap.h_rows].
  pose proof (@broadcast2_into_same fdiv _ _ _ _ S2
                (same_rows_trans (narrow_full_same sv)
                   (sum_keepdim_same a S2))) as R3.
  destruct (broadcast2_into fdiv (tmap fexp p1)
              (sum_keepdim (tmap fexp p1) a)) as [y|] eqn:Ey;
    destruct (broadcast2_into fdiv xv2 (narrow sv 0 (nrows sv)))
      as [r3|] eqn:Er3; simpl in R3; try contradiction; [|reflexivity].
  destruct (broadcast2_into_shape _ _ _ Er3) as [Hr3 Hc3].
  rewrite (@write_at h4 x r3 st2 H4).
  set (st3 := written x r3 st2).
  assert (Hl3 : Heap.h_loc x < length h3)
    by (unfold h3; rewrite length_upd; exact Hl2).
  assert (Hl4 : Heap.h_loc x < length h4)
    by (unfold h4; rewrite length_app; simpl; lia).
  exists (Heap.upd h4 (Heap.h_loc x) st3), st3.
  split; [reflexivity|]. split; [apply nth_error_upd_eq, Hl4|]. split.
  - apply same_rows_trans with (v := r3); [|exact R3].
    apply narrow_written; [exact Hr3|exact Hc3].
  - split.
    + intros b i j Hout. unfold st3, st2, st1.
      rewrite !written_outside by exact Hout. reflexivity.
    + intros l Hl Hne.
      rewrite nth_error_upd_neq by congruence.
      unfold h4. rewrite nth_error_app1
        by (unfold h3, h2, h1; rewrite !length_upd, length_app; simpl; lia).
      unfold h3. rewrite nth_error_upd_neq by congruence.
      unfold h2. rewrite nth_error_upd_neq by congruence.
      unfold h1. apply nth_error_app1. exact Hl.
Qed.

(** The other branch of [softmax] leaves the store as it was and returns a
    handle on new storage that holds the result. *)
Lemma softmax_out_of_place_allocates (x : Heap.handle) (dim : Z) (a : axis)
    (h : Heap.heap) (st : tensor) :
  nth_error h (Heap.h_loc x) = Some st ->
  axis_of_dim dim = Some a ->
  Heap.softmax x dim false h
  = (Some (Heap.Handle (length h) 0 (Heap.h_rows x)),
     h ++ [torch_softmax (narrow st (Heap.h_off x) (Heap.h_rows x)) a]).
Proof.
  intros Hst Ha.
  cbv [Heap.softmax Heap.bind Heap.lift Heap.ret Heap.unary].
  rewrite Ha. rewrite (@read_at h x st Hst). reflexivity.
Qed.

(** X27. The results of [attention] are new tensors.  When the call
    returns, the output and the weights are whole tensors on the two
    storages the call allocated first, one each: they share storage neither
    with an argument, nor with anything else that existed before the call,
    nor with each other, and they have one row per query. *)
Theorem attention_results_fresh junk (query key : Heap.handle) (scale : F)
    (value bias : Heap.handle) (subbatch_size : option Z)
    (h h' : Heap.heap (I := I) (F := F)) (out wts : Heap.handle) :
  Heap.attention junk query key scale value bias subbatch_size h
    = (Some (out, wts), h') ->
  out = Heap.Handle (length h) 0 (Heap.h_rows query) /\
  wts = Heap.Handle (S (length h)) 0 (Heap.h_rows query).
Proof.
  unfold Heap.attention. cbv [Heap.bind Heap.ret].
  destruct (Heap.read value h) as [[vv|] h0] eqn:Er; [|discriminate].
  assert (h0 = h) by (unfold Heap.read in Er; now injection Er). subst h0.
  rewrite !alloc_at. cbn [nrows torch_empty].
  destruct (Heap.split_views query _ _) as [[chunks|] h1]; [|discriminate].
  destruct (Heap.for_each _ _ h1) as [[u|] h2]; [|discriminate].
  intros [= <- <- _]. split; [reflexivity|].
  rewrite length_app. simpl. f_equal. lia.
Qed.

End HeapSoftmax.

Lemma softmax_in_place_overwrites_witness :
  match softmax (narrow q_ex (Heap.h_off hq_tail_ex) (Heap.h_rows hq_tail_ex))
          (-1) true with
  | Some y =>
      exists h' st',
        Heap.softmax hq_tail_ex (-1) true store_ex = (Some hq_tail_ex, h') /\
        nth_error h' (Heap.h_loc hq_tail_ex) = Some st' /\
        same_rows
          (narrow st' (Heap.h_off hq_tail_ex) (Heap.h_rows hq_tail_ex)) y /\
        (forall b i j,
           i < Heap.h_off hq_tail_ex \/
           Heap.h_off hq_tail_ex + Heap.h_rows hq_tail_ex <= i ->
           at_ st' b i j = at_ q_ex b i j) /\
        (forall l, l < length store_ex -> l <> Heap.h_loc hq_tail_ex ->
           nth_error h' l = nth_error store_ex l)
  | None => fst (Heap.softmax hq_tail_ex (-1) true store_ex) = None
  end.
Proof.
  apply (@softmax_in_place_overwrites unit R Scalar_R hq_tail_ex (-1)%Z
           store_ex q_ex).
  reflexivity.
Defined.

Lemma attention_results_fresh_witness :
  exists out wts h',
    Heap.attention no_junk hq_ex hk_ex 1%R hv_ex hb_ex (Some 2%Z) store_ex
      = (Some (out, wts), h') /\
    out = Heap.Handle (length store_ex) 0 (Heap.h_rows hq_ex) /\
    wts = Heap.Handle (S (length store_ex)) 0 (Heap.h_rows hq_ex).
Proof.
  destruct (Heap.attention no_junk hq_ex hk_ex 1%R hv_ex hb_ex (Some 2%Z)
              store_ex) as [[[out wts]|] h'] eqn:E.
  - exists out, wts, h'. split; [reflexivity|].
    apply (@attention_results_fresh unit R Scalar_R no_junk hq_ex hk_ex 1%R
             hv_ex hb_ex (Some 2%Z) store_ex h' out wts).
    exact E.
  - exfalso. vm_compute in E. discriminate.
Defined.
